(** * Lumina: the local library engine

    A shallow embedding of the record store ([src/services/db.ts]) and of
    the aggregation, sorting and bulk-mutation code of [src/App.tsx],
    together with the properties the specification states about them.

    Conventions of the embedding.
    - A JavaScript string is a [string]: a sequence of code units, each
      below U+0100.  [trim] and [toLowerCase] follow ECMAScript on that
      range.
    - A JavaScript number that holds an integer (time stamps, counters,
      the series start index) is the [Z] it holds.  Time stamps and
      counters stay in the safe range, where the arithmetic of [Z] is that
      of the host.  The series start index is typed by the user: the sum
      with it is rounded to the nearest Number ([numberAdd]), and
      [toString] prints a Number in its shortest decimal form, both as
      the host does.
    - An optional field ([f?: string]) is an [option string]; [None] is
      [undefined].
    - A [Map] is an association list in insertion order with unique keys.
    - The IndexedDB object store with key path [id] is a [gmap] from the
      key to the stored record.
    - [Array.prototype.sort] is a stable sort; it is embedded as a stable
      insertion sort, which computes the same array whenever the
      comparator is consistent.

    The development also covers the organizer ([src/services/organizer.ts]),
    the detail view ([src/components/BookDetail.tsx]), the import of files
    ([src/components/UploadModal.tsx], [services/gemini.ts]) and the
    master lock ([services/auth.ts]), with these further conventions.
    - What the program draws from its environment is an input of the
      embedding: the value of [Date.now()] at each reading, the random
      identifiers and color indices, and the answers of the model service
      (absent without API key, and failing or giving a record of the
      response schema otherwise).
    - An entry of [localStorage] written by the program is the record that
      [JSON.parse] gives for it.
    - A plain object used as a dictionary is a [gmap] for its own
      properties, next to the list of the property names it inherits. *)

From Stdlib Require Import ZArith Ascii String DecimalString.
From stdpp Require Import gmap strings list fin_maps.

Local Open Scope string_scope.
Local Open Scope Z_scope.
Local Open Scope list_scope.

(** ** Strings of the host language *)

Definition charCode (c : ascii) : Z := Z.of_N (N_of_ascii c).

(** WhiteSpace and LineTerminator code points below U+0100. *)
Definition isWhiteSpace (c : ascii) : bool :=
  let n := charCode c in
  ((9 <=? n) && (n <=? 13)) || (n =? 32) || (n =? 160).

Definition toLowerChar (c : ascii) : ascii :=
  let n := charCode c in
  if ((65 <=? n) && (n <=? 90))
     || ((192 <=? n) && (n <=? 222) && negb (n =? 215))
  then ascii_of_N (Z.to_N (n + 32))
  else c.

Fixpoint toLowerCase (s : string) : string :=
  match s with
  | EmptyString => EmptyString
  | String c s' => String (toLowerChar c) (toLowerCase s')
  end.

Fixpoint trimStart (s : string) : string :=
  match s with
  | EmptyString => EmptyString
  | String c s' => if isWhiteSpace c then trimStart s' else s
  end.

Fixpoint trimEnd (s : string) : string :=
  match s with
  | EmptyString => EmptyString
  | String c s' =>
      let r := trimEnd s' in
      if isWhiteSpace c && bool_decide (r = EmptyString)
      then EmptyString else String c r
  end.

Definition trim (s : string) : string := trimEnd (trimStart s).

(** [s.includes(sub)] *)
Fixpoint includes (s sub : string) : bool :=
  String.prefix sub s ||
  match s with
  | EmptyString => false
  | String _ s' => includes s' sub
  end.

(** ** Numbers of the host language *)

(** A Number that holds an integer is embedded as that integer.  The
    integers that are Numbers are those of at most 53 significant bits,
    below 2^1024 in magnitude. *)

(** The decimal digits of an integer, with the sign of a negative one. *)
Definition decimal (n : Z) : string := NilZero.string_of_int (Z.to_int n).

(** The Number nearest to an integer, ties going to the even significand:
    the rounding that ends every arithmetic operation. *)
Definition roundToNumber (n : Z) : Z :=
  let a := Z.abs n in
  let e := Z.log2 a - 52 in
  if e <=? 0 then n
  else
    let q := a / 2 ^ e in
    let r := a mod 2 ^ e in
    let q' := if 2 * r <? 2 ^ e then q
              else if 2 ^ e <? 2 * r then q + 1
              else if Z.even q then q else q + 1 in
    Z.sgn n * (q' * 2 ^ e).

(** [a + b] on Numbers that hold integers.  (The sum of a Number and an
    array index does not overflow.) *)
Definition numberAdd (a b : Z) : Z := roundToNumber (a + b).

(** The digits of [Number::toString]: the least number of digits [s] with
    a power of ten [p] such that [s * 10^p] rounds to the Number [v], and
    among these the nearest to [v], the even one on a tie.  [lo2] and
    [hi2] are twice the ends of the interval of the values that round to
    [v]; the ends belong to it when [closed]. *)
Section Shortest.
Variables (v lo2 hi2 : Z) (closed : bool).

Definition candidate (p : nat) : option Z :=
  let d := 10 ^ Z.of_nat p in
  let smin := if closed then - ((- lo2) / (2 * d)) else lo2 / (2 * d) + 1 in
  let smax := if closed then hi2 / (2 * d) else - ((- hi2) / (2 * d)) - 1 in
  if smax <? smin then None
  else
    let sf := Z.max smin (Z.min smax (v / d)) in
    let sc := Z.max smin (Z.min smax (v / d + 1)) in
    let df := Z.abs (sf * d - v) in
    let dc := Z.abs (sc * d - v) in
    Some (if df <? dc then sf
          else if dc <? df then sc
          else if Z.even sf then sf else sc).

Fixpoint shortest (p : nat) : Z * nat :=
  match candidate p with
  | Some s => (s, p)
  | None => match p with
            | O => (v, O)
            | S p' => shortest p'
            end
  end.
End Shortest.

Fixpoint zeros (p : nat) : string :=
  match p with
  | O => ""
  | S p' => String "0" (zeros p')
  end.

(** [n.toString()] for a Number [n] that holds an integer: the digits
    followed by zeros up to 21 digits, the exponent form beyond. *)
Definition toString (n : Z) : string :=
  let v := Z.abs n in
  let e := Z.log2 v - 52 in
  if e <=? 0 then decimal n
  else
    let m := v / 2 ^ e in
    let lo2 := if m =? 2 ^ 52 then 2 * v - 2 ^ (e - 1) else 2 * v - 2 ^ e in
    let hi2 := 2 * v + 2 ^ e in
    let '(s, p) := shortest v lo2 hi2 (Z.even m) 330 in
    let digits := decimal s in
    let n' := (String.length digits + p)%nat in
    (if n <? 0 then "-" else "") +:+
    (if bool_decide (n' <= 21)%nat then digits +:+ zeros p
     else match digits with
          | String c "" => String c ""
          | String c rest => String c ("." +:+ rest)
          | "" => ""
          end +:+ "e+" +:+ decimal (Z.of_nat n' - 1)).

Arguments roundToNumber : simpl never.
Arguments numberAdd : simpl never.
Arguments toString : simpl never.

(** Truthiness of a string and of an optional string. *)
Definition truthyS (s : string) : bool := negb (bool_decide (s = "")).

Definition truthy (o : option string) : bool :=
  match o with
  | Some s => truthyS s
  | None => false
  end.

(** [a || b] on optional strings. *)
Definition orElse (a b : option string) : option string :=
  if truthy a then a else b.

(** [a || 'lit'] where the right operand is a string literal. *)
Definition orString (a : option string) (lit : string) : string :=
  match a with
  | Some s => if truthyS s then s else lit
  | None => lit
  end.

(** ** [Array.prototype.sort] *)

Section Sort.
Context {A : Type}.
Variable cmp : A → A → Z.

Fixpoint insertBy (x : A) (l : list A) : list A :=
  match l with
  | [] => [x]
  | y :: l' =>
      if bool_decide (cmp x y <= 0) then x :: l else y :: insertBy x l'
  end.

Definition sortBy (l : list A) : list A := foldr insertBy [] l.
End Sort.

(** ** Insertion-ordered [Map] *)

Module JSMap.
Section Ops.
Context {V : Type}.
Definition t := list (string * V).

Fixpoint get (k : string) (m : t) : option V :=
  match m with
  | [] => None
  | (k', v) :: m' => if bool_decide (k' = k) then Some v else get k m'
  end.

Definition has (k : string) (m : t) : bool :=
  match get k m with Some _ => true | None => false end.

Fixpoint set (k : string) (v : V) (m : t) : t :=
  match m with
  | [] => [(k, v)]
  | (k', v') :: m' =>
      if bool_decide (k' = k) then (k', v) :: m'
      else (k', v') :: set k v m'
  end.

Definition keys (m : t) : list string := m.*1.
Definition values (m : t) : list V := m.*2.
Definition entries (m : t) : list (string * V) := m.
End Ops.
Arguments t : clear implicits.
End JSMap.

(** ** The data model ([types.ts]) *)

Record Book := mkBook {
  title : string;
  author : string;
  description : string;
  releaseDate : string;
  genre : string;
  language : option string;
  seriesTitle : option string;
  seriesIndex : option string;
  seriesColor : option string;
  group : option string;
  groupColor : option string;
  status : option string;
  id : string;
  fileName : string;
  fileType : string;
  fileSize : Z;
  addedAt : Z;
  coverColor : string;
  fileData : option (list Z)
}.

(** [SortOption]: 'recent' | 'title' | 'author' | 'series' | 'group'. *)
Inductive SortOption :=
  sort_recent | sort_title | sort_author | sort_series | sort_group.

(** ** The record store ([services/db.ts]) *)

(** Order of two sequences of code units, as a comparator result. *)
Fixpoint lexCompare (k1 k2 : list Z) : Z :=
  match k1, k2 with
  | [], [] => 0
  | [], _ :: _ => -1
  | _ :: _, [] => 1
  | a :: k1', b :: k2' => if bool_decide (a = b) then lexCompare k1' k2' else a - b
  end.

Fixpoint codeUnits (s : string) : list Z :=
  match s with
  | EmptyString => []
  | String c s' => charCode c :: codeUnits s'
  end.

Module DBService.
(** The object store 'books', created with [{ keyPath: 'id' }]. *)
Abbreviation Store := (gmap string Book).

(** IndexedDB orders string keys by their code units. *)
Definition keyCompare (a b : Book) : Z :=
  lexCompare (codeUnits (id a)) (codeUnits (id b)).

(** [store.getAll()]: every record, in key order. *)
Definition getAll (db : Store) : list Book :=
  sortBy keyCompare (map_to_list db).*2.

Definition getAllBooks (db : Store) : list Book :=
  sortBy (λ a b, addedAt b - addedAt a) (getAll db).

(** [store.put(book)]: the key is read from the record's [id]. *)
Definition addBook (book : Book) (db : Store) : Store :=
  <[id book := book]> db.

Definition updateBook (book : Book) (db : Store) : Store :=
  addBook book db.

Definition deleteBook (k : string) (db : Store) : Store :=
  delete k db.

(** Every record is stored under its own [id]: the key path invariant. *)
Definition store_wf (db : Store) : Prop :=
  ∀ k b, db !! k = Some b → id b = k.
End DBService.
Import DBService.

(** ** Grouping of variants ([groupedLibrary]) *)

Definition bookKey (book : Book) : string :=
  toLowerCase (trim (title book)) +:+ "|" +:+ toLowerCase (trim (author book)).

Definition groupStep (groups : JSMap.t (list Book)) (book : Book)
  : JSMap.t (list Book) :=
  let key := bookKey book in
  let groups1 := if JSMap.has key groups then groups else JSMap.set key [] groups in
  match JSMap.get key groups1 with
  | Some g => JSMap.set key (g ++ [book]) groups1
  | None => groups1
  end.

Definition groupedMap (books : list Book) : JSMap.t (list Book) :=
  foldl groupStep [] books.

Definition groupedLibrary (books : list Book) : list (list Book) :=
  JSMap.values (groupedMap books).

(** ** Group facets ([uniqueGroups]) *)

Record Facet := mkFacet { color : option string; count : Z }.

(** [existing?.count || 0] is the count of [existing], or 0 without one. *)
Definition facetStep (map : JSMap.t Facet) (b : Book) : JSMap.t Facet :=
  match group b with
  | Some g =>
      if truthyS g && truthyS (trim g) then
        let existing := JSMap.get g map in
        JSMap.set g
          {| color := orElse (groupColor b) (existing ≫= color);
             count := from_option count 0 existing + 1 |}
          map
      else map
  | None => map
  end.

Definition facetMap (books : list Book) : JSMap.t Facet :=
  foldl facetStep [] books.

Definition uniqueGroups (books : list Book) : list (string * Facet) :=
  sortBy (λ a b, count b.2 - count a.2) (JSMap.entries (facetMap books)).

(** ** Filtering and sorting of groups ([filteredAndSortedGroups]) *)

(** A number that [Math.max] can return here. *)
Inductive number := NegInfinity | Num (z : Z).

(** [Math.max(...l)] *)
Definition Math_max (l : list Z) : number :=
  foldr (λ x acc, match acc with
                  | NegInfinity => Num x
                  | Num y => Num (Z.max x y)
                  end) NegInfinity l.

(** The sign of [x - y]; [-Infinity - -Infinity] is [NaN], which a sort
    comparator result treats as [+0]. *)
Definition subNumber (x y : number) : Z :=
  match x, y with
  | Num a, Num b => a - b
  | Num _, NegInfinity => 1
  | NegInfinity, Num _ => -1
  | NegInfinity, NegInfinity => 0
  end.

(** A comparator that reads only [a[0]] and [b[0]].  Reading a field of
    [a[0]] throws for an empty array; no group built by [groupedLibrary]
    is empty (lemma [groupedLibrary_nonempty]). *)
Definition onRep (f : Book → Book → Z) (a b : list Book) : Z :=
  match a, b with
  | bookA :: _, bookB :: _ => f bookA bookB
  | _, _ => 0
  end.

Section Host.
(** [s.localeCompare(t)] and
    [s.localeCompare(t, undefined, { numeric: true, sensitivity: 'base' })]
    are functions of the host and its locale. *)
Variable localeCompare : string → string → Z.
Variable localeCompareNumeric : string → string → Z.

(** The predicate of [groupedLibrary.filter]; [book] is [group[0]], which
    exists for every group built by [groupedLibrary]. *)
Definition matchesFilter (searchQuery : string) (filterGroup : option string)
    (g : list Book) : bool :=
  match g with
  | [] => false
  | book :: _ =>
      let q := toLowerCase searchQuery in
      let matchesSearch :=
        includes (toLowerCase (title book)) q
        || includes (toLowerCase (author book)) q
        || match seriesTitle book with
           | Some s => truthyS s && includes (toLowerCase s) q
           | None => false
           end
        || match group book with
           | Some s => truthyS s && includes (toLowerCase s) q
           | None => false
           end in
      let matchesGroup :=
        if truthy filterGroup then bool_decide (group book = filterGroup)
        else true in
      matchesSearch && matchesGroup
  end.

Definition titleCmp (bookA bookB : Book) : Z :=
  localeCompare (title bookA) (title bookB).

Definition authorCmp (bookA bookB : Book) : Z :=
  localeCompare (author bookA) (author bookB).

Definition seriesCmp (bookA bookB : Book) : Z :=
  let sA := orString (seriesTitle bookA) "" in
  let sB := orString (seriesTitle bookB) "" in
  if negb (truthyS sA) && truthyS sB then 1
  else if truthyS sA && negb (truthyS sB) then -1
  else if negb (truthyS sA) && negb (truthyS sB)
  then localeCompare (title bookA) (title bookB)
  else
    let titleCompare := localeCompareNumeric sA sB in
    if negb (bool_decide (titleCompare = 0)) then titleCompare
    else
      let iA := orString (seriesIndex bookA) "" in
      let iB := orString (seriesIndex bookB) "" in
      localeCompareNumeric iA iB.

Definition groupCmp (a0 b0 : Book) : Z :=
  let gA := orString (group a0) "zzz" in
  let gB := orString (group b0) "zzz" in
  if negb (bool_decide (gA = gB)) then localeCompare gA gB
  else localeCompare (title a0) (title b0).

Definition recentCmp (a b : list Book) : Z :=
  let maxTimeA := Math_max (addedAt <$> a) in
  let maxTimeB := Math_max (addedAt <$> b) in
  subNumber maxTimeB maxTimeA.

Definition filteredAndSortedGroups (groupedLibrary : list (list Book))
    (searchQuery : string) (sortOption : SortOption)
    (filterGroup : option string) : list (list Book) :=
  let result := filter (λ g, matchesFilter searchQuery filterGroup g = true)
                  groupedLibrary in
  match sortOption with
  | sort_title => sortBy (onRep titleCmp) result
  | sort_author => sortBy (onRep authorCmp) result
  | sort_series => sortBy (onRep seriesCmp) result
  | sort_group => sortBy (onRep groupCmp) result
  | sort_recent => sortBy recentCmp result
  end.
End Host.

(** ** Object spread with a partial record *)

(** [Partial<Book>], restricted to the keys the engine ever assigns.  A
    field is [None] when the key is absent and [Some v] when the key is
    present with value [v] (for a color, [Some None] is a key whose value
    is [undefined]). *)
Module Partial.
Record t := mk {
  group : option string;
  groupColor : option (option string);
  seriesTitle : option string;
  seriesIndex : option string;
  seriesColor : option (option string);
  status : option string
}.

(** [Object.keys(changes).length] *)
Definition present {A} (o : option A) : Z :=
  match o with Some _ => 1 | None => 0 end.

Definition keysLength (c : t) : Z :=
  present (group c) + present (groupColor c) + present (seriesTitle c)
  + present (seriesIndex c) + present (seriesColor c) + present (status c).
End Partial.

(** [{ ...book, ...changes }] *)
Definition spread (book : Book) (changes : Partial.t) : Book :=
  {| title := title book;
     author := author book;
     description := description book;
     releaseDate := releaseDate book;
     genre := genre book;
     language := language book;
     seriesTitle := match Partial.seriesTitle changes with
                    | Some v => Some v
                    | None => seriesTitle book
                    end;
     seriesIndex := match Partial.seriesIndex changes with
                    | Some v => Some v
                    | None => seriesIndex book
                    end;
     seriesColor := default (seriesColor book) (Partial.seriesColor changes);
     group := match Partial.group changes with
              | Some v => Some v
              | None => group book
              end;
     groupColor := default (groupColor book) (Partial.groupColor changes);
     status := match Partial.status changes with
               | Some v => Some v
               | None => status book
               end;
     id := id book;
     fileName := fileName book;
     fileType := fileType book;
     fileSize := fileSize book;
     addedAt := addedAt book;
     coverColor := coverColor book;
     fileData := fileData book |}.

(** ** Single-record edit with color propagation ([handleUpdateBook]) *)

(** The writes pushed on [updatePromises] by the group branch. *)
Definition groupUpdates (books : list Book) (updatedBook : Book) : list Book :=
  match group updatedBook with
  | Some g =>
      if truthyS g && negb (bool_decide (trim g = "")) then
        let groupBooks :=
          filter (λ b, group b = group updatedBook ∧ id b ≠ id updatedBook) books in
        if bool_decide (0 < length groupBooks)%nat && truthy (groupColor updatedBook)
        then
          (λ b, spread b {| Partial.group := None;
                            Partial.groupColor := Some (groupColor updatedBook);
                            Partial.seriesTitle := None;
                            Partial.seriesIndex := None;
                            Partial.seriesColor := None;
                            Partial.status := None |})
          <$> filter (λ b, groupColor b ≠ groupColor updatedBook) groupBooks
        else []
      else []
  | None => []
  end.

(** The writes pushed on [updatePromises] by the series branch. *)
Definition seriesUpdates (books : list Book) (updatedBook : Book) : list Book :=
  match seriesTitle updatedBook with
  | Some t =>
      if truthyS t && negb (bool_decide (trim t = "")) then
        let seriesBooks :=
          filter (λ b, seriesTitle b = seriesTitle updatedBook
                       ∧ id b ≠ id updatedBook) books in
        if bool_decide (0 < length seriesBooks)%nat && truthy (seriesColor updatedBook)
        then
          (λ b, spread b {| Partial.group := None;
                            Partial.groupColor := None;
                            Partial.seriesTitle := None;
                            Partial.seriesIndex := None;
                            Partial.seriesColor := Some (seriesColor updatedBook);
                            Partial.status := None |})
          <$> filter (λ b, seriesColor b ≠ seriesColor updatedBook) seriesBooks
        else []
      else []
  | None => []
  end.

(** The store after [handleUpdateBook(updatedBook)].  The first write is
    awaited; the propagation writes are then issued in the order they are
    pushed, each in a read-write transaction of its own on the same object
    store, and such transactions run in the order they were created. *)
Definition handleUpdateBook (books : list Book) (updatedBook : Book)
    (db : Store) : Store :=
  let db1 := updateBook updatedBook db in
  let updatePromises := groupUpdates books updatedBook ++ seriesUpdates books updatedBook in
  foldl (λ d b, updateBook b d) db1 updatePromises.

(** ** Bulk edit ([handleBulkSave]) *)

Module BulkUpdateData.
Inductive Mode := keep | set | clear.
Inductive IndexMode := index_keep | auto | same.

Record t := mk {
  groupMode : Mode;
  groupName : string;
  groupColor : string;
  seriesMode : Mode;
  seriesTitle : string;
  seriesIndexMode : IndexMode;
  seriesIndexStart : Z;
  seriesIndexValue : string;
  statusMode : Mode;
  statusValue : string
}.
End BulkUpdateData.

(** The [changes] object built for the group at position [i]. *)
Definition bulkChanges (data : BulkUpdateData.t) (i : Z) : Partial.t :=
  let '(g, gc) :=
    match BulkUpdateData.groupMode data with
    | BulkUpdateData.clear => (Some "", Some None)
    | BulkUpdateData.set =>
        (Some (BulkUpdateData.groupName data),
         Some (Some (BulkUpdateData.groupColor data)))
    | BulkUpdateData.keep => (None, None)
    end in
  let '(st, si) :=
    match BulkUpdateData.seriesMode data with
    | BulkUpdateData.clear => (Some "", Some "")
    | BulkUpdateData.set =>
        (Some (BulkUpdateData.seriesTitle data),
         match BulkUpdateData.seriesIndexMode data with
         | BulkUpdateData.auto =>
             Some (toString (numberAdd (BulkUpdateData.seriesIndexStart data) i))
         | BulkUpdateData.same => Some (BulkUpdateData.seriesIndexValue data)
         | BulkUpdateData.index_keep => None
         end)
    | BulkUpdateData.keep => (None, None)
    end in
  let s :=
    match BulkUpdateData.statusMode data with
    | BulkUpdateData.clear => Some ""
    | BulkUpdateData.set => Some (BulkUpdateData.statusValue data)
    | BulkUpdateData.keep => None
    end in
  {| Partial.group := g; Partial.groupColor := gc;
     Partial.seriesTitle := st; Partial.seriesIndex := si;
     Partial.seriesColor := None; Partial.status := s |}.

(** The inner loop: one [put] per variant of the group. *)
Definition bulkApply (changes : Partial.t) (g : list Book)
    (acc : Store * Z) : Store * Z :=
  foldl (λ '(db, updateCount) book,
           (updateBook (spread book changes) db, updateCount + 1)) acc g.

(** The outer loop, from position [i] on. *)
Fixpoint bulkLoop (data : BulkUpdateData.t) (i : Z)
    (selectedGroups : list (list Book)) (acc : Store * Z) : Store * Z :=
  match selectedGroups with
  | [] => acc
  | g :: rest =>
      let changes := bulkChanges data i in
      let acc' :=
        if bool_decide (0 < Partial.keysLength changes)
        then bulkApply changes g acc else acc in
      bulkLoop data (i + 1) rest acc'
  end.

(** [g => selectedBookIds.has(g[0].id)] *)
Definition repSelected (selectedBookIds : gset string) (g : list Book) : bool :=
  match g with
  | b :: _ => bool_decide (id b ∈ selectedBookIds)
  | [] => false
  end.

(** The state read by the handlers. *)
Record AppState := mkApp {
  books : list Book;
  searchQuery : string;
  sortOption : SortOption;
  filterGroup : option string;
  selectedBookIds : gset string
}.

Section App.
Variable localeCompare : string → string → Z.
Variable localeCompareNumeric : string → string → Z.

Definition visibleGroups (st : AppState) : list (list Book) :=
  filteredAndSortedGroups localeCompare localeCompareNumeric
    (groupedLibrary (books st)) (searchQuery st) (sortOption st)
    (filterGroup st).

Definition selectedGroups (st : AppState) : list (list Book) :=
  filter (λ g, repSelected (selectedBookIds st) g = true) (visibleGroups st).

(** The store and [updateCount] after [handleBulkSave(data)]. *)
Definition handleBulkSave (st : AppState) (data : BulkUpdateData.t)
    (db : Store) : Store * Z :=
  bulkLoop data 0 (selectedGroups st) (db, 0).
End App.

(** ** A reference host collation

    The theorems below hold for every host collation that is a consistent
    comparator.  To run the code on concrete libraries the following
    collation is used: code-unit order for [localeCompare], and code-unit
    order on lower-cased text with digit runs compared by value for the
    numeric variant. *)

Definition refLocaleCompare (s t : string) : Z :=
  lexCompare (codeUnits s) (codeUnits t).

Definition isDigit (c : ascii) : bool :=
  (48 <=? charCode c) && (charCode c <=? 57).

(** Tokens of the numeric key: [0; n] for a run of digits of value [n],
    [1; c] for any other code unit [c]. *)
Fixpoint numericKey (s : string) (run : option Z) : list Z :=
  match s with
  | EmptyString => match run with Some n => [0; n] | None => [] end
  | String c s' =>
      if isDigit c
      then numericKey s' (Some (10 * default 0 run + (charCode c - 48)))
      else match run with Some n => [0; n] | None => [] end
           ++ [1; charCode (toLowerChar c)] ++ numericKey s' None
  end.

Definition refLocaleCompareNumeric (s t : string) : Z :=
  lexCompare (numericKey s None) (numericKey t None).

(** ** Deleting one record ([handleDelete]) *)

(** The state after [handleDelete(id)]: the optimistic [books] list, the
    book shown in the detail view, and the store. *)
Definition handleDelete (k : string) (books : list Book)
    (selectedBook : option Book) (db : Store)
  : list Book * option Book * Store :=
  (filter (λ b, id b ≠ k) books,
   match selectedBook with
   | Some sel => if bool_decide (id sel = k) then None else Some sel
   | None => None
   end,
   deleteBook k db).

(** ** Deleting the selection ([handleBulkDelete]) and the variants of
       the open book ([selectedVariants]) *)

(** [groupedLibrary.find(g => g.some(b => b.id === id))] *)
Definition findGroupOf (gl : list (list Book)) (k : string)
  : option (list Book) :=
  snd <$> list_find (λ g, Exists (λ b, id b = k) g) gl.

(** The ids added to [allIdsToDelete] for one selected id. *)
Definition idsFor (gl : list (list Book)) (k : string) : gset string :=
  match findGroupOf gl k with
  | Some g => list_to_set (id <$> g)
  | None => {[k]}
  end.

(** [allIdsToDelete]: a [Set], of which only the membership matters. *)
Definition allIdsToDelete (gl : list (list Book)) (selected : gset string)
  : gset string :=
  set_bind (idsFor gl) selected.

(** The store and the number shown in the toast after [handleBulkDelete];
    [confirmed] is the answer to [window.confirm].  The deletes are issued
    one id at a time; their order does not change the resulting store. *)
Definition handleBulkDelete (confirmed : bool) (st : AppState) (db : Store)
  : Store * option nat :=
  if bool_decide (size (selectedBookIds st) = 0%nat) then (db, None)
  else if confirmed then
    let all := allIdsToDelete (groupedLibrary (books st)) (selectedBookIds st) in
    (foldl (λ d k, deleteBook k d) db (elements all), Some (size all))
  else (db, None).

(** [selectedVariants]: the files of the open book. *)
Definition selectedVariants (selectedBook : option Book)
    (gl : list (list Book)) : list Book :=
  match selectedBook with
  | None => []
  | Some sel => default [sel] (findGroupOf gl (id sel))
  end.

(** ** Auto-organize ([services/organizer.ts], [handleAutoOrganize]) *)

(** One element of [result.updates], as the response schema gives it: an
    [id] and optional string fields. *)
Module Suggestion.
Record t := mk {
  id : option string;
  seriesTitle : option string;
  seriesIndex : option string;
  group : option string
}.
End Suggestion.

(** [cleanUpdate]: only the non-empty fields of a suggestion. *)
Definition cleanUpdate (u : Suggestion.t) : Partial.t :=
  {| Partial.group :=
       if truthy (Suggestion.group u) then Suggestion.group u else None;
     Partial.groupColor := None;
     Partial.seriesTitle :=
       if truthy (Suggestion.seriesTitle u) then Suggestion.seriesTitle u else None;
     Partial.seriesIndex :=
       if truthy (Suggestion.seriesIndex u) then Suggestion.seriesIndex u else None;
     Partial.seriesColor := None;
     Partial.status := None |}.

(** The body of [result.updates.forEach]. *)
Definition organizeStep (updateMap : JSMap.t Partial.t) (u : Suggestion.t)
  : JSMap.t Partial.t :=
  match Suggestion.id u with
  | Some i =>
      if truthyS i then
        if bool_decide (0 < Partial.keysLength (cleanUpdate u))
        then JSMap.set i (cleanUpdate u) updateMap
        else updateMap
      else updateMap
  | None => updateMap
  end.

(** [organizeLibrary(books)].  [advisor] is what the external model call
    and [JSON.parse] yield: [None] when there is no API key, the call or
    the parse throws, or [result.updates] is not an array. *)
Definition organizeLibrary (books : list Book)
    (advisor : option (list Suggestion.t)) : JSMap.t Partial.t :=
  if bool_decide (length books = 0%nat) then []
  else match advisor with
       | Some updates => foldl organizeStep [] updates
       | None => []
       end.

(** [books.find(b => b.id === id)] *)
Definition findBook (books : list Book) (k : string) : option Book :=
  snd <$> list_find (λ b, id b = k) books.

(** The store after [handleAutoOrganize] and the number of the toast
    ("Organized n books"), if any. *)
Definition handleAutoOrganize (confirmed : bool) (books : list Book)
    (advisor : option (list Suggestion.t)) (db : Store) : Store * option nat :=
  if confirmed then
    let updates := organizeLibrary books advisor in
    if bool_decide (0 < length updates)%nat then
      (foldl (λ d '(i, update),
                match findBook books i with
                | Some book => updateBook (spread book update) d
                | None => d
                end) db (JSMap.entries updates),
       Some (length updates))
    else (db, None)
  else (db, None).

(** ** Sections of the series and collections view ([viewLayoutGroups]) *)

(** The property names every object literal inherits from
    [Object.prototype]. *)
Definition objectPrototypeKeys : list string :=
  [ "constructor"; "__defineGetter__"; "__defineSetter__"; "hasOwnProperty";
    "__lookupGetter__"; "__lookupSetter__"; "isPrototypeOf";
    "propertyIsEnumerable"; "toString"; "valueOf"; "__proto__";
    "toLocaleString" ].

(** The section name chosen for a first record. *)
Definition layoutKey (sortOption : SortOption) (book : Book) : string :=
  match sortOption, seriesTitle book, group book with
  | sort_series, Some s, _ =>
      if truthyS s && bool_decide (0 < String.length (trim s))%nat
      then s else "Other Stories"
  | sort_group, _, Some s =>
      if truthyS s && bool_decide (0 < String.length (trim s))%nat
      then s else "Other Stories"
  | _, _, _ => "Other Stories"
  end.

(** What the computation yields: [null], a thrown [TypeError], or the
    object, read as a map from section name to groups. *)
Inductive Layout :=
  | LayoutNull
  | LayoutThrows
  | LayoutOf (layoutGroups : gmap string (list (list Book))).

(** The body of [forEach].  [None] is a thrown [TypeError]: [group[0]] is
    [undefined] for an empty group, and for a name that the object
    inherits, [layoutGroups[key]] is the inherited (truthy) value, which
    has no [push]. *)
Definition layoutStep (sortOption : SortOption)
    (acc : option (gmap string (list (list Book)))) (g : list Book)
  : option (gmap string (list (list Book))) :=
  match acc, g with
  | None, _ => None
  | Some _, [] => None
  | Some layoutGroups, book :: _ =>
      let key := layoutKey sortOption book in
      match layoutGroups !! key with
      | Some arr => Some (<[key := arr ++ [g]]> layoutGroups)
      | None =>
          if bool_decide (key ∈ objectPrototypeKeys) then None
          else Some (<[key := [g]]> layoutGroups)
      end
  end.

Definition viewLayoutGroups (sortOption : SortOption)
    (filteredAndSortedGroups : list (list Book)) : Layout :=
  match sortOption with
  | sort_series | sort_group =>
      match foldl (layoutStep sortOption) (Some ∅) filteredAndSortedGroups with
      | Some layoutGroups => LayoutOf layoutGroups
      | None => LayoutThrows
      end
  | _ => LayoutNull
  end.

Section SectionOrder.
Variable localeCompare : string → string → Z.

(** The comparator of [Object.keys(viewLayoutGroups).sort(...)]. *)
Definition sectionCmp (a b : string) : Z :=
  if bool_decide (a = "Other Stories") then 1
  else if bool_decide (b = "Other Stories") then -1
  else localeCompare a b.

(** The order in which the sections are rendered, from the array of the
    object's keys. *)
Definition sectionOrder (keys : list string) : list string :=
  sortBy sectionCmp keys.
End SectionOrder.

(** ** Saving from the detail view ([components/BookDetail.tsx]) *)

(** The edit form: a [Partial<Book>] of which [handleSave] reads the
    metadata fields.  [None] is [undefined]. *)
Module FormData.
Record t := mk {
  title : option string;
  author : option string;
  description : option string;
  genre : option string;
  releaseDate : option string;
  language : option string;
  status : option string;
  seriesTitle : option string;
  seriesIndex : option string;
  seriesColor : option string;
  group : option string;
  groupColor : option string
}.
End FormData.

(** [setFormData({ ...book })] *)
Definition formDataOf (book : Book) : FormData.t :=
  {| FormData.title := Some (title book);
     FormData.author := Some (author book);
     FormData.description := Some (description book);
     FormData.genre := Some (genre book);
     FormData.releaseDate := Some (releaseDate book);
     FormData.language := language book;
     FormData.status := status book;
     FormData.seriesTitle := seriesTitle book;
     FormData.seriesIndex := seriesIndex book;
     FormData.seriesColor := seriesColor book;
     FormData.group := group book;
     FormData.groupColor := groupColor book |}.

(** [x !== undefined ? x : y] *)
Definition definedOr (x y : option string) : option string :=
  match x with
  | Some v => Some v
  | None => y
  end.

(** The record built for one file in the body of [allFiles.forEach]. *)
Definition updatedBook (baseUpdate : FormData.t) (file : Book) : Book :=
  {| title := orString (FormData.title baseUpdate) (title file);
     author := orString (FormData.author baseUpdate) (author file);
     description := orString (FormData.description baseUpdate) (description file);
     genre := orString (FormData.genre baseUpdate) (genre file);
     releaseDate := orString (FormData.releaseDate baseUpdate) (releaseDate file);
     language := orElse (FormData.language baseUpdate) (language file);
     status := orElse (FormData.status baseUpdate) (status file);
     seriesTitle := definedOr (FormData.seriesTitle baseUpdate) (seriesTitle file);
     seriesIndex := definedOr (FormData.seriesIndex baseUpdate) (seriesIndex file);
     seriesColor := definedOr (FormData.seriesColor baseUpdate) (seriesColor file);
     group := definedOr (FormData.group baseUpdate) (group file);
     groupColor := definedOr (FormData.groupColor baseUpdate) (groupColor file);
     id := id file;
     fileName := fileName file;
     fileType := fileType file;
     fileSize := fileSize file;
     addedAt := addedAt file;
     coverColor := coverColor file;
     fileData := fileData file |}.

(** [variants.length > 0 ? variants : (book ? [book] : [])] *)
Definition allFiles (book : option Book) (variants : list Book) : list Book :=
  match variants with
  | _ :: _ => variants
  | [] => match book with Some b => [b] | None => [] end
  end.

(** [handleSave]: the records passed to [onUpdate], in call order. *)
Definition handleSave (book : option Book) (formData : FormData.t)
    (variants : list Book) : list Book :=
  match book with
  | Some _ => updatedBook formData <$> allFiles book variants
  | None => []
  end.

(** ** Import of files ([components/UploadModal.tsx]) *)

(** [s.endsWith(suffix)] *)
Fixpoint endsWith (s suffix : string) : bool :=
  String.eqb s suffix ||
  match s with
  | EmptyString => false
  | String _ s' => endsWith s' suffix
  end.

(** [s.split(sep)] for a separator of one character. *)
Fixpoint splitOn (sep : ascii) (s : string) : list string :=
  match s with
  | EmptyString => [EmptyString]
  | String c s' =>
      if Ascii.eqb c sep then EmptyString :: splitOn sep s'
      else match splitOn sep s' with
           | seg :: rest => String c seg :: rest
           | [] => [String c EmptyString]
           end
  end.

(** A [File]: its name, its size and the bytes [arrayBuffer()] gives. *)
Module File.
Record t := mk {
  name : string;
  size : Z;
  arrayBuffer : list Z
}.
End File.

(** The filter of [processFiles]. *)
Definition isValidFile (f : File.t) : bool :=
  existsb (λ ext, endsWith (toLowerCase (File.name f)) ext)
    [".epub"; ".pdf"; ".azw3"; ".mobi"].

Definition validFiles (files : list File.t) : list File.t :=
  filter (λ f, isValidFile f = true) files.

(** [name.split('.').pop()?.toLowerCase() || 'unknown'] *)
Definition fileTypeOf (name : string) : string :=
  orString (toLowerCase <$> last (splitOn "." name)) "unknown".

(** [BookMetadata] of [types.ts]. *)
Module BookMetadata.
Record t := mk {
  title : string;
  author : string;
  description : string;
  releaseDate : string;
  genre : string;
  language : option string;
  seriesTitle : option string;
  seriesIndex : option string;
  seriesColor : option string;
  group : option string;
  groupColor : option string;
  status : option string
}.
End BookMetadata.

Module PendingBook.
Record t := mk {
  file : File.t;
  metadata : BookMetadata.t;
  tempId : string;
  coverColor : string
}.
End PendingBook.

Definition PASTEL_COLORS : list string :=
  [ "#475569"; "#dc2626"; "#ea580c"; "#d97706"; "#65a30d"; "#16a34a";
    "#0891b2"; "#2563eb"; "#4f46e5"; "#7c3aed"; "#db2777"; "#57534e" ].

Section SaveBooks.
(** [now i] is the value [Date.now()] has in iteration [i] of the loop;
    [random] is [Math.floor(Math.random() * PASTEL_COLORS.length)]. *)
Variables (now : nat → Z) (random : nat).

(** [groupName ? PASTEL_COLORS[...] : undefined] *)
Definition batchGroupColor (groupName : option string) : option string :=
  if truthy groupName then PASTEL_COLORS !! random else None.

(** The record built in iteration [i], for a batch of [n] items. *)
Definition newBook (n : nat) (groupName : option string) (i : nat)
    (item : PendingBook.t) : Book :=
  let md := PendingBook.metadata item in
  let groupColor := batchGroupColor groupName in
  {| title := BookMetadata.title md;
     author := BookMetadata.author md;
     description := BookMetadata.description md;
     releaseDate := BookMetadata.releaseDate md;
     genre := BookMetadata.genre md;
     language := BookMetadata.language md;
     seriesTitle := BookMetadata.seriesTitle md;
     seriesIndex := BookMetadata.seriesIndex md;
     seriesColor := BookMetadata.seriesColor md;
     group := orElse groupName (BookMetadata.group md);
     groupColor := if truthy groupName then groupColor
                   else if truthy (BookMetadata.group md) then groupColor
                        else None;
     status := BookMetadata.status md;
     id := PendingBook.tempId item;
     fileName := File.name (PendingBook.file item);
     fileType := fileTypeOf (File.name (PendingBook.file item));
     fileSize := File.size (PendingBook.file item);
     addedAt := now i - (Z.of_nat n - Z.of_nat i);
     coverColor := PendingBook.coverColor item;
     fileData := Some (File.arrayBuffer (PendingBook.file item)) |}.

(** The records of the batch, in the order in which they are stored. *)
Definition newBooks (booksToSave : list PendingBook.t)
    (groupName : option string) : list Book :=
  imap (newBook (length booksToSave) groupName) booksToSave.

Definition saveBooks (booksToSave : list PendingBook.t)
    (groupName : option string) (db : Store) : Store :=
  foldl (λ d b, addBook b d) db (newBooks booksToSave groupName).
End SaveBooks.

(** ** Metadata and the import flow ([services/gemini.ts], [processFiles]) *)

(** The metadata used when there is no API key or the model call fails;
    [year] is [new Date().getFullYear().toString()]. *)
Definition fallbackMetadata (year fileName : string) : BookMetadata.t :=
  {| BookMetadata.title := fileName;
     BookMetadata.author := "Unknown Author";
     BookMetadata.description := "No description available.";
     BookMetadata.releaseDate := year;
     BookMetadata.genre := "General";
     BookMetadata.language := Some "en";
     BookMetadata.seriesTitle := Some "";
     BookMetadata.seriesIndex := Some "";
     BookMetadata.seriesColor := None;
     BookMetadata.group := Some "";
     BookMetadata.groupColor := None;
     BookMetadata.status := Some "" |}.

(** The model service: absent without API key ([getGenAI] returns
    [null]); a call yields the parsed answer, a record of the response
    schema, or fails. *)
Record GenAI := mkGenAI {
  generateMetadata : string → option BookMetadata.t;
  generateGroupName : list (string * string * string) → option (option string)
}.

Definition extractMetadata (ai : option GenAI) (year fileName : string)
  : BookMetadata.t :=
  match ai with
  | None => fallbackMetadata year fileName
  | Some service =>
      match generateMetadata service fileName with
      | Some metadata => metadata
      | None => fallbackMetadata year fileName
      end
  end.

(** [suggestGroupName], on the title, author and file name of each book. *)
Definition suggestGroupName (ai : option GenAI)
    (books : list (string * string * string)) : string :=
  match books with
  | [] => ""
  | _ :: _ =>
      match ai with
      | None => ""
      | Some service =>
          match generateGroupName service (take 15 books) with
          | Some groupName => orString groupName ""
          | None => ""
          end
      end
  end.

(** Where [processFiles] ends: with the error message, in the review step
    with the queue and the suggested group, or with the batch saved. *)
Inductive UploadOutcome :=
  | NoCompatibleFiles
  | Review (pendingBooks : list PendingBook.t) (suggestedGroup : string)
  | Saved (db : Store).

Section ProcessFiles.
(** [uuid i] and [draw i] are the values of [crypto.randomUUID()] and of
    [Math.floor(Math.random() * PASTEL_COLORS.length)] in iteration [i]. *)
Variables (ai : option GenAI) (year : string).
Variables (uuid : nat → string) (draw : nat → nat).
Variables (now : nat → Z) (random : nat).

Definition tempQueue (files : list File.t) : list PendingBook.t :=
  imap (λ i file,
          {| PendingBook.file := file;
             PendingBook.metadata := extractMetadata ai year (File.name file);
             PendingBook.tempId := uuid i;
             PendingBook.coverColor := PASTEL_COLORS !!! (draw i `mod` 12)%nat |})
       (validFiles files).

Definition processFiles (files : list File.t) (db : Store) : UploadOutcome :=
  match validFiles files with
  | [] => NoCompatibleFiles
  | _ :: _ =>
      let queue := tempQueue files in
      let suggestion :=
        suggestGroupName ai
          ((λ b, (BookMetadata.title (PendingBook.metadata b),
                  BookMetadata.author (PendingBook.metadata b),
                  File.name (PendingBook.file b))) <$> queue) in
      if bool_decide (1 < length queue)%nat
         && truthyS suggestion
         && bool_decide (0 < String.length (trim suggestion))%nat
      then Review queue suggestion
      else Saved (saveBooks now random queue None db)
  end.

(** [handleReviewConfirm] *)
Definition handleReviewConfirm (pendingBooks : list PendingBook.t)
    (applyGroup : bool) (suggestedGroup : string) (db : Store) : Store :=
  saveBooks now random pendingBooks
    (if applyGroup then Some suggestedGroup else None) db.
End ProcessFiles.

(** ** The master lock ([services/auth.ts]) *)

Module Auth.
(** [LoginAttempts] *)
Record LoginAttempts := mkAttempts {
  count : Z;
  lockoutUntil : Z
}.

(** The four entries of [localStorage] that the service uses.  An entry
    holds the JSON text of a record; the embedding keeps the record that
    [JSON.parse] gives for it, and [None] for a missing entry. *)
Record Storage := mkStorage {
  masterLock : option string;            (* { passwordHash } *)
  session : option Z;                    (* { expiresAt } *)
  loginAttempts : option LoginAttempts;
  settings : option Z                    (* { autoLockMinutes } *)
}.

(** The answer of [login]. *)
Inductive LoginResult :=
  | Success
  | Failure (error : string) (lockoutRemaining : option Z).

(** [Math.ceil(x / 1000)] for an integer [x]. *)
Definition ceilSeconds (x : Z) : Z := - ((- x) / 1000).

Section Service.
(** The SHA-256 digest in hexadecimal. *)
Variable hash : string → string.

Definition init (st : Storage) : Storage :=
  {| masterLock := match masterLock st with
                   | Some stored => Some stored
                   | None => Some (hash "anhpham14079")
                   end;
     session := session st;
     loginAttempts := loginAttempts st;
     settings := match settings st with
                 | Some stored => Some stored
                 | None => Some 15
                 end |}.

Definition getSettings (st : Storage) : Z := default 15 (settings st).

(** [updateSettings(settings)] for a [Partial<AuthSettings>]. *)
Definition updateSettings (autoLockMinutes : option Z) (st : Storage) : Storage :=
  {| masterLock := masterLock st;
     session := session st;
     loginAttempts := loginAttempts st;
     settings := Some (default (getSettings st) autoLockMinutes) |}.

Definition logout (st : Storage) : Storage :=
  {| masterLock := masterLock st;
     session := None;
     loginAttempts := loginAttempts st;
     settings := settings st |}.

(** [startSession()], when [Date.now()] is [now]. *)
Definition startSession (now : Z) (st : Storage) : Storage :=
  {| masterLock := masterLock st;
     session := Some (now + 24 * 60 * 60 * 1000);
     loginAttempts := loginAttempts st;
     settings := settings st |}.

(** [checkSession()], when [Date.now()] is [now]. *)
Definition checkSession (now : Z) (st : Storage) : bool * Storage :=
  match session st with
  | None => (false, st)
  | Some expiresAt =>
      if bool_decide (expiresAt < now) then (false, logout st) else (true, st)
  end.

Definition setAttempts (a : option LoginAttempts) (st : Storage) : Storage :=
  {| masterLock := masterLock st;
     session := session st;
     loginAttempts := a;
     settings := settings st |}.

(** The stored attempts, or [{ count: 0, lockoutUntil: 0 }]. *)
Definition attemptsOf (st : Storage) : LoginAttempts :=
  default (mkAttempts 0 0) (loginAttempts st).

(** [login(password)].  [now k], [now (k + 1)], ... are the successive
    values of [Date.now()] from the entry of the call; the fuel bounds
    the depth of the call that [login] makes to itself after [init]. *)
Fixpoint loginFrom (fuel : nat) (now : nat → Z) (k : nat) (password : string)
    (st : Storage) : option (LoginResult * Storage) :=
  match fuel with
  | O => None
  | S fuel' =>
      let attempts := attemptsOf st in
      if bool_decide (now k < lockoutUntil attempts)
      then Some (Failure "Too many attempts. Locked."
                   (Some (ceilSeconds (lockoutUntil attempts - now (S k)))),
                 st)
      else
        match masterLock st with
        | None => loginFrom fuel' now (S k) password (init st)
        | Some passwordHash =>
            if bool_decide (hash password = passwordHash)
            then Some (Success, startSession (now (S k)) (setAttempts None st))
            else
              let count1 := count attempts + 1 in
              let attempts1 :=
                if bool_decide (5 <= count1)
                then mkAttempts 0 (now (S k) + 30 * 1000)
                else mkAttempts count1 (lockoutUntil attempts) in
              Some (Failure "Incorrect password" None,
                    setAttempts (Some attempts1) st)
        end
  end.

Definition login (now : nat → Z) (password : string) (st : Storage)
  : option (LoginResult * Storage) :=
  loginFrom 2 now 0 password st.

Definition updatePassword (password : string) (st : Storage) : Storage :=
  let st1 := match masterLock st with
             | Some _ => st
             | None => init st
             end in
  if truthyS password && negb (String.eqb (trim password) "")
  then logout {| masterLock := Some (hash password);
                 session := session st1;
                 loginAttempts := loginAttempts st1;
                 settings := settings st1 |}
  else st1.
End Service.
End Auth.

(** ** Color of a section header (the sections view of [App.tsx]) *)

(** [viewLayoutGroups[groupName].flat().find(b => b.groupColor ||
    b.seriesColor)], then the color that the sort key asks for. *)
Definition sectionColor (sortOption : SortOption)
    (section : list (list Book)) : option string :=
  let firstBookWithColor :=
    find (λ b, truthy (groupColor b) || truthy (seriesColor b))
         (concat section) in
  match sortOption with
  | sort_series => firstBookWithColor ≫= seriesColor
  | _ => firstBookWithColor ≫= groupColor
  end.

(** * Vocabulary of the properties *)

(** [precedes l x y]: [x] stands at an earlier position of [l] than [y]. *)
Definition precedes {A} (l : list A) (x y : A) : Prop :=
  ∃ i j : nat, (i < j)%nat ∧ l !! i = Some x ∧ l !! j = Some y.

(** A consistent comparator on the values that satisfy [P]. *)
Class Consistent {A} (P : A → Prop) (cmp : A → A → Z) : Prop := {
  cmp_anti x y : P x → P y → Z.sgn (cmp y x) = - Z.sgn (cmp x y);
  cmp_trans x y z :
    P x → P y → P z → cmp x y <= 0 → cmp y z <= 0 → cmp x z <= 0
}.

(** The books of a library whose key is [k], in input order. *)
Definition variantsOf (k : string) (books : list Book) : list Book :=
  filter (λ b, bookKey b = k) books.

(** A host collation: a consistent comparator on all strings. *)
Abbreviation Collation := (Consistent (λ _ : string, True)).

(** ** Sample records *)

Definition sampleBook (i t a : string) (time : Z) : Book :=
  {| title := t; author := a; description := ""; releaseDate := "2020";
     genre := "General"; language := Some "en"; seriesTitle := None;
     seriesIndex := None; seriesColor := None; group := None;
     groupColor := None; status := None; id := i; fileName := i +:+ ".epub";
     fileType := "epub"; fileSize := 1; addedAt := time;
     coverColor := "#78716c"; fileData := Some [80; 75] |}.

Definition inSeries (st si : string) (sc : option string) (b : Book) : Book :=
  spread b {| Partial.group := None; Partial.groupColor := None;
              Partial.seriesTitle := Some st; Partial.seriesIndex := Some si;
              Partial.seriesColor := Some sc; Partial.status := None |}.

Definition inGroup (g : string) (gc : option string) (b : Book) : Book :=
  spread b {| Partial.group := Some g; Partial.groupColor := Some gc;
              Partial.seriesTitle := None; Partial.seriesIndex := None;
              Partial.seriesColor := None; Partial.status := None |}.

Definition recentLibrary : list Book :=
  [ sampleBook "b" "Dune" "Frank Herbert" 500;
    sampleBook "c" "Emma" "Jane Austen" 300;
    sampleBook "a" "dune " "frank herbert" 100 ].

Definition alpha2 : Book :=
  inSeries "Alpha" "2" None (sampleBook "w" "Two Towers" "Tolkien" 1).
Definition alpha10 : Book :=
  inSeries "Alpha" "10" None (sampleBook "t" "Tenth Book" "Tolkien" 2).
Definition noSeries : Book := sampleBook "n" "Emma" "Jane Austen" 3.

(** The reading of the specification: every group whose representative
    has a non-empty [group] value stands before every group whose
    representative has none. *)
Definition named_groups_first (lc nc : string → string → Z)
    (books : list Book) (q : string) (fg : option string) : Prop :=
  ∀ ga gb a b,
    precedes (filteredAndSortedGroups lc nc (groupedLibrary books) q sort_group fg)
      ga gb →
    head ga = Some a → head gb = Some b →
    truthy (group b) = true → truthy (group a) = true.

Definition sentinelLibrary : list Book :=
  [ inGroup "zzzz" None (sampleBook "x" "Atlas" "Rand" 2);
    sampleBook "y" "Emma" "Jane Austen" 1 ].

Definition sampleStore : Store :=
  addBook (sampleBook "b" "Dune" "Frank Herbert" 500)
    (addBook (sampleBook "c" "Emma" "Jane Austen" 300) ∅).

Definition annotatedEmma : Book :=
  sampleBook "c" "Emma (annotated)" "Jane Austen" 300.

(** The records written by the outer loop from position [i] on, in order. *)
Fixpoint bulkWrites (data : BulkUpdateData.t) (i : Z)
    (groups : list (list Book)) : list Book :=
  match groups with
  | [] => []
  | g :: rest =>
      (if bool_decide (0 < Partial.keysLength (bulkChanges data i))
       then (λ b, spread b (bulkChanges data i)) <$> g else [])
      ++ bulkWrites data (i + 1) rest
  end.

(** A library with a two-format book and a single-format book. *)
Definition duneEpub : Book :=
  inGroup "Sci-Fi" (Some "#10b981")
    (inSeries "Dune Saga" "1" (Some "#ef4444")
       (sampleBook "d1" "Dune" "Frank Herbert" 500)).
Definition dunePdf : Book :=
  inGroup "Sci-Fi" (Some "#10b981")
    (inSeries "Dune Saga" "1" (Some "#ef4444")
       (sampleBook "d2" "dune " "frank herbert" 100)).
Definition emma : Book := sampleBook "e1" "Emma" "Jane Austen" 300.

Definition bulkStore : Store :=
  addBook duneEpub (addBook emma (addBook dunePdf ∅)).

Definition bulkState (selected : gset string) : AppState :=
  {| books := [duneEpub; emma; dunePdf]; searchQuery := "";
     sortOption := sort_recent; filterGroup := None;
     selectedBookIds := selected |}.

Definition bulkData (gm sm : BulkUpdateData.Mode) (im : BulkUpdateData.IndexMode)
    (start : Z) : BulkUpdateData.t :=
  {| BulkUpdateData.groupMode := gm; BulkUpdateData.groupName := "Classics";
     BulkUpdateData.groupColor := "#78716c"; BulkUpdateData.seriesMode := sm;
     BulkUpdateData.seriesTitle := "Shelf"; BulkUpdateData.seriesIndexMode := im;
     BulkUpdateData.seriesIndexStart := start;
     BulkUpdateData.seriesIndexValue := "1";
     BulkUpdateData.statusMode := BulkUpdateData.keep;
     BulkUpdateData.statusValue := "Ongoing" |}.

(** Distinct ids of a concrete library. *)
Ltac solve_not_elem :=
  let H := fresh in
  intros H; repeat (apply elem_of_cons in H as [H|H]; [discriminate H|]);
  inversion H.

Ltac solve_NoDup :=
  cbn; repeat (apply NoDup_cons_2; [solve_not_elem|]); apply NoDup_nil_2.

(** The reading of the specification for the series family: mode [clear]
    resets the series title and the series color of every member record of
    every selected group. *)
Definition series_clear_resets_color (lc nc : string → string → Z)
    (st : AppState) (data : BulkUpdateData.t) (db : Store) : Prop :=
  ∀ g b, g ∈ selectedGroups lc nc st → b ∈ g →
    ∃ b', (handleBulkSave lc nc st data db).1 !! id b = Some b'
          ∧ seriesTitle b' = Some "" ∧ seriesColor b' = None.

(** The reading of the specification for the automatic index: every
    variant of the group at position [i] of the selection gets the decimal
    string of the start value plus [i]. *)
Definition auto_index_is_sum (lc nc : string → string → Z)
    (st : AppState) (data : BulkUpdateData.t) (db : Store) : Prop :=
  ∀ (i : nat) g b, selectedGroups lc nc st !! i = Some g → b ∈ g →
    ∃ b', (handleBulkSave lc nc st data db).1 !! id b = Some b'
          ∧ seriesIndex b'
            = Some (decimal (BulkUpdateData.seriesIndexStart data + Z.of_nat i)).

(** The collation tells apart the group values of the first records of
    the groups of [gl], an absent or empty value being read as "zzz": no
    two of them that differ compare as equal. *)
Definition tellsGroupsApart (lc : string → string → Z)
    (gl : list (list Book)) : Prop :=
  ∀ ga gb a b, ga ∈ gl → gb ∈ gl → head ga = Some a → head gb = Some b →
    lc (orString (group a) "zzz") (orString (group b) "zzz") = 0 →
    orString (group a) "zzz" = orString (group b) "zzz".

(** A collation that ignores the control character U+0001, as the
    collations of the host do. *)
Fixpoint dropIgnorable (s : string) : string :=
  match s with
  | EmptyString => EmptyString
  | String c s' =>
      if Ascii.eqb c (ascii_of_nat 1) then dropIgnorable s'
      else String c (dropIgnorable s')
  end.

Definition ignoringCompare (s t : string) : Z :=
  refLocaleCompare (dropIgnorable s) (dropIgnorable t).

(** Three books in two collections whose names differ in an ignored
    character only. *)
Definition poetryB : Book :=
  inGroup "poetry" None (sampleBook "1" "b" "x" 3).
Definition poetryMarked : Book :=
  inGroup (String (ascii_of_nat 1) "poetry") None (sampleBook "2" "c" "y" 2).
Definition poetryA : Book :=
  inGroup "poetry" None (sampleBook "3" "a" "z" 1).

(** Two books whose titles and authors differ but whose keys coincide. *)
Definition pipeInTitle : Book := sampleBook "p1" "a|b" "c" 2.
Definition pipeInAuthor : Book := sampleBook "p2" "a" "b|c" 1.

(** A string that is non-empty and stays so after trimming. *)
Definition nonBlank (n : string) : bool := truthyS n && truthyS (trim n).

(** The records of a library that carry the group name [n], in order. *)
Definition members (n : string) (books : list Book) : list Book :=
  filter (λ b, group b = Some n) books.

(** The last non-empty [groupColor] among the members of [n], if any. *)
Definition mostRecentColor (n : string) (books : list Book) : option string :=
  default None
    (last (filter (λ c, truthy c = true) (groupColor <$> members n books))).

(** [n1] is met in the library before any record of [n2]. *)
Definition discovered_before (books : list Book) (n1 n2 : string) : Prop :=
  ∃ (i : nat) b1, books !! i = Some b1 ∧ group b1 = Some n1
    ∧ ∀ (j : nat) b2, books !! j = Some b2 → group b2 = Some n2 → (i < j)%nat.

(** The reading of the specification: every non-empty [group] value of
    the library has an entry. *)
Definition facet_for_every_nonempty_group (books : list Book) : Prop :=
  ∀ b n, b ∈ books → group b = Some n → n ≠ "" → n ∈ (uniqueGroups books).*1.

Definition nonBlankO (o : option string) : bool :=
  match o with Some s => nonBlank s | None => false end.

Definition withGroupColor (c : option string) (b : Book) : Book :=
  spread b {| Partial.group := None; Partial.groupColor := Some c;
              Partial.seriesTitle := None; Partial.seriesIndex := None;
              Partial.seriesColor := None; Partial.status := None |}.

Definition withSeriesColor (c : option string) (b : Book) : Book :=
  spread b {| Partial.group := None; Partial.groupColor := None;
              Partial.seriesTitle := None; Partial.seriesIndex := None;
              Partial.seriesColor := Some c; Partial.status := None |}.

(** [b] is rewritten by the group branch of an edit of [u]. *)
Definition groupTarget (u b : Book) : Prop :=
  nonBlankO (group u) = true ∧ truthy (groupColor u) = true
  ∧ group b = group u ∧ id b ≠ id u ∧ groupColor b ≠ groupColor u.

(** [b] is rewritten by the series branch of an edit of [u]. *)
Definition seriesTarget (u b : Book) : Prop :=
  nonBlankO (seriesTitle u) = true ∧ truthy (seriesColor u) = true
  ∧ seriesTitle b = seriesTitle u ∧ id b ≠ id u
  ∧ seriesColor b ≠ seriesColor u.

(** The reading of the specification for the group family: an edit of a
    record with a non-empty [group] and a [groupColor] brings every other
    stored record of that [group] to this [groupColor]. *)
Definition group_color_propagates (db : Store) (u : Book) : Prop :=
  ∀ b g, db !! id b = Some b → id b ≠ id u →
    group u = Some g → g ≠ "" → truthy (groupColor u) = true →
    group b = Some g → groupColor b ≠ groupColor u →
    ∃ b', handleUpdateBook (getAllBooks db) u db !! id b = Some b'
          ∧ groupColor b' = groupColor u.

(** Two records in a group whose name is a single space. *)
Definition blankA : Book :=
  inGroup " " None (sampleBook "a" "Emma" "Jane Austen" 2).
Definition blankB : Book :=
  inGroup " " (Some "#ff0000") (sampleBook "b" "Dune" "Frank Herbert" 1).

(** The example of the specification: A and B in group "Sci-Fi", A
    without a color, B with "#ff0000"; A is edited to "#00ff00". *)
Definition scifiA : Book :=
  inGroup "Sci-Fi" None (sampleBook "a" "Emma" "Jane Austen" 2).
Definition scifiB : Book :=
  inGroup "Sci-Fi" (Some "#ff0000") (sampleBook "b" "Dune" "Frank Herbert" 1).
Definition scifiStore : Store := addBook scifiA (addBook scifiB ∅).

(** A record that shares both the group and the series of the edited one. *)
Definition bothA : Book :=
  inSeries "Saga" "1" None (inGroup "Sci-Fi" None (sampleBook "a" "Emma" "Austen" 2)).
Definition bothB : Book :=
  inSeries "Saga" "2" (Some "#0000ff")
    (inGroup "Sci-Fi" (Some "#ff0000") (sampleBook "b" "Dune" "Herbert" 1)).

(** The suggestions for the id [k] that survive the cleaning. *)
Definition usable (k : string) (u : Suggestion.t) : Prop :=
  Suggestion.id u = Some k ∧ truthyS k = true
  ∧ 0 < Partial.keysLength (cleanUpdate u).

(** Every field of an update is absent or a non-empty string, and the
    update carries no color and no status. *)
Definition cleanPartial (c : Partial.t) : Prop :=
  (∀ s, Partial.group c = Some s → s ≠ "")
  ∧ (∀ s, Partial.seriesTitle c = Some s → s ≠ "")
  ∧ (∀ s, Partial.seriesIndex c = Some s → s ≠ "")
  ∧ Partial.groupColor c = None ∧ Partial.seriesColor c = None
  ∧ Partial.status c = None.

#[global] Instance usable_dec k u : Decision (usable k u).
Proof. unfold usable. apply _. Defined.

Definition sampleSuggestions : list Suggestion.t :=
  [ Suggestion.mk (Some "d1") (Some "Dune Chronicles") (Some "") None;
    Suggestion.mk (Some "zz") (Some "Unknown") None None;
    Suggestion.mk (Some "e1") (Some "") None (Some "") ].

#[global] Instance groupTarget_dec u b : Decision (groupTarget u b).
Proof. unfold groupTarget. apply _. Defined.

#[global] Instance seriesTarget_dec u b : Decision (seriesTarget u b).
Proof. unfold seriesTarget. apply _. Defined.

(** The section name of a group, and the groups of a section. *)
Definition groupLayoutKey (opt : SortOption) (g : list Book) : option string :=
  layoutKey opt <$> head g.

Definition sectionOf (opt : SortOption) (k : string)
    (shown : list (list Book)) : list (list Book) :=
  filter (λ g, groupLayoutKey opt g = Some k) shown.

(** A group that makes the computation throw. *)
Definition breaksLayout (opt : SortOption) (g : list Book) : Prop :=
  match groupLayoutKey opt g with
  | Some k => k ∈ objectPrototypeKeys
  | None => True
  end.

#[global] Instance breaksLayout_dec opt g : Decision (breaksLayout opt g).
Proof. unfold breaksLayout. destruct (groupLayoutKey opt g); apply _. Defined.

(** The comparator of the sections, made to answer 0 on equal names: the
    two agree on every pair of distinct names. *)
Definition sectionCmp0 (lc : string → string → Z) (a b : string) : Z :=
  if bool_decide (a = b) then 0 else sectionCmp lc a b.

(** The extensions of the files that can be imported. *)
Definition acceptedTypes : list string := ["epub"; "pdf"; "azw3"; "mobi"].

(** A clock that never goes back. *)
Definition monotone (now : nat → Z) : Prop :=
  ∀ i j : nat, (i <= j)%nat → now i <= now j.

Definition sampleMetadata (t a : string) (g : option string)
    (gc : option string) : BookMetadata.t :=
  {| BookMetadata.title := t; BookMetadata.author := a;
     BookMetadata.description := ""; BookMetadata.releaseDate := "1965";
     BookMetadata.genre := "Sci-Fi"; BookMetadata.language := Some "en";
     BookMetadata.seriesTitle := None; BookMetadata.seriesIndex := None;
     BookMetadata.seriesColor := None; BookMetadata.group := g;
     BookMetadata.groupColor := gc; BookMetadata.status := None |}.

Definition samplePending (i name t : string) (g gc : option string)
  : PendingBook.t :=
  {| PendingBook.file := {| File.name := name; File.size := 10;
                            File.arrayBuffer := [1; 2] |};
     PendingBook.metadata := sampleMetadata t "Frank Herbert" g gc;
     PendingBook.tempId := i;
     PendingBook.coverColor := "#475569" |}.

Definition sampleBatch : list PendingBook.t :=
  [ samplePending "u1" "dune.epub" "Dune" (Some "Classics") (Some "#dc2626");
    samplePending "u2" "messiah.pdf" "Dune Messiah" None None ].

(** A clock that shows the same millisecond during the whole batch. *)
Definition frozenClock (i : nat) : Z := 1000.

Definition sampleFiles : list File.t :=
  [ {| File.name := "notes.txt"; File.size := 1; File.arrayBuffer := [] |};
    {| File.name := "Dune.EPUB"; File.size := 2; File.arrayBuffer := [7] |};
    {| File.name := "dune.pdf"; File.size := 3; File.arrayBuffer := [8] |} ].

(** A series of calls of [login], each with its own clock readings and
    password; the storage after the last one. *)
Definition logins (hash : string → string)
    (tries : list ((nat → Z) * string)) (st : Auth.Storage) : Auth.Storage :=
  foldl (λ st try, match Auth.login hash try.1 try.2 st with
                   | Some (_, st') => st'
                   | None => st
                   end) st tries.

(** A stand-in for the digest in the examples. *)
Definition sampleHash (s : string) : string := "h:" +:+ s.

Definition sampleStorage : Auth.Storage :=
  {| Auth.masterLock := Some (sampleHash "secret");
     Auth.session := None;
     Auth.loginAttempts := Some (Auth.mkAttempts 3 0);
     Auth.settings := Some 15 |}.

Definition clockAt (t : Z) (k : nat) : Z := t + Z.of_nat k.

(** * Properties *)

(** ** Sorting *)

Section Precedes.
Context {A : Type}.
Implicit Types (l : list A) (x y a : A).

Lemma precedes_cons a l x y :
  precedes (a :: l) x y ↔ (x = a ∧ y ∈ l) ∨ precedes l x y.
Proof.
  split.
  - intros (i & j & Hij & Hi & Hj).
    destruct j as [|j]; [lia|]. destruct i as [|i]; simpl in *.
    + left. split; [congruence|]. by eapply list_elem_of_lookup_2.
    + right. exists i, j. split_and!; [lia|done..].
  - intros [[-> Hy]|(i & j & Hij & Hi & Hj)].
    + apply list_elem_of_lookup_1 in Hy as [j Hj].
      exists 0%nat, (S j). split_and!; [lia|done..].
    + exists (S i), (S j). split_and!; [lia|done..].
Qed.

Lemma precedes_nil x y : ¬ precedes (@nil A) x y.
Proof. by intros (i & j & _ & Hi & _). Qed.

Lemma precedes_elem_of l x y : precedes l x y → x ∈ l ∧ y ∈ l.
Proof.
  intros (i & j & _ & Hi & Hj).
  split; by eapply list_elem_of_lookup_2.
Qed.

Lemma precedes_fmap {B} (f : A → B) l x y :
  precedes l x y → precedes (f <$> l) (f x) (f y).
Proof.
  intros (i & j & Hij & Hi & Hj). exists i, j.
  rewrite !list_lookup_fmap, Hi, Hj. done.
Qed.

End Precedes.

Section SortFacts.
Context {A : Type} (cmp : A → A → Z).
Implicit Types (l s : list A) (x y a : A).

Lemma insertBy_perm a s : insertBy cmp a s ≡ₚ a :: s.
Proof.
  induction s as [|b s IH]; simpl; [done|].
  case_bool_decide; [done|]. rewrite IH. apply Permutation_swap.
Qed.

Lemma sortBy_perm l : sortBy cmp l ≡ₚ l.
Proof.
  induction l as [|a l IH]; simpl; [done|].
  fold (sortBy cmp l). by rewrite insertBy_perm, IH.
Qed.

Lemma elem_of_sortBy l x : x ∈ sortBy cmp l ↔ x ∈ l.
Proof. by rewrite sortBy_perm. Qed.

(** Where a pair of the list after an insertion comes from. *)
Lemma insertBy_precedes a s x y :
  precedes (insertBy cmp a s) x y →
  precedes s x y
  ∨ (x = a ∧ ∃ z, z ∈ s ∧ cmp a z <= 0 ∧ (z = y ∨ precedes s z y))
  ∨ (y = a ∧ x ∈ s ∧ cmp a x > 0).
Proof.
  induction s as [|b s IH]; simpl.
  - rewrite precedes_cons. intros [[_ Hy]|H']; [by inversion Hy|].
    by apply precedes_nil in H'.
  - case_bool_decide as Hc.
    + rewrite precedes_cons. intros [[-> Hy]|H']; [|by left].
      right; left. split; [done|]. exists b. split_and!; [left|done|].
      apply elem_of_cons in Hy as [->|Hy]; [by left|].
      right. apply precedes_cons. by left.
    + rewrite precedes_cons. intros [[-> Hy]|H'].
      * rewrite insertBy_perm in Hy. apply elem_of_cons in Hy as [->|Hy].
        -- right; right. split_and!; [done|left|lia].
        -- left. apply precedes_cons. by left.
      * destruct (IH H') as [H1|[(-> & z & Hz & Hcz & Hzy)|(-> & Hx & Hcx)]].
        -- left. apply precedes_cons. by right.
        -- right; left. split; [done|]. exists z.
           split_and!; [by right|done|].
           destruct Hzy as [->|Hzy]; [by left|].
           right. apply precedes_cons. by right.
        -- right; right. split_and!; [done|by right|done].
Qed.

(** The sort is stable: two values that the comparator does not put in
    this order keep the order they had. *)
Lemma sortBy_stable l x y :
  precedes (sortBy cmp l) x y → cmp y x <= 0 → precedes l x y.
Proof.
  revert x y. induction l as [|a l IH]; intros x y; simpl.
  - intros H'. by apply precedes_nil in H'.
  - fold (sortBy cmp l). intros H' Hyx.
    apply insertBy_precedes in H'
      as [H1|[(-> & z & Hz & Hcz & Hzy)|(-> & Hx & Hcx)]].
    + apply precedes_cons. right. by apply IH.
    + apply precedes_cons. left. split; [done|].
      destruct Hzy as [->|Hzy]; [by apply (elem_of_sortBy l y)|].
      apply precedes_elem_of in Hzy as [_ Hy]. by apply (elem_of_sortBy l y).
    + lia.
Qed.

(** The sorted list is ordered by the comparator. *)
Lemma sortBy_ordered (P : A → Prop) l x y :
  Consistent P cmp → Forall P l → precedes (sortBy cmp l) x y → cmp x y <= 0.
Proof.
  intros HC. revert x y. induction l as [|a l IH]; intros x y HP; simpl.
  - intros H'. by apply precedes_nil in H'.
  - fold (sortBy cmp l). apply Forall_cons in HP as [Ha HP].
    assert (∀ z, z ∈ sortBy cmp l → P z) as HPs.
    { intros z Hz. apply (elem_of_sortBy l z) in Hz.
      by eapply Forall_forall in HP. }
    intros H'. apply insertBy_precedes in H'
      as [H1|[(-> & z & Hz & Hcz & Hzy)|(-> & Hx & Hcx)]].
    + by apply IH.
    + destruct Hzy as [->|Hzy]; [done|].
      pose proof (precedes_elem_of _ _ _ Hzy) as [_ Hy].
      eapply (cmp_trans a z y); eauto.
    + pose proof (cmp_anti (cmp:=cmp) a x Ha (HPs _ Hx)). lia.
Qed.
End SortFacts.

(** ** The insertion-ordered map *)

Section JSMapFacts.
Context {V : Type}.
Implicit Types (m : JSMap.t V) (k : string) (v : V).

Lemma get_set_eq k v m : JSMap.get k (JSMap.set k v m) = Some v.
Proof.
  induction m as [|[k' v'] m IH]; simpl.
  - by rewrite bool_decide_eq_true_2.
  - case_bool_decide as Hk; simpl.
    + by rewrite bool_decide_eq_true_2.
    + by rewrite bool_decide_eq_false_2.
Qed.

Lemma get_set_ne k k' v m :
  k ≠ k' → JSMap.get k' (JSMap.set k v m) = JSMap.get k' m.
Proof.
  intros Hne. induction m as [|[k0 v0] m IH]; simpl.
  - by rewrite bool_decide_eq_false_2.
  - case_bool_decide as Hk; simpl.
    + subst k0. by rewrite !bool_decide_eq_false_2.
    + by rewrite IH.
Qed.

Lemma set_set k v v' m :
  JSMap.set k v (JSMap.set k v' m) = JSMap.set k v m.
Proof.
  induction m as [|[k0 v0] m IH]; simpl.
  - by rewrite bool_decide_eq_true_2.
  - case_bool_decide; simpl.
    + by rewrite bool_decide_eq_true_2.
    + rewrite bool_decide_eq_false_2 by done. by rewrite IH.
Qed.

Lemma get_None k m : JSMap.get k m = None ↔ k ∉ JSMap.keys m.
Proof.
  unfold JSMap.keys. induction m as [|[k' v'] m IH]; simpl.
  - split; [intros _ H'; inversion H'|done].
  - rewrite not_elem_of_cons. case_bool_decide as Hk.
    + split; [done|]. by intros [? _].
    + rewrite IH. split; [done|]. by intros [_ ?].
Qed.

Lemma get_Some_elem_of k v m : JSMap.get k m = Some v → (k, v) ∈ m.
Proof.
  induction m as [|[k' v'] m IH]; simpl; [done|].
  case_bool_decide.
  - intros [= ->]. subst. left.
  - intros. right. auto.
Qed.

Lemma elem_of_get k v m :
  NoDup (JSMap.keys m) → (k, v) ∈ m → JSMap.get k m = Some v.
Proof.
  unfold JSMap.keys. induction m as [|[k' v'] m IH]; simpl.
  - intros _ H'. inversion H'.
  - intros [Hk Hnd]%NoDup_cons [[= -> ->]|Hin]%elem_of_cons.
    + by rewrite bool_decide_eq_true_2.
    + rewrite bool_decide_eq_false_2; [auto|].
      intros ->. apply Hk. apply list_elem_of_fmap. by exists (k, v).
Qed.

Lemma set_fresh k v m :
  JSMap.get k m = None → JSMap.set k v m = m ++ [(k, v)].
Proof.
  induction m as [|[k' v'] m IH]; simpl; [done|].
  case_bool_decide; [done|]. intros. by rewrite IH.
Qed.

Lemma keys_set_present k v m :
  is_Some (JSMap.get k m) → JSMap.keys (JSMap.set k v m) = JSMap.keys m.
Proof.
  unfold JSMap.keys. induction m as [|[k' v'] m IH]; simpl.
  - by intros [? ?].
  - case_bool_decide; simpl; [done|]. intros. f_equal. by apply IH.
Qed.

Lemma keys_set_NoDup k v m :
  NoDup (JSMap.keys m) → NoDup (JSMap.keys (JSMap.set k v m)).
Proof.
  intros Hnd. destruct (JSMap.get k m) as [v0|] eqn:Hg.
  - by rewrite keys_set_present.
  - rewrite set_fresh by done. unfold JSMap.keys in *.
    rewrite fmap_app. simpl. apply NoDup_app. split_and!; [done| |].
    + intros x Hx [->|H']%elem_of_cons; [|inversion H'].
      by apply get_None in Hg.
    + apply NoDup_singleton.
Qed.

Lemma precedes_keys_set k v m k1 k2 :
  precedes (JSMap.keys (JSMap.set k v m)) k1 k2 →
  precedes (JSMap.keys m) k1 k2
  ∨ (k2 = k ∧ JSMap.get k m = None ∧ k1 ∈ JSMap.keys m).
Proof.
  destruct (JSMap.get k m) as [v0|] eqn:Hg.
  - rewrite keys_set_present by done. auto.
  - rewrite set_fresh by done. unfold JSMap.keys. rewrite fmap_app. simpl.
    intros (i & j & Hij & Hi & Hj).
    destruct (decide (j < length m.*1)%nat) as [Hlt|Hge].
    + left. exists i, j. rewrite lookup_app_l in Hi, Hj by lia. done.
    + right. assert (j = length m.*1) as ->.
      { apply lookup_lt_Some in Hj. rewrite length_app in Hj. simpl in Hj. lia. }
      rewrite list_lookup_middle in Hj by done.
      rewrite lookup_app_l in Hi by lia.
      split_and!; [congruence|done|by eapply list_elem_of_lookup_2].
Qed.
End JSMapFacts.

Lemma concat_values_set k (g : list Book) b (m : JSMap.t (list Book)) :
  JSMap.get k m = Some g →
  concat (JSMap.values (JSMap.set k (g ++ [b]) m))
  ≡ₚ concat (JSMap.values m) ++ [b].
Proof.
  unfold JSMap.values. induction m as [|[k' v'] m IH]; simpl; [done|].
  case_bool_decide; simpl.
  - intros [= ->]. rewrite <- !(assoc_L (++)). f_equiv. apply Permutation_app_comm.
  - intros Hg. rewrite IH by done. by rewrite (assoc_L (++)).
Qed.

(** ** Grouping *)

Section Grouping.
Implicit Types (books : list Book) (b : Book) (g : list Book).

Lemma groupStep_eq (m : JSMap.t (list Book)) b :
  groupStep m b
  = JSMap.set (bookKey b) (default [] (JSMap.get (bookKey b) m) ++ [b]) m.
Proof.
  unfold groupStep, JSMap.has.
  destruct (JSMap.get (bookKey b) m) as [g|] eqn:Hg; simpl.
  - by rewrite Hg.
  - rewrite get_set_eq. simpl. apply set_set.
Qed.

Lemma groupedMap_snoc books b :
  groupedMap (books ++ [b]) = groupStep (groupedMap books) b.
Proof. unfold groupedMap. by rewrite foldl_app. Qed.

(** The group stored under a key is the list of the books with that key,
    in input order; keys without a book are absent; the groups together
    hold every book once. *)
Lemma groupedMap_spec books :
  NoDup (JSMap.keys (groupedMap books))
  ∧ (∀ k, JSMap.get k (groupedMap books)
          = if decide (variantsOf k books = []) then None
            else Some (variantsOf k books))
  ∧ concat (JSMap.values (groupedMap books)) ≡ₚ books.
Proof.
  induction books as [|b books IH] using rev_ind.
  { split_and!; [apply NoDup_nil_2|done|done]. }
  destruct IH as (Hnd & Hget & Hperm).
  rewrite groupedMap_snoc, groupStep_eq. split_and!.
  - by apply keys_set_NoDup.
  - intros k. unfold variantsOf. rewrite filter_app, filter_cons, filter_nil.
    destruct (decide (bookKey b = k)) as [<-|Hne].
    + rewrite get_set_eq, Hget. unfold variantsOf.
      destruct (filter (λ b0, bookKey b0 = bookKey b) books) as [|b1 l] eqn:Hf;
        simpl; by repeat case_decide.
    + rewrite get_set_ne, Hget by done. unfold variantsOf.
      by rewrite (right_id_L [] (++)).
  - destruct (JSMap.get (bookKey b) (groupedMap books)) as [g|] eqn:Hg; simpl.
    + rewrite concat_values_set by done. by rewrite Hperm.
    + rewrite set_fresh by done. unfold JSMap.values in *.
      rewrite fmap_app, concat_app. simpl. by rewrite Hperm.
Qed.

Lemma elem_of_groupedLibrary books g :
  g ∈ groupedLibrary books ↔
  g ≠ [] ∧ ∃ k, g = variantsOf k books.
Proof.
  destruct (groupedMap_spec books) as (Hnd & Hget & _).
  unfold groupedLibrary, JSMap.values. rewrite list_elem_of_fmap. split.
  - intros ([k g'] & -> & Hin). simpl.
    apply elem_of_get in Hin; [|done]. rewrite Hget in Hin.
    case_decide; [done|]. injection Hin as <-. eauto.
  - intros (Hne & k & ->). exists (k, variantsOf k books). split; [done|].
    apply get_Some_elem_of. rewrite Hget. by case_decide.
Qed.

Lemma groupedLibrary_nonempty books g : g ∈ groupedLibrary books → g ≠ [].
Proof. by intros [? _]%elem_of_groupedLibrary. Qed.

Lemma groupedLibrary_perm books : concat (groupedLibrary books) ≡ₚ books.
Proof. apply groupedMap_spec. Qed.

Lemma groupedLibrary_NoDup books : NoDup (groupedLibrary books).
Proof.
  destruct (groupedMap_spec books) as (Hnd & Hget & _).
  unfold groupedLibrary, JSMap.values.
  apply NoDup_fmap_2_strong; [|by eapply NoDup_fmap_1].
  intros [k1 g1] [k2 g2] H1 H2 Heq. simpl in Heq. subst g2.
  apply elem_of_get in H1, H2; try done.
  rewrite Hget in H1, H2. repeat case_decide; try done.
  injection H1 as <-. injection H2 as Heq.
  destruct (variantsOf k1 books) as [|b l] eqn:Hv; [done|].
  assert (b ∈ variantsOf k1 books) as Hb1 by (rewrite Hv; left).
  assert (b ∈ variantsOf k2 books) as Hb2 by (rewrite Heq; left).
  apply list_elem_of_filter in Hb1 as [<- _].
  apply list_elem_of_filter in Hb2 as [<- _]. done.
Qed.
End Grouping.

(** ** Consistent comparators *)

Section ConsistentFacts.
Context {A : Type}.
Implicit Types (P : A → Prop) (cmp : A → A → Z).

Lemma cmp_refl P cmp `{!Consistent P cmp} x : P x → cmp x x = 0.
Proof. intros Hx. pose proof (cmp_anti (cmp:=cmp) x x Hx Hx). lia. Qed.

Lemma consistent_ext P cmp cmp' :
  (∀ x y, cmp x y = cmp' x y) → Consistent P cmp → Consistent P cmp'.
Proof.
  intros Heq [Hanti Htrans]. split.
  - intros x y. rewrite <- !Heq. apply Hanti.
  - intros x y z. rewrite <- !Heq. apply Htrans.
Qed.

Lemma consistent_contramap {B} (f : A → B) P (Q : B → Prop) (cmp : B → B → Z) :
  (∀ x, P x → Q (f x)) → Consistent Q cmp →
  Consistent P (λ x y, cmp (f x) (f y)).
Proof.
  intros HPQ [Hanti Htrans]. split.
  - intros x y ??. apply Hanti; auto.
  - intros x y z ???. apply Htrans; auto.
Qed.

(** [c1] first, [c2] to break its ties. *)
Lemma consistent_lex P (c1 c2 : A → A → Z) :
  Consistent P c1 → Consistent P c2 →
  Consistent P (λ x y, if negb (bool_decide (c1 x y = 0)) then c1 x y
                       else c2 x y).
Proof.
  intros [Hanti1 Htrans1] [Hanti2 Htrans2]. split.
  - intros x y Hx Hy.
    pose proof (Hanti1 x y Hx Hy). pose proof (Hanti2 x y Hx Hy).
    repeat case_bool_decide; simpl; lia.
  - intros x y z Hx Hy Hz.
    pose proof (Hanti1 x y Hx Hy). pose proof (Hanti1 y z Hy Hz).
    pose proof (Hanti1 x z Hx Hz).
    pose proof (Htrans1 x y z Hx Hy Hz). pose proof (Htrans1 y z x Hy Hz Hx).
    pose proof (Htrans1 z x y Hz Hx Hy). pose proof (Htrans2 x y z Hx Hy Hz).
    repeat case_bool_decide; simpl; lia.
Qed.
End ConsistentFacts.

Lemma onRep_consistent (f : Book → Book → Z) :
  Consistent (λ _, True) f → Consistent (λ g : list Book, g ≠ []) (onRep f).
Proof.
  intros [Hanti Htrans]. split.
  - intros [|a ?] [|b ?] ??; try done. simpl. by apply Hanti.
  - intros [|a ?] [|b ?] [|c ?] ???; try done. simpl. by apply Htrans.
Qed.

Lemma lexCompare_consistent : Consistent (λ _, True) lexCompare.
Proof.
  split.
  - intros k1 k2 _ _. revert k2.
    induction k1 as [|a k1 IH]; intros [|b k2]; simpl; try done.
    repeat case_bool_decide; subst; first [done | lia | apply IH].
  - intros k1 k2 k3 _ _ _. revert k2 k3.
    induction k1 as [|a k1 IH]; intros [|b k2] [|c k3]; simpl; try lia.
    repeat case_bool_decide; subst; first [lia | apply IH].
Qed.

Lemma lexCompare_eq k1 k2 : lexCompare k1 k2 = 0 → k1 = k2.
Proof.
  revert k2. induction k1 as [|a k1 IH]; intros [|b k2]; simpl; try done.
  case_bool_decide; [|lia]. intros. subst. f_equal. auto.
Qed.

Lemma charCode_inj c1 c2 : charCode c1 = charCode c2 → c1 = c2.
Proof.
  unfold charCode. intros H'%(inj Z.of_N).
  by rewrite <- (ascii_N_embedding c1), <- (ascii_N_embedding c2), H'.
Qed.

Lemma codeUnits_inj s t : codeUnits s = codeUnits t → s = t.
Proof.
  revert t. induction s as [|c s IH]; intros [|d t]; simpl; try done.
  intros [= Hc%charCode_inj Hs%IH]. by subst.
Qed.

Global Instance refLocaleCompare_collation : Collation refLocaleCompare.
Proof.
  apply (consistent_contramap codeUnits _ (λ _, True)); [done|].
  apply lexCompare_consistent.
Qed.

Lemma refLocaleCompare_strict s t : refLocaleCompare s t = 0 → s = t.
Proof. intros H'%lexCompare_eq. by apply codeUnits_inj. Qed.

Global Instance refLocaleCompareNumeric_collation :
  Collation refLocaleCompareNumeric.
Proof.
  apply (consistent_contramap (λ s, numericKey s None) _ (λ _, True)); [done|].
  apply lexCompare_consistent.
Qed.

Section Comparators.
Context (lc nc : string → string → Z).

Lemma recentCmp_consistent : Consistent (λ _, True) recentCmp.
Proof.
  split.
  - intros a b _ _. unfold recentCmp.
    destruct (Math_max (addedAt <$> a)), (Math_max (addedAt <$> b)); simpl; lia.
  - intros a b c _ _ _. unfold recentCmp.
    destruct (Math_max (addedAt <$> a)), (Math_max (addedAt <$> b)),
      (Math_max (addedAt <$> c)); simpl; lia.
Qed.

Lemma titleCmp_consistent `{!Collation lc} :
  Consistent (λ _, True) (titleCmp lc).
Proof. by apply (consistent_contramap title _ (λ _, True)). Qed.

Lemma seriesCmp_consistent `{!Collation lc, !Collation nc} :
  Consistent (λ _, True) (seriesCmp lc nc).
Proof.
  pose proof (consistent_lex (λ _, True)
    (λ a b, nc (orString (seriesTitle a) "") (orString (seriesTitle b) ""))
    (λ a b, nc (orString (seriesIndex a) "") (orString (seriesIndex b) "")))
    as [Hanti Htrans].
  { by apply (consistent_contramap (λ a, orString (seriesTitle a) "") _ (λ _, True)). }
  { by apply (consistent_contramap (λ a, orString (seriesIndex a) "") _ (λ _, True)). }
  pose proof (titleCmp_consistent) as [HantiT HtransT].
  unfold titleCmp in *.
  split.
  - intros a b _ _. specialize (Hanti a b I I). specialize (HantiT a b I I).
    unfold seriesCmp.
    destruct (truthyS (orString (seriesTitle a) "")),
      (truthyS (orString (seriesTitle b) "")); simpl; done.
  - intros a b c _ _ _. specialize (Htrans a b c I I I).
    specialize (HtransT a b c I I I). unfold seriesCmp.
    destruct (truthyS (orString (seriesTitle a) "")),
      (truthyS (orString (seriesTitle b) "")),
      (truthyS (orString (seriesTitle c) "")); simpl; try done; lia.
Qed.

(** The comparator of the sort key [group] is consistent on the groups
    whose effective group values the collation tells apart. *)
Lemma groupCmp_consistent_on (gl : list (list Book)) :
  Collation lc → tellsGroupsApart lc gl →
  Consistent (λ g, g ≠ [] ∧ g ∈ gl) (onRep (groupCmp lc)).
Proof.
  intros [Hanti Htrans] Hapart. split.
  - intros [|a ra] [|b rb] [_ _] [_ _]; try done. simpl. unfold groupCmp.
    pose proof (Hanti (orString (group a) "zzz") (orString (group b) "zzz") I I).
    pose proof (Hanti (title a) (title b) I I).
    repeat case_bool_decide; simpl; congruence.
  - intros [|a ra] [|b rb] [|c rc] [Hna Ha] [Hnb Hb] [Hnc Hc]; try done.
    clear Hna Hnb Hnc.
    simpl. unfold groupCmp.
    pose proof (Htrans (orString (group a) "zzz") (orString (group b) "zzz")
                  (orString (group c) "zzz") I I I) as Hg.
    pose proof (Htrans (title a) (title b) (title c) I I I) as Ht.
    pose proof (Hanti (orString (group a) "zzz") (orString (group b) "zzz") I I)
      as Hab.
    pose proof (Hapart _ _ a b Ha Hb eq_refl eq_refl) as Hapart'.
    destruct (decide (orString (group a) "zzz" = orString (group b) "zzz"))
      as [Eab|Nab];
      destruct (decide (orString (group b) "zzz" = orString (group c) "zzz"))
        as [Ebc|Nbc];
      destruct (decide (orString (group a) "zzz" = orString (group c) "zzz"))
        as [Eac|Nac];
      rewrite ?(bool_decide_eq_true_2 _ Eab), ?(bool_decide_eq_false_2 _ Nab),
        ?(bool_decide_eq_true_2 _ Ebc), ?(bool_decide_eq_false_2 _ Nbc),
        ?(bool_decide_eq_true_2 _ Eac), ?(bool_decide_eq_false_2 _ Nac);
      simpl; intros H1 H2; try congruence; auto.
    exfalso. rewrite <- Eac in H2. apply Nab, Hapart'. lia.
Qed.
End Comparators.

(** ** The filter-and-sort pipeline *)

Section Pipeline.
Context (lc nc : string → string → Z).

Lemma filteredAndSortedGroups_perm gl q opt fg :
  filteredAndSortedGroups lc nc gl q opt fg
  ≡ₚ filter (λ g, matchesFilter q fg g = true) gl.
Proof. unfold filteredAndSortedGroups. destruct opt; apply sortBy_perm. Qed.

Lemma elem_of_filteredAndSortedGroups gl q opt fg g :
  g ∈ filteredAndSortedGroups lc nc gl q opt fg
  ↔ matchesFilter q fg g = true ∧ g ∈ gl.
Proof. by rewrite filteredAndSortedGroups_perm, list_elem_of_filter. Qed.

Lemma filtered_nonempty books q fg :
  Forall (λ g, g ≠ [])
    (filter (λ g, matchesFilter q fg g = true) (groupedLibrary books)).
Proof.
  apply Forall_forall. intros g [_ Hg]%list_elem_of_filter.
  by eapply groupedLibrary_nonempty.
Qed.

Lemma filteredAndSortedGroups_submseteq gl q opt fg :
  filteredAndSortedGroups lc nc gl q opt fg ⊆+ gl.
Proof.
  rewrite filteredAndSortedGroups_perm.
  apply sublist_submseteq, sublist_filter.
Qed.
End Pipeline.

Lemma Math_max_spec (l : list Z) :
  l ≠ [] → ∃ m, Math_max l = Num m ∧ m ∈ l ∧ ∀ x, x ∈ l → x <= m.
Proof.
  induction l as [|a l IH]; [done|]. intros _. simpl.
  destruct l as [|b l].
  - exists a. split_and!; [done|left|].
    intros x [->|Hx]%elem_of_cons; [lia|inversion Hx].
  - destruct IH as (m & -> & Hm & Hle); [done|].
    exists (a `max` m). split_and!; [done| |].
    + destruct (Z.max_spec a m) as [[_ ->]|[_ ->]]; [by right|left].
    + intros x [->|Hx]%elem_of_cons; [lia|]. specialize (Hle _ Hx). lia.
Qed.

(** ** Sort key [recent] *)

(** C7.  Under sort key [recent] the groups are ordered by the maximum
    [addedAt] over all of their variants, descending: when a group stands
    before another in the result, both have a maximum taken over every
    variant, and the maximum of the first is not below that of the second.
    A group with variants added at 100 and at 500 has maximum 500. *)
Theorem recent_orders_by_max_addedAt lc nc books q fg ga gb :
  precedes (filteredAndSortedGroups lc nc (groupedLibrary books) q sort_recent fg)
    ga gb →
  (∃ ma mb,
      Math_max (addedAt <$> ga) = Num ma ∧ Math_max (addedAt <$> gb) = Num mb
      ∧ mb <= ma
      ∧ (∀ x, x ∈ ga → addedAt x <= ma) ∧ (∃ x, x ∈ ga ∧ addedAt x = ma)
      ∧ (∀ x, x ∈ gb → addedAt x <= mb) ∧ (∃ x, x ∈ gb ∧ addedAt x = mb))
  ∧ (∀ x y, addedAt x = 100 → addedAt y = 500 →
       Math_max (addedAt <$> [x; y]) = Num 500).
Proof.
  intros Hprec. split; [|by intros x y; simpl; intros -> ->].
  pose proof (precedes_elem_of _ _ _ Hprec) as [Ha Hb].
  apply elem_of_filteredAndSortedGroups in Ha as [_ Ha%groupedLibrary_nonempty].
  apply elem_of_filteredAndSortedGroups in Hb as [_ Hb%groupedLibrary_nonempty].
  unfold filteredAndSortedGroups in Hprec.
  apply (sortBy_ordered recentCmp (λ _, True)) in Hprec;
    [|apply recentCmp_consistent|by apply Forall_true].
  destruct (Math_max_spec (addedAt <$> ga)) as (ma & Hma & Hina & Hlea).
  { by destruct ga. }
  destruct (Math_max_spec (addedAt <$> gb)) as (mb & Hmb & Hinb & Hleb).
  { by destruct gb. }
  unfold recentCmp in Hprec. rewrite Hma, Hmb in Hprec. simpl in Hprec.
  exists ma, mb. split_and!; try done.
  - lia.
  - intros x Hx. apply Hlea. apply list_elem_of_fmap. eauto.
  - apply list_elem_of_fmap in Hina as (x & -> & Hx). eauto.
  - intros x Hx. apply Hleb. apply list_elem_of_fmap. eauto.
  - apply list_elem_of_fmap in Hinb as (x & -> & Hx). eauto.
Qed.

Lemma recent_orders_by_max_addedAt_witness :
  (∃ ma mb,
      Math_max (addedAt <$> [sampleBook "b" "Dune" "Frank Herbert" 500;
                             sampleBook "a" "dune " "frank herbert" 100]) = Num ma
      ∧ Math_max (addedAt <$> [sampleBook "c" "Emma" "Jane Austen" 300]) = Num mb
      ∧ mb <= ma
      ∧ (∀ x, x ∈ [sampleBook "b" "Dune" "Frank Herbert" 500;
                   sampleBook "a" "dune " "frank herbert" 100] → addedAt x <= ma)
      ∧ (∃ x, x ∈ [sampleBook "b" "Dune" "Frank Herbert" 500;
                   sampleBook "a" "dune " "frank herbert" 100] ∧ addedAt x = ma)
      ∧ (∀ x, x ∈ [sampleBook "c" "Emma" "Jane Austen" 300] → addedAt x <= mb)
      ∧ (∃ x, x ∈ [sampleBook "c" "Emma" "Jane Austen" 300] ∧ addedAt x = mb))
  ∧ (∀ x y, addedAt x = 100 → addedAt y = 500 →
       Math_max (addedAt <$> [x; y]) = Num 500).
Proof.
  apply (recent_orders_by_max_addedAt refLocaleCompare refLocaleCompareNumeric
           recentLibrary "" None).
  exists 0%nat, 1%nat. split_and!; [lia|vm_compute; reflexivity..].
Defined.

(** ** Sort key [series] *)

Lemma orString_empty o : orString o "" = default "" o.
Proof.
  destruct o as [s|]; simpl; [|done]. unfold truthyS.
  case_bool_decide; simpl; congruence.
Qed.

Lemma truthyS_orString_empty o : truthyS (orString o "") = truthy o.
Proof.
  destruct o as [s|]; simpl; [|done].
  destruct (truthyS s) eqn:Hs; done.
Qed.

Lemma includes_empty s : includes s "" = true.
Proof. by destruct s. Qed.

Lemma matchesFilter_all g : g ≠ [] → matchesFilter "" None g = true.
Proof. destruct g as [|b r]; [done|]. intros _. simpl. by rewrite includes_empty. Qed.

Lemma filter_matches_all (gl : list (list Book)) :
  Forall (λ g, g ≠ []) gl →
  filter (λ g, matchesFilter "" None g = true) gl = gl.
Proof.
  induction 1 as [|g gl Hg _ IH]; [done|].
  rewrite filter_cons, IH. case_decide as Hm; [done|].
  by rewrite matchesFilter_all in Hm.
Qed.

(** C5.  Under sort key [series], when a group stands before another in
    the result: the second has no series title unless the first has one
    (groups without a series come after all groups with one); if both have
    a series title, the titles are in numeric-aware collation order and,
    when the titles tie, so are the series indexes, an absent index
    counting as the empty string; if neither has a series title, the
    titles of the representatives are in collation order.  With a numeric
    collation that puts "2" before "10", the groups G1 (Alpha, 2),
    G2 (Alpha, 10) and G3 (no series) come out as [G1; G2; G3] from every
    input order. *)
Theorem series_sort_order lc nc :
  Collation lc → Collation nc →
  (∀ books q fg ga gb a b,
     precedes (filteredAndSortedGroups lc nc (groupedLibrary books) q sort_series fg)
       ga gb →
     head ga = Some a → head gb = Some b →
     (truthy (seriesTitle b) = true → truthy (seriesTitle a) = true)
     ∧ (truthy (seriesTitle a) = true → truthy (seriesTitle b) = true →
        nc (default "" (seriesTitle a)) (default "" (seriesTitle b)) <= 0
        ∧ (nc (default "" (seriesTitle a)) (default "" (seriesTitle b)) = 0 →
           nc (default "" (seriesIndex a)) (default "" (seriesIndex b)) <= 0))
     ∧ (truthy (seriesTitle a) = false → truthy (seriesTitle b) = false →
        lc (title a) (title b) <= 0))
  ∧ (∀ b1 b2 b3 r1 r2 r3 gl,
       seriesTitle b1 = Some "Alpha" → seriesIndex b1 = Some "2" →
       seriesTitle b2 = Some "Alpha" → seriesIndex b2 = Some "10" →
       truthy (seriesTitle b3) = false →
       nc "2" "10" < 0 →
       gl ≡ₚ [b1 :: r1; b2 :: r2; b3 :: r3] →
       filteredAndSortedGroups lc nc gl "" sort_series None
       = [b1 :: r1; b2 :: r2; b3 :: r3]).
Proof.
  intros Hlc Hnc. split.
  - intros books q fg ga gb a b Hprec Ha Hb.
    unfold filteredAndSortedGroups in Hprec.
    apply (sortBy_ordered _ (λ g, g ≠ [])) in Hprec;
      [|apply onRep_consistent, seriesCmp_consistent; done
       |apply filtered_nonempty].
    destruct ga as [|a' ra]; [done|]. destruct gb as [|b' rb]; [done|].
    simpl in Ha, Hb. injection Ha as ->. injection Hb as ->.
    simpl in Hprec. unfold seriesCmp in Hprec.
    rewrite !truthyS_orString_empty, !orString_empty in Hprec.
    destruct (truthy (seriesTitle a)), (truthy (seriesTitle b));
      simpl in Hprec; split_and!; try done; try lia.
    intros _ _. case_bool_decide; simpl in Hprec; split; lia.
  - intros b1 b2 b3 r1 r2 r3 gl Ht1 Hi1 Ht2 Hi2 Ht3 H210 Hperm.
    assert (nc "Alpha" "Alpha" = 0) as Haa by by apply (cmp_refl (λ _, True) nc).
    pose proof (cmp_anti (cmp:=nc) "2" "10" I I) as H102.
    assert (seriesCmp lc nc b1 b2 < 0 ∧ seriesCmp lc nc b2 b1 > 0
            ∧ seriesCmp lc nc b1 b3 = -1 ∧ seriesCmp lc nc b3 b1 = 1
            ∧ seriesCmp lc nc b2 b3 = -1 ∧ seriesCmp lc nc b3 b2 = 1)
      as (H12 & H21 & H13 & H31 & H23 & H32).
    { unfold seriesCmp. rewrite !truthyS_orString_empty, !orString_empty.
      rewrite Ht1, Ht2, Hi1, Hi2, Ht3. simpl.
      rewrite Haa. simpl. split_and!; try done; lia. }
    unfold filteredAndSortedGroups.
    rewrite filter_matches_all.
    2:{ rewrite Hperm. by repeat constructor. }
    symmetry in Hperm. apply permutations_Permutation in Hperm. simpl in Hperm.
    repeat (apply elem_of_cons in Hperm as [->|Hperm]);
      [..|by inversion Hperm];
      cbn [sortBy foldr insertBy onRep];
      repeat (first [rewrite bool_decide_eq_true_2 by lia
                    |rewrite bool_decide_eq_false_2 by lia];
              cbn [insertBy onRep]);
      reflexivity.
Qed.

Lemma series_sort_order_witness :
  ((truthy (seriesTitle alpha10) = true → truthy (seriesTitle alpha2) = true)
   ∧ (truthy (seriesTitle alpha2) = true → truthy (seriesTitle alpha10) = true →
      refLocaleCompareNumeric (default "" (seriesTitle alpha2))
        (default "" (seriesTitle alpha10)) <= 0
      ∧ (refLocaleCompareNumeric (default "" (seriesTitle alpha2))
           (default "" (seriesTitle alpha10)) = 0 →
         refLocaleCompareNumeric (default "" (seriesIndex alpha2))
           (default "" (seriesIndex alpha10)) <= 0))
   ∧ (truthy (seriesTitle alpha2) = false → truthy (seriesTitle alpha10) = false →
      refLocaleCompare (title alpha2) (title alpha10) <= 0))
  ∧ filteredAndSortedGroups refLocaleCompare refLocaleCompareNumeric
      [[alpha10]; [alpha2]; [noSeries]] "" sort_series None
    = [[alpha2]; [alpha10]; [noSeries]].
Proof.
  destruct (series_sort_order refLocaleCompare refLocaleCompareNumeric
              refLocaleCompare_collation refLocaleCompareNumeric_collation)
    as [Hgen Hex].
  split.
  - apply (Hgen [noSeries; alpha10; alpha2] "" None [alpha2] [alpha10]);
      [|reflexivity..].
    exists 0%nat, 1%nat. split_and!; [lia|vm_compute; reflexivity..].
  - apply (Hex alpha2 alpha10 noSeries [] [] []); try reflexivity.
    apply Permutation_swap.
Defined.

(** ** Sort key [group] *)

(** C6, as stated, fails: a collection named "zzzz" sorts after the
    groups that have no collection, which are compared as "zzz". *)
Lemma group_sort_named_first_fails :
  ¬ named_groups_first refLocaleCompare refLocaleCompareNumeric
      sentinelLibrary "" None.
Proof.
  intros Hclaim.
  specialize (Hclaim [sampleBook "y" "Emma" "Jane Austen" 1]
                [inGroup "zzzz" None (sampleBook "x" "Atlas" "Rand" 2)]
                (sampleBook "y" "Emma" "Jane Austen" 1)
                (inGroup "zzzz" None (sampleBook "x" "Atlas" "Rand" 2))).
  assert (truthy (group (sampleBook "y" "Emma" "Jane Austen" 1)) = true) as Habs.
  { apply Hclaim; [|reflexivity..].
    exists 0%nat, 1%nat. split_and!; [lia|vm_compute; reflexivity..]. }
  discriminate Habs.
Qed.

(** Without that condition the comparator is not transitive, although
    the collation is consistent: the order of the result is then not
    fixed by the comparator, and titles within one collection can come
    out of order. *)
Lemma group_sort_collation_tie :
  Collation ignoringCompare
  ∧ groupCmp ignoringCompare poetryB poetryMarked <= 0
  ∧ groupCmp ignoringCompare poetryMarked poetryA <= 0
  ∧ 0 < groupCmp ignoringCompare poetryB poetryA
  ∧ filteredAndSortedGroups ignoringCompare refLocaleCompareNumeric
      (groupedLibrary [poetryB; poetryMarked; poetryA]) "" sort_group None
    = [[poetryB]; [poetryMarked]; [poetryA]].
Proof.
  split_and!; [|vm_compute; try done; by intros ?..].
  apply (consistent_contramap dropIgnorable _ (λ _, True)); [done|].
  apply refLocaleCompare_collation.
Qed.

(** C6, amended.  Under sort key [group], with a consistent collation
    that tells apart the group values of the groups shown, an absent or
    empty value being replaced by "zzz": when a group stands before
    another in the result, the [group] values of the representatives are
    in collation order, and when these are the same string the titles of
    the representatives are in collation order.  So a group without a
    [group] value stands before a group with one only if that value does
    not collate before "zzz". *)
Theorem group_sort_order lc nc books q fg ga gb a b :
  Collation lc →
  tellsGroupsApart lc
    (filteredAndSortedGroups lc nc (groupedLibrary books) q sort_group fg) →
  precedes (filteredAndSortedGroups lc nc (groupedLibrary books) q sort_group fg)
    ga gb →
  head ga = Some a → head gb = Some b →
  lc (orString (group a) "zzz") (orString (group b) "zzz") <= 0
  ∧ (orString (group a) "zzz" = orString (group b) "zzz" →
     lc (title a) (title b) <= 0)
  ∧ (truthy (group a) = false → truthy (group b) = true →
     lc "zzz" (default "" (group b)) <= 0).
Proof.
  intros Hlc Hapart Hprec Ha Hb.
  assert (tellsGroupsApart lc
            (filter (λ g, matchesFilter q fg g = true) (groupedLibrary books)))
    as Hapart'.
  { intros g1 g2 a1 b1 Hg1 Hg2. apply Hapart;
      by rewrite (filteredAndSortedGroups_perm lc nc). }
  unfold filteredAndSortedGroups in Hprec.
  apply (sortBy_ordered _
           (λ g, g ≠ [] ∧ g ∈ filter (λ g, matchesFilter q fg g = true)
                                (groupedLibrary books))) in Hprec;
    [|by apply groupCmp_consistent_on|].
  2:{ apply Forall_forall. intros g Hg. split; [|done].
      apply list_elem_of_filter in Hg as [_ Hg].
      by eapply groupedLibrary_nonempty. }
  destruct ga as [|a' ra]; [done|]. destruct gb as [|b' rb]; [done|].
  simpl in Ha, Hb. injection Ha as ->. injection Hb as ->.
  simpl in Hprec. unfold groupCmp in Hprec.
  assert (lc (orString (group a) "zzz") (orString (group b) "zzz") <= 0
          ∧ (orString (group a) "zzz" = orString (group b) "zzz" →
             lc (title a) (title b) <= 0)) as [H1 H2].
  { case_bool_decide as Heq; simpl in Hprec.
    - rewrite Heq. rewrite (cmp_refl (λ _, True) lc) by done. done.
    - done. }
  split_and!; [done..|].
  intros Hna Hnb. clear H2 Hprec.
  destruct (group a) as [sa|], (group b) as [sb|]; simpl in *;
    try done; by rewrite ?Hna, ?Hnb in H1.
Qed.

Lemma group_sort_order_witness :
  refLocaleCompare
    (orString (group (sampleBook "y" "Emma" "Jane Austen" 1)) "zzz")
    (orString (group (inGroup "zzzz" None (sampleBook "x" "Atlas" "Rand" 2))) "zzz")
  <= 0
  ∧ (orString (group (sampleBook "y" "Emma" "Jane Austen" 1)) "zzz"
     = orString (group (inGroup "zzzz" None (sampleBook "x" "Atlas" "Rand" 2))) "zzz" →
     refLocaleCompare (title (sampleBook "y" "Emma" "Jane Austen" 1))
       (title (inGroup "zzzz" None (sampleBook "x" "Atlas" "Rand" 2))) <= 0)
  ∧ (truthy (group (sampleBook "y" "Emma" "Jane Austen" 1)) = false →
     truthy (group (inGroup "zzzz" None (sampleBook "x" "Atlas" "Rand" 2))) = true →
     refLocaleCompare "zzz"
       (default "" (group (inGroup "zzzz" None (sampleBook "x" "Atlas" "Rand" 2))))
     <= 0).
Proof.
  apply (group_sort_order refLocaleCompare refLocaleCompareNumeric
           sentinelLibrary "" None
           [sampleBook "y" "Emma" "Jane Austen" 1]
           [inGroup "zzzz" None (sampleBook "x" "Atlas" "Rand" 2)]).
  - apply refLocaleCompare_collation.
  - intros g1 g2 a1 b1 _ _ _ _. apply refLocaleCompare_strict.
  - exists 0%nat, 1%nat. split_and!; [lia|vm_compute; reflexivity..].
  - reflexivity.
  - reflexivity.
Defined.

(** ** The record store *)

Section StoreFacts.
Implicit Types (db : Store) (b r : Book) (k : string).

Lemma store_wf_empty : store_wf ∅.
Proof. intros k b. by rewrite lookup_empty. Qed.

Lemma store_wf_addBook r db : store_wf db → store_wf (addBook r db).
Proof.
  intros Hwf k b. unfold addBook. rewrite lookup_insert.
  case_decide; [by intros [= <-]|apply Hwf].
Qed.

Lemma store_wf_deleteBook k db : store_wf db → store_wf (deleteBook k db).
Proof.
  intros Hwf k' b. unfold deleteBook. rewrite lookup_delete.
  case_decide; [done|apply Hwf].
Qed.

Lemma getAllBooks_perm db : getAllBooks db ≡ₚ (map_to_list db).*2.
Proof. unfold getAllBooks, getAll. by rewrite !sortBy_perm. Qed.

Lemma elem_of_getAllBooks db b :
  b ∈ getAllBooks db ↔ ∃ k, db !! k = Some b.
Proof.
  rewrite getAllBooks_perm, list_elem_of_fmap. split.
  - intros ([k b'] & -> & Hin). exists k. by apply elem_of_map_to_list.
  - intros [k Hk]. exists (k, b). split; [done|]. by apply elem_of_map_to_list.
Qed.

Lemma elem_of_getAllBooks_wf db b :
  store_wf db → b ∈ getAllBooks db ↔ db !! id b = Some b.
Proof.
  intros Hwf. rewrite elem_of_getAllBooks. split; [|eauto].
  intros [k Hk]. by rewrite (Hwf _ _ Hk).
Qed.

Lemma getAllBooks_NoDup db : store_wf db → NoDup (id <$> getAllBooks db).
Proof.
  intros Hwf. rewrite getAllBooks_perm.
  assert (id <$> (map_to_list db).*2 = (map_to_list db).*1) as ->.
  { rewrite <- list_fmap_compose. apply Forall_fmap_ext, Forall_forall.
    intros [k b] Hin%elem_of_map_to_list. simpl. by apply Hwf. }
  apply NoDup_fst_map_to_list.
Qed.

(** A sequence of writes: the last write to a key is what the store holds. *)
Lemma foldl_updateBook_notin (ws : list Book) db k :
  k ∉ id <$> ws → foldl (λ d b, updateBook b d) db ws !! k = db !! k.
Proof.
  revert db. induction ws as [|w ws IH]; intros db; simpl; [done|].
  rewrite not_elem_of_cons. intros [Hne Hnotin]. rewrite IH by done.
  unfold updateBook, addBook. by rewrite lookup_insert_ne.
Qed.

Lemma foldl_updateBook_in (ws : list Book) db w :
  NoDup (id <$> ws) → w ∈ ws →
  foldl (λ d b, updateBook b d) db ws !! id w = Some w.
Proof.
  revert db. induction ws as [|w' ws IH]; intros db; simpl.
  - intros _ Hin. inversion Hin.
  - rewrite NoDup_cons. intros [Hnotin Hnd] [->|Hin]%elem_of_cons.
    + rewrite foldl_updateBook_notin by done.
      unfold updateBook, addBook. by rewrite lookup_insert_eq.
    + by apply IH.
Qed.
End StoreFacts.

(** C9.  For every record [r] and every store: after [put(r)], [listAll]
    contains [r] itself, and no other record with the id of [r]; after
    [delete(r.id)], [listAll] contains no record with the id of [r]; and
    putting [r] twice leaves the same store as putting it once. *)
Theorem store_put_delete_round_trip (r : Book) (db : Store) :
  store_wf db →
  r ∈ getAllBooks (addBook r db)
  ∧ (∀ b, b ∈ getAllBooks (addBook r db) → id b = id r → b = r)
  ∧ (∀ b, b ∈ getAllBooks (deleteBook (id r) db) → id b ≠ id r)
  ∧ (∀ b, b ∈ getAllBooks (deleteBook (id r) (addBook r db)) → id b ≠ id r)
  ∧ addBook r (addBook r db) = addBook r db.
Proof.
  intros Hwf. split_and!.
  - apply elem_of_getAllBooks. exists (id r).
    unfold addBook. by rewrite lookup_insert_eq.
  - intros b Hb Hid.
    apply elem_of_getAllBooks_wf in Hb; [|by apply store_wf_addBook].
    unfold addBook in Hb. rewrite Hid, lookup_insert_eq in Hb. congruence.
  - intros b Hb Hid.
    apply elem_of_getAllBooks_wf in Hb; [|by apply store_wf_deleteBook].
    unfold deleteBook in Hb. by rewrite Hid, lookup_delete_eq in Hb.
  - intros b Hb Hid.
    apply elem_of_getAllBooks_wf in Hb;
      [|by apply store_wf_deleteBook, store_wf_addBook].
    unfold deleteBook in Hb. by rewrite Hid, lookup_delete_eq in Hb.
  - unfold addBook. apply insert_insert_eq.
Qed.

Lemma sampleStore_wf : store_wf sampleStore.
Proof. unfold sampleStore. repeat apply store_wf_addBook. apply store_wf_empty. Defined.

Lemma store_put_delete_round_trip_witness :
  annotatedEmma ∈ getAllBooks (addBook annotatedEmma sampleStore)
  ∧ (∀ b, b ∈ getAllBooks (addBook annotatedEmma sampleStore) →
       id b = id annotatedEmma → b = annotatedEmma)
  ∧ (∀ b, b ∈ getAllBooks (deleteBook (id annotatedEmma) sampleStore) →
       id b ≠ id annotatedEmma)
  ∧ (∀ b, b ∈ getAllBooks
             (deleteBook (id annotatedEmma) (addBook annotatedEmma sampleStore)) →
       id b ≠ id annotatedEmma)
  ∧ addBook annotatedEmma (addBook annotatedEmma sampleStore)
    = addBook annotatedEmma sampleStore.
Proof.
  apply (store_put_delete_round_trip annotatedEmma sampleStore).
  apply sampleStore_wf.
Defined.

(** ** Bulk edit *)

Section ListFacts.
Context {A B : Type}.

Lemma NoDup_fmap_elem_inj (f : A → B) (l : list A) x y :
  NoDup (f <$> l) → x ∈ l → y ∈ l → f x = f y → x = y.
Proof.
  induction l as [|a l IH]; simpl; [by intros _ Hx; inversion Hx|].
  rewrite NoDup_cons. intros [Hnotin Hnd].
  intros [->|Hx]%elem_of_cons [->|Hy]%elem_of_cons Heq; auto.
  - exfalso. apply Hnotin. rewrite Heq. by apply list_elem_of_fmap_2.
  - exfalso. apply Hnotin. rewrite <- Heq. by apply list_elem_of_fmap_2.
Qed.

Lemma elem_of_concat (x : A) (ls : list (list A)) :
  x ∈ concat ls ↔ ∃ l, x ∈ l ∧ l ∈ ls.
Proof.
  induction ls as [|l' ls IH]; simpl.
  - split; [by intros H; inversion H|]. by intros (l & _ & H); inversion H.
  - rewrite elem_of_app, IH. split.
    + intros [Hx|(l & Hx & Hl)]; [exists l'; split; [done|left]|].
      exists l. split; [done|by right].
    + intros (l & Hx & [->|Hl]%elem_of_cons); [by left|right; eauto].
Qed.

Lemma submseteq_NoDup (l1 l2 : list A) : l1 ⊆+ l2 → NoDup l2 → NoDup l1.
Proof.
  intros [k Hk]%submseteq_Permutation. rewrite Hk.
  by intros [? _]%NoDup_app.
Qed.

Lemma concat_submseteq (l1 l2 : list (list A)) :
  l1 ⊆+ l2 → concat l1 ⊆+ concat l2.
Proof.
  induction 1 as [|x l1 l2 _ IH|x y l|x l1 l2 _ IH|l1 l2 l3 _ IH1 _ IH2]; simpl.
  - done.
  - by apply submseteq_skips_l.
  - apply Permutation_submseteq. rewrite !(assoc_L (++)).
    f_equiv. apply Permutation_app_comm.
  - by apply submseteq_inserts_l.
  - by etrans.
Qed.
End ListFacts.

Section BulkFacts.
Implicit Types (db : Store) (g : list Book) (groups : list (list Book)).

Lemma bulkApply_eq changes g db n :
  bulkApply changes g (db, n)
  = (foldl (λ d b, updateBook b d) db ((λ b, spread b changes) <$> g),
     n + Z.of_nat (length g)).
Proof.
  unfold bulkApply. revert db n.
  induction g as [|b g IH]; intros db n; simpl.
  - f_equal. lia.
  - rewrite IH. f_equal. lia.
Qed.

Lemma bulkLoop_eq data i groups db n :
  bulkLoop data i groups (db, n)
  = (foldl (λ d b, updateBook b d) db (bulkWrites data i groups),
     n + Z.of_nat (length (bulkWrites data i groups))).
Proof.
  revert i db n. induction groups as [|g rest IH]; intros i db n; simpl.
  - f_equal. lia.
  - rewrite foldl_app, length_app. case_bool_decide.
    + rewrite bulkApply_eq, IH, length_fmap. f_equal. lia.
    + rewrite IH. simpl. f_equal.
  Qed.

Lemma bulkWrites_ids data i groups :
  id <$> bulkWrites data i groups `sublist_of` id <$> concat groups.
Proof.
  revert i. induction groups as [|g rest IH]; intros i; simpl; [done|].
  rewrite !fmap_app. apply sublist_app; [|apply IH].
  case_bool_decide; [|apply sublist_nil_l].
  rewrite <- list_fmap_compose. done.
Qed.

Lemma elem_of_bulkWrites data i groups (j : nat) g b :
  groups !! j = Some g → b ∈ g →
  0 < Partial.keysLength (bulkChanges data (i + Z.of_nat j)) →
  spread b (bulkChanges data (i + Z.of_nat j)) ∈ bulkWrites data i groups.
Proof.
  revert i j. induction groups as [|g' rest IH]; intros i j; [done|].
  destruct j as [|j]; simpl.
  - intros [= ->] Hb Hk. replace (i + Z.of_nat 0) with i in * by lia.
    rewrite bool_decide_eq_true_2 by done.
    apply elem_of_app. left. apply list_elem_of_fmap. by exists b.
  - intros Hj Hb Hk. apply elem_of_app. right.
    replace (i + Z.of_nat (S j)) with (i + 1 + Z.of_nat j) in * by lia. by apply IH.
Qed.

Lemma bulkLoop_lookup_written data i groups db n (j : nat) g b :
  NoDup (id <$> concat groups) →
  groups !! j = Some g → b ∈ g →
  0 < Partial.keysLength (bulkChanges data (i + Z.of_nat j)) →
  (bulkLoop data i groups (db, n)).1 !! id b
  = Some (spread b (bulkChanges data (i + Z.of_nat j))).
Proof.
  intros Hnd Hj Hb Hk. rewrite bulkLoop_eq. simpl.
  change (id b) with (id (spread b (bulkChanges data (i + Z.of_nat j)))).
  apply foldl_updateBook_in; [|by eapply elem_of_bulkWrites].
  eapply sublist_NoDup; [done|apply bulkWrites_ids].
Qed.

Lemma bulkLoop_lookup_other data i groups db n k :
  k ∉ id <$> concat groups →
  (bulkLoop data i groups (db, n)).1 !! k = db !! k.
Proof.
  intros Hk. rewrite bulkLoop_eq. simpl.
  apply foldl_updateBook_notin. intros Hin. apply Hk.
  eapply elem_of_sublist; [done|apply bulkWrites_ids].
Qed.
End BulkFacts.

Section SelectionFacts.
Context (lc nc : string → string → Z).
Implicit Types (st : AppState).

Lemma selectedGroups_submseteq st :
  selectedGroups lc nc st ⊆+ groupedLibrary (books st).
Proof.
  unfold selectedGroups, visibleGroups.
  etrans; [apply sublist_submseteq, sublist_filter|].
  apply filteredAndSortedGroups_submseteq.
Qed.

Lemma selectedGroups_NoDup st :
  NoDup (id <$> books st) → NoDup (id <$> concat (selectedGroups lc nc st)).
Proof.
  intros Hnd. eapply submseteq_NoDup.
  - apply fmap_submseteq, concat_submseteq, selectedGroups_submseteq.
  - by rewrite groupedLibrary_perm.
Qed.

Lemma elem_of_selectedGroups st g :
  g ∈ selectedGroups lc nc st →
  g ∈ groupedLibrary (books st)
  ∧ ∃ r, head g = Some r ∧ id r ∈ selectedBookIds st.
Proof.
  intros Hg. split.
  - eapply elem_of_submseteq; [done|apply selectedGroups_submseteq].
  - apply list_elem_of_filter in Hg as [Hsel _].
    destruct g as [|r g]; [done|]. exists r. split; [done|].
    simpl in Hsel. by apply bool_decide_eq_true in Hsel.
Qed.
End SelectionFacts.

Lemma keysLength_group data i :
  BulkUpdateData.groupMode data ≠ BulkUpdateData.keep →
  0 < Partial.keysLength (bulkChanges data i).
Proof.
  destruct data as [gm ? ? sm ? im ? ? stm ?]. simpl. intros Hgm.
  unfold bulkChanges, Partial.keysLength. simpl.
  destruct gm, sm, im, stm; simpl; done.
Qed.

Lemma keysLength_series data i :
  BulkUpdateData.seriesMode data ≠ BulkUpdateData.keep →
  0 < Partial.keysLength (bulkChanges data i).
Proof.
  destruct data as [gm ? ? sm ? im ? ? stm ?]. simpl. intros Hsm.
  unfold bulkChanges, Partial.keysLength. simpl.
  destruct gm, sm, im, stm; simpl; done.
Qed.

Lemma bulkState_NoDup selected : NoDup (id <$> books (bulkState selected)).
Proof. solve_NoDup. Defined.

(** C1.  The program does not do what the claim says for the series
    family: after a bulk edit with series mode [clear], a member record
    of a selected group is stored with an empty [seriesTitle] but with the
    [seriesColor] it had.  (The group branch of the same handler does
    reset [groupColor]; see [bulk_clear_resets].) *)
Lemma bulk_series_clear_keeps_color :
  ¬ series_clear_resets_color refLocaleCompare refLocaleCompareNumeric
      (bulkState {["d1"]})
      (bulkData BulkUpdateData.keep BulkUpdateData.clear
         BulkUpdateData.index_keep 1)
      bulkStore.
Proof.
  intros Hclaim.
  destruct (Hclaim [duneEpub; dunePdf] duneEpub) as (b' & Hb' & _ & Hcolor).
  - apply (list_elem_of_lookup_2 _ 0%nat). vm_compute. reflexivity.
  - left.
  - vm_compute in Hb'. injection Hb' as <-. discriminate Hcolor.
Qed.

(** What mode [clear] does to every member record of every selected
    group.  The group branch resets [group] and its paired color, as
    claimed.  The series branch resets [seriesTitle] and [seriesIndex]
    only: the paired [seriesColor] is not reset, which is where the two
    branches of the handler differ. *)
Theorem bulk_clear_resets lc nc st data db g b :
  NoDup (id <$> books st) →
  g ∈ selectedGroups lc nc st → b ∈ g →
  (BulkUpdateData.groupMode data = BulkUpdateData.clear →
   ∃ b', (handleBulkSave lc nc st data db).1 !! id b = Some b'
         ∧ group b' = Some "" ∧ groupColor b' = None)
  ∧ (BulkUpdateData.seriesMode data = BulkUpdateData.clear →
     ∃ b', (handleBulkSave lc nc st data db).1 !! id b = Some b'
           ∧ seriesTitle b' = Some "" ∧ seriesIndex b' = Some ""
           ∧ seriesColor b' = seriesColor b).
Proof.
  intros Hnd [j Hj]%list_elem_of_lookup_1 Hb.
  apply (selectedGroups_NoDup lc nc) in Hnd.
  unfold handleBulkSave. split; intros Hmode.
  - rewrite (bulkLoop_lookup_written _ _ _ _ _ j g) by
      (try done; apply keysLength_group; by rewrite Hmode).
    eexists. split; [done|].
    unfold bulkChanges. rewrite Hmode.
    by destruct (BulkUpdateData.seriesMode data),
      (BulkUpdateData.seriesIndexMode data), (BulkUpdateData.statusMode data).
  - rewrite (bulkLoop_lookup_written _ _ _ _ _ j g) by
      (try done; apply keysLength_series; by rewrite Hmode).
    eexists. split; [done|].
    unfold bulkChanges. rewrite Hmode.
    by destruct (BulkUpdateData.groupMode data),
      (BulkUpdateData.statusMode data).
Qed.

Lemma bulk_clear_resets_witness :
  (BulkUpdateData.groupMode
     (bulkData BulkUpdateData.clear BulkUpdateData.clear BulkUpdateData.index_keep 1)
   = BulkUpdateData.clear →
   ∃ b', (handleBulkSave refLocaleCompare refLocaleCompareNumeric
            (bulkState {["d1"]})
            (bulkData BulkUpdateData.clear BulkUpdateData.clear
               BulkUpdateData.index_keep 1) bulkStore).1 !! id dunePdf = Some b'
         ∧ group b' = Some "" ∧ groupColor b' = None)
  ∧ (BulkUpdateData.seriesMode
       (bulkData BulkUpdateData.clear BulkUpdateData.clear BulkUpdateData.index_keep 1)
     = BulkUpdateData.clear →
     ∃ b', (handleBulkSave refLocaleCompare refLocaleCompareNumeric
              (bulkState {["d1"]})
              (bulkData BulkUpdateData.clear BulkUpdateData.clear
                 BulkUpdateData.index_keep 1) bulkStore).1 !! id dunePdf = Some b'
           ∧ seriesTitle b' = Some "" ∧ seriesIndex b' = Some ""
           ∧ seriesColor b' = seriesColor dunePdf).
Proof.
  apply (bulk_clear_resets refLocaleCompare refLocaleCompareNumeric
           (bulkState {["d1"]}) _ bulkStore [duneEpub; dunePdf] dunePdf).
  - apply bulkState_NoDup.
  - apply (list_elem_of_lookup_2 _ 0%nat). vm_compute. reflexivity.
  - right. left.
Defined.

Lemma safe_log2 n : Z.abs n < 2 ^ 53 → (Z.log2 (Z.abs n) - 52 <=? 0) = true.
Proof.
  intros Hn. apply Z.leb_le.
  destruct (decide (Z.abs n = 0)) as [->|Hne]; [done|].
  assert (Z.log2 (Z.abs n) < 53); [|lia].
  apply Z.log2_lt_pow2; lia.
Qed.

(** In the safe range the sum is exact and prints as its digits. *)
Lemma roundToNumber_safe n : Z.abs n < 2 ^ 53 → roundToNumber n = n.
Proof. intros Hn. unfold roundToNumber. by rewrite safe_log2. Qed.

Lemma toString_safe n : Z.abs n < 2 ^ 53 → toString n = decimal n.
Proof. intros Hn. unfold toString. by rewrite safe_log2. Qed.

Lemma toString_numberAdd_safe s i :
  - 2 ^ 53 < s → 0 <= i → s + i < 2 ^ 53 →
  toString (numberAdd s i) = decimal (s + i).
Proof.
  intros Hs Hi Hsi. unfold numberAdd.
  rewrite roundToNumber_safe by lia. apply toString_safe. lia.
Qed.

(** C2, as stated, fails: with the start value 2^53 the sum with the
    position 1 rounds back to 2^53, so that the groups at the positions 0
    and 1 both get "9007199254740992". *)
Lemma bulk_auto_index_repeats :
  ¬ auto_index_is_sum refLocaleCompare refLocaleCompareNumeric
      (bulkState {["d1"; "e1"]})
      (bulkData BulkUpdateData.keep BulkUpdateData.set BulkUpdateData.auto
         (2 ^ 53))
      bulkStore.
Proof.
  intros Hclaim.
  destruct (Hclaim 1%nat [emma] emma) as (b' & Hb' & Hidx).
  - vm_compute. reflexivity.
  - left.
  - vm_compute in Hb'. injection Hb' as <-. vm_compute in Hidx.
    discriminate Hidx.
Qed.

(** C2, amended.  For every bulk edit request with series mode [set] and
    index sub-mode [auto]: every variant of the group at 0-based position
    [i] of the selection is stored with [seriesIndex] equal to the string
    of the Number that the sum of the start value and [i] rounds to.  When
    the start value is above -2^53 and the sum is below 2^53, this is the
    decimal string of the start value plus [i].  With start value 5, the
    variants of the groups at positions 0, 1 and 2 get "5", "6" and
    "7". *)
Theorem bulk_auto_index lc nc st data db (i : nat) g b :
  NoDup (id <$> books st) →
  BulkUpdateData.seriesMode data = BulkUpdateData.set →
  BulkUpdateData.seriesIndexMode data = BulkUpdateData.auto →
  selectedGroups lc nc st !! i = Some g → b ∈ g →
  ∃ b', (handleBulkSave lc nc st data db).1 !! id b = Some b'
        ∧ seriesTitle b' = Some (BulkUpdateData.seriesTitle data)
        ∧ seriesIndex b'
          = Some (toString (numberAdd (BulkUpdateData.seriesIndexStart data)
                              (Z.of_nat i)))
        ∧ (- 2 ^ 53 < BulkUpdateData.seriesIndexStart data →
           BulkUpdateData.seriesIndexStart data + Z.of_nat i < 2 ^ 53 →
           seriesIndex b'
           = Some (decimal (BulkUpdateData.seriesIndexStart data + Z.of_nat i)))
        ∧ (BulkUpdateData.seriesIndexStart data = 5 →
           (i = 0%nat → seriesIndex b' = Some "5")
           ∧ (i = 1%nat → seriesIndex b' = Some "6")
           ∧ (i = 2%nat → seriesIndex b' = Some "7")).
Proof.
  intros Hnd Hmode Himode Hi Hb.
  apply (selectedGroups_NoDup lc nc) in Hnd.
  unfold handleBulkSave.
  rewrite (bulkLoop_lookup_written _ _ _ _ _ i g) by
    (try done; apply keysLength_series; by rewrite Hmode).
  eexists. split; [done|].
  assert (seriesIndex (spread b (bulkChanges data (0 + Z.of_nat i)))
          = Some (toString (numberAdd (BulkUpdateData.seriesIndexStart data)
                              (Z.of_nat i))))
    as Hidx.
  { unfold bulkChanges. rewrite Hmode, Himode.
    by destruct (BulkUpdateData.groupMode data),
      (BulkUpdateData.statusMode data). }
  split_and!; [|done| |].
  - unfold bulkChanges. rewrite Hmode, Himode.
    by destruct (BulkUpdateData.groupMode data),
      (BulkUpdateData.statusMode data).
  - intros Hlo Hhi. rewrite Hidx. f_equal.
    apply toString_numberAdd_safe; lia.
  - intros Hstart. rewrite Hidx, Hstart. by split_and!; intros ->.
Qed.

Lemma bulk_auto_index_witness :
  ∃ b', (handleBulkSave refLocaleCompare refLocaleCompareNumeric
           (bulkState {["d1"; "e1"]})
           (bulkData BulkUpdateData.keep BulkUpdateData.set BulkUpdateData.auto 5)
           bulkStore).1 !! id emma = Some b'
        ∧ seriesIndex b' = Some (decimal (5 + 1))
        ∧ seriesIndex b' = Some "6".
Proof.
  destruct (bulk_auto_index refLocaleCompare refLocaleCompareNumeric
              (bulkState {["d1"; "e1"]})
              (bulkData BulkUpdateData.keep BulkUpdateData.set
                 BulkUpdateData.auto 5)
              bulkStore 1 [emma] emma)
    as (b' & Hb' & _ & _ & Hsafe & Hfive).
  - apply bulkState_NoDup.
  - reflexivity.
  - reflexivity.
  - vm_compute. reflexivity.
  - left.
  - exists b'. split_and!; [done| |].
    + apply Hsafe; simpl; lia.
    + by apply Hfive.
Defined.

(** C10.  For every bulk edit request: every group of the batch has its
    first record's id in the selected id set; and every record of a group
    whose first record's id is not selected is stored after the operation
    exactly as before, whichever other ids of the group are selected. *)
Theorem bulk_selects_by_representative lc nc st data db :
  NoDup (id <$> books st) →
  (∀ g, g ∈ selectedGroups lc nc st →
        ∃ r, head g = Some r ∧ id r ∈ selectedBookIds st)
  ∧ (∀ g r b, g ∈ groupedLibrary (books st) → head g = Some r →
        id r ∉ selectedBookIds st → b ∈ g →
        (handleBulkSave lc nc st data db).1 !! id b = db !! id b).
Proof.
  intros Hnd. split.
  - intros g Hg. by apply elem_of_selectedGroups in Hg as [_ ?].
  - intros g r b Hg Hr Hnotsel Hb. unfold handleBulkSave.
    apply bulkLoop_lookup_other.
    intros (w & Hid & Hw)%list_elem_of_fmap.
    apply elem_of_concat in Hw as (g' & Hw & Hg').
    apply elem_of_selectedGroups in Hg' as (Hg' & r' & Hr' & Hsel).
    assert (b = w) as <-.
    { apply (NoDup_fmap_elem_inj id (books st)); [done| | |done].
      - rewrite <- groupedLibrary_perm. apply elem_of_concat. eauto.
      - rewrite <- groupedLibrary_perm. apply elem_of_concat. eauto. }
    apply elem_of_groupedLibrary in Hg as (_ & k & ->).
    apply elem_of_groupedLibrary in Hg' as (_ & k' & ->).
    apply list_elem_of_filter in Hb as [<- _].
    apply list_elem_of_filter in Hw as [<- _].
    congruence.
Qed.

Lemma bulk_selects_by_representative_witness :
  (∀ g, g ∈ selectedGroups refLocaleCompare refLocaleCompareNumeric
              (bulkState {["d2"; "e1"]}) →
        ∃ r, head g = Some r ∧ id r ∈ selectedBookIds (bulkState {["d2"; "e1"]}))
  ∧ (handleBulkSave refLocaleCompare refLocaleCompareNumeric
       (bulkState {["d2"; "e1"]})
       (bulkData BulkUpdateData.clear BulkUpdateData.clear
          BulkUpdateData.index_keep 1) bulkStore).1 !! id dunePdf
    = bulkStore !! id dunePdf.
Proof.
  destruct (bulk_selects_by_representative refLocaleCompare
              refLocaleCompareNumeric (bulkState {["d2"; "e1"]})
              (bulkData BulkUpdateData.clear BulkUpdateData.clear
                 BulkUpdateData.index_keep 1) bulkStore
              (bulkState_NoDup _)) as [Hsel Hframe].
  split; [exact Hsel|].
  apply (Hframe [duneEpub; dunePdf] duneEpub dunePdf).
  - apply (list_elem_of_lookup_2 _ 0%nat). vm_compute. reflexivity.
  - reflexivity.
  - vm_compute. intros H. repeat (apply elem_of_cons in H as [H|H]; [discriminate H|]).
    inversion H.
  - right. left.
Defined.

(** ** Grouping by identity *)

(** Two books of a library are variants of one group exactly when their
    keys are equal, and every group lists its variants in input order. *)
Lemma same_group_iff_same_key books b1 b2 :
  b1 ∈ books → b2 ∈ books →
  (∃ g, g ∈ groupedLibrary books ∧ b1 ∈ g ∧ b2 ∈ g) ↔ bookKey b1 = bookKey b2.
Proof.
  intros H1 H2. split.
  - intros (g & (_ & k & ->)%elem_of_groupedLibrary & Hb1 & Hb2).
    apply list_elem_of_filter in Hb1 as [<- _].
    by apply list_elem_of_filter in Hb2 as [<- _].
  - intros Hkey. exists (variantsOf (bookKey b1) books).
    assert (b1 ∈ variantsOf (bookKey b1) books) as Hin1
      by by apply list_elem_of_filter.
    split_and!; [|done|by apply list_elem_of_filter].
    apply elem_of_groupedLibrary. split; [|eauto].
    intros Hnil. rewrite Hnil in Hin1. inversion Hin1.
Qed.

(** C4.  The key joins the normalized title and author with "|", so a
    title "a|b" by "c" and a title "a" by "b|c" get the same key: the two
    records are put in one group although neither their normalized titles
    nor their normalized authors are equal. *)
Theorem groupedLibrary_key_collision :
  groupedLibrary [pipeInTitle; pipeInAuthor] = [[pipeInTitle; pipeInAuthor]]
  ∧ bookKey pipeInTitle = bookKey pipeInAuthor
  ∧ toLowerCase (trim (title pipeInTitle)) ≠ toLowerCase (trim (title pipeInAuthor))
  ∧ toLowerCase (trim (author pipeInTitle))
    ≠ toLowerCase (trim (author pipeInAuthor)).
Proof. split_and!; [vm_compute; reflexivity..|discriminate|discriminate]. Qed.

(** ** Group facets *)

Section Facets.
Implicit Types (books : list Book) (b : Book) (n : string).

Lemma facetStep_eq (m : JSMap.t Facet) b :
  facetStep m b
  = match group b with
    | Some g =>
        if nonBlank g
        then JSMap.set g
               {| color := orElse (groupColor b) (JSMap.get g m ≫= color);
                  count := from_option count 0 (JSMap.get g m) + 1 |} m
        else m
    | None => m
    end.
Proof. done. Qed.

Lemma facetMap_snoc books b :
  facetMap (books ++ [b]) = facetStep (facetMap books) b.
Proof. unfold facetMap. by rewrite foldl_app. Qed.

Lemma members_snoc n books b :
  members n (books ++ [b])
  = members n books ++ (if decide (group b = Some n) then [b] else []).
Proof. unfold members. rewrite filter_app. f_equal. Qed.

Lemma members_snoc_other n books b :
  group b ≠ Some n → members n (books ++ [b]) = members n books.
Proof.
  intros Hne. rewrite members_snoc, decide_False by done.
  by rewrite (right_id_L [] (++)).
Qed.

Lemma mostRecentColor_snoc_other n books b :
  group b ≠ Some n → mostRecentColor n (books ++ [b]) = mostRecentColor n books.
Proof. intros Hne. unfold mostRecentColor. by rewrite members_snoc_other. Qed.

Lemma mostRecentColor_snoc n books b :
  group b = Some n →
  mostRecentColor n (books ++ [b])
  = orElse (groupColor b) (mostRecentColor n books).
Proof.
  intros Hg. unfold mostRecentColor. rewrite members_snoc.
  rewrite decide_True by done. rewrite fmap_app, filter_app. simpl.
  rewrite filter_cons, filter_nil. unfold orElse.
  case_decide as Ht.
  - rewrite Ht. by rewrite last_snoc.
  - rewrite (right_id_L [] (++)). by destruct (truthy (groupColor b)).
Qed.

Lemma key_is_Some {V} n (m : JSMap.t V) :
  n ∈ JSMap.keys m → is_Some (JSMap.get n m).
Proof.
  intros Hn. destruct (JSMap.get n m) eqn:Hg; [done|].
  by apply get_None in Hg.
Qed.

Lemma facetMap_spec books :
  NoDup (JSMap.keys (facetMap books))
  ∧ (∀ n, JSMap.get n (facetMap books)
          = if nonBlank n && bool_decide (members n books ≠ [])
            then Some {| color := mostRecentColor n books;
                         count := Z.of_nat (length (members n books)) |}
            else None)
  ∧ (∀ n1 n2, precedes (JSMap.keys (facetMap books)) n1 n2 →
              discovered_before books n1 n2).
Proof.
  induction books as [|b books IH] using rev_ind.
  { split_and!; [apply NoDup_nil_2| |].
    - intros n. simpl. by rewrite andb_false_r.
    - intros n1 n2 H'. by apply precedes_nil in H'. }
  destruct IH as (Hnd & Hget & Hord).
  assert (∀ n1 n2, discovered_before books n1 n2 →
                   discovered_before (books ++ [b]) n1 n2) as Hlift.
  { intros n1 n2 (i & b1 & Hi & Hg1 & Hall). exists i, b1.
    split_and!; [by apply lookup_app_l_Some|done|].
    intros j b2 Hj Hg2. apply lookup_lt_Some in Hi as Hlt.
    destruct (decide (j < length books)%nat) as [Hjl|Hjl].
    - rewrite lookup_app_l in Hj by done. eauto.
    - lia. }
  rewrite facetMap_snoc, facetStep_eq.
  destruct (group b) as [g|] eqn:Hgb; [destruct (nonBlank g) eqn:Hnb|].
  - (* a record with a usable group name *)
    split_and!.
    + by apply keys_set_NoDup.
    + intros n. destruct (decide (n = g)) as [->|Hne].
      * rewrite members_snoc.
        rewrite get_set_eq, Hget, Hnb, decide_True by done. simpl.
        rewrite (bool_decide_eq_true_2 (members g books ++ [b] ≠ []))
          by by destruct (members g books).
        f_equal. rewrite mostRecentColor_snoc by done.
        rewrite length_app. simpl.
        case_bool_decide as Hm; simpl.
        -- f_equal. lia.
        -- unfold mostRecentColor. rewrite Hm. done.
      * rewrite get_set_ne, Hget by done.
        by rewrite members_snoc_other, mostRecentColor_snoc_other by congruence.
    + intros n1 n2 [Hold|(-> & Hnone & Hin)]%precedes_keys_set; [auto|].
      apply key_is_Some in Hin as [f Hf]. rewrite Hget in Hf.
      rewrite Hget, Hnb in Hnone. simpl in Hnone.
      assert (members g books = []) as Hm.
      { destruct (decide (members g books = [])) as [|Hm]; [done|].
        by rewrite bool_decide_eq_true_2 in Hnone. }
      assert (members n1 books ≠ []) as Hn1.
      { intros Hn1. rewrite (bool_decide_eq_false_2 (members n1 books ≠ [])) in Hf
          by (intros H'; by apply H').
        by rewrite andb_false_r in Hf. }
      destruct (members n1 books) as [|b1 l] eqn:Hm1; [done|].
      assert (b1 ∈ members n1 books) as Hb1 by (rewrite Hm1; left).
      apply list_elem_of_filter in Hb1 as [Hg1 [i Hi]%list_elem_of_lookup_1].
      exists i, b1. split_and!; [by apply lookup_app_l_Some|done|].
      intros j b2 Hj Hg2. apply lookup_lt_Some in Hi as Hlt.
      destruct (decide (j < length books)%nat) as [Hjl|Hjl]; [|lia].
      rewrite lookup_app_l in Hj by done.
      assert (b2 ∈ members g books) as Hb2.
      { apply list_elem_of_filter. split; [done|].
        by eapply list_elem_of_lookup_2. }
      rewrite Hm in Hb2. inversion Hb2.
  - (* a blank group name is skipped *)
    split_and!; [done| |auto].
    intros n. rewrite Hget.
    destruct (decide (n = g)) as [->|Hne]; [by rewrite Hnb|].
    by rewrite members_snoc_other, mostRecentColor_snoc_other by congruence.
  - (* no group *)
    split_and!; [done| |auto].
    intros n. rewrite Hget.
    by rewrite members_snoc_other, mostRecentColor_snoc_other by congruence.
Qed.
End Facets.

(** C8, as stated, fails: a group name made of white space is non-empty
    and gets no entry. *)
Lemma blank_group_has_no_facet :
  ¬ facet_for_every_nonempty_group
      [inGroup " " (Some "#ef4444") (sampleBook "s" "Emma" "Jane Austen" 1)].
Proof.
  intros Hclaim.
  specialize (Hclaim
    (inGroup " " (Some "#ef4444") (sampleBook "s" "Emma" "Jane Austen" 1)) " ").
  assert (" " ∈ (uniqueGroups
    [inGroup " " (Some "#ef4444") (sampleBook "s" "Emma" "Jane Austen" 1)]).*1)
    as Hin.
  { apply Hclaim; [left|reflexivity|discriminate]. }
  vm_compute in Hin. inversion Hin.
Qed.

(** C8, amended.  For every record set, [uniqueGroups] returns exactly one
    entry per distinct [group] value that is not blank (non-empty after
    trimming); the entry carries the number of records with that value and
    the last non-empty [groupColor] met among them (none if there is
    none); the entries are ordered by count descending, and entries with
    equal counts are in discovery order. *)
Theorem uniqueGroups_facets books :
  NoDup (uniqueGroups books).*1
  ∧ (∀ n f, (n, f) ∈ uniqueGroups books ↔
        nonBlank n = true ∧ members n books ≠ []
        ∧ f = {| color := mostRecentColor n books;
                 count := Z.of_nat (length (members n books)) |})
  ∧ (∀ e1 e2, precedes (uniqueGroups books) e1 e2 →
        count e2.2 <= count e1.2
        ∧ (count e1.2 = count e2.2 → discovered_before books e1.1 e2.1)).
Proof.
  destruct (facetMap_spec books) as (Hnd & Hget & Hord).
  unfold uniqueGroups, JSMap.entries. split_and!.
  - by rewrite sortBy_perm.
  - intros n f. rewrite elem_of_sortBy. split.
    + intros Hin%elem_of_get; [|done]. rewrite Hget in Hin.
      destruct (nonBlank n); simpl in Hin; [|done].
      case_bool_decide; [|done]. by injection Hin as <-.
    + intros (Hnb & Hm & ->). apply get_Some_elem_of.
      by rewrite Hget, Hnb, bool_decide_eq_true_2.
  - intros e1 e2 Hprec.
    assert (Consistent (λ _ : string * Facet, True)
              (λ a b, count b.2 - count a.2)) as Hcons.
    { split; intros; lia. }
    split.
    + apply (sortBy_ordered _ (λ _, True)) in Hprec;
        [lia|done|by apply Forall_true].
    + intros Heq. apply sortBy_stable in Hprec; [|lia].
      apply Hord. unfold JSMap.keys. by apply precedes_fmap.
Qed.

Lemma uniqueGroups_facets_witness :
  ("Sci-Fi", {| color := Some "#10b981"; count := 2 |})
  ∈ uniqueGroups [duneEpub; emma; dunePdf].
Proof.
  destruct (uniqueGroups_facets [duneEpub; emma; dunePdf]) as (_ & Hentry & _).
  apply Hentry. split_and!; [reflexivity|discriminate|reflexivity].
Defined.

(** ** Color propagation *)

Section Propagation.
Implicit Types (books : list Book) (u b w : Book) (db : Store).

Lemma elem_of_groupUpdates books u w :
  w ∈ groupUpdates books u
  ↔ ∃ b, b ∈ books ∧ groupTarget u b ∧ w = withGroupColor (groupColor u) b.
Proof.
  unfold groupUpdates, groupTarget, nonBlankO.
  destruct (group u) as [g|] eqn:Hg.
  2:{ split; [by intros H; inversion H|]. by intros (b & _ & (? & _) & _). }
  change (truthyS g && negb (bool_decide (trim g = ""))) with (nonBlank g).
  destruct (nonBlank g).
  2:{ split; [by intros H; inversion H|]. by intros (b & _ & (? & _) & _). }
  destruct (truthy (groupColor u)).
  2:{ rewrite andb_false_r.
      split; [by intros H; inversion H|]. by intros (b & _ & (_ & ? & _) & _). }
  rewrite andb_true_r. case_bool_decide as Hlen.
  - rewrite list_elem_of_fmap. split.
    + intros (b & -> & Hb). apply list_elem_of_filter in Hb as [Hc Hb].
      apply list_elem_of_filter in Hb as [[Hgb Hid] Hb]. by exists b.
    + intros (b & Hb & (_ & _ & Hgb & Hid & Hc) & ->). exists b.
      split; [done|]. by rewrite !list_elem_of_filter.
  - split; [by intros H; inversion H|].
    intros (b & Hb & (_ & _ & Hgb & Hid & Hc) & _). exfalso. apply Hlen.
    assert (b ∈ filter (λ b0, group b0 = Some g ∧ id b0 ≠ id u) books) as Hin
      by by apply list_elem_of_filter.
    destruct (filter _ books); [inversion Hin|simpl; lia].
Qed.

Lemma elem_of_seriesUpdates books u w :
  w ∈ seriesUpdates books u
  ↔ ∃ b, b ∈ books ∧ seriesTarget u b ∧ w = withSeriesColor (seriesColor u) b.
Proof.
  unfold seriesUpdates, seriesTarget, nonBlankO.
  destruct (seriesTitle u) as [t|] eqn:Ht.
  2:{ split; [by intros H; inversion H|]. by intros (b & _ & (? & _) & _). }
  change (truthyS t && negb (bool_decide (trim t = ""))) with (nonBlank t).
  destruct (nonBlank t).
  2:{ split; [by intros H; inversion H|]. by intros (b & _ & (? & _) & _). }
  destruct (truthy (seriesColor u)).
  2:{ rewrite andb_false_r.
      split; [by intros H; inversion H|]. by intros (b & _ & (_ & ? & _) & _). }
  rewrite andb_true_r. case_bool_decide as Hlen.
  - rewrite list_elem_of_fmap. split.
    + intros (b & -> & Hb). apply list_elem_of_filter in Hb as [Hc Hb].
      apply list_elem_of_filter in Hb as [[Hgb Hid] Hb]. by exists b.
    + intros (b & Hb & (_ & _ & Hgb & Hid & Hc) & ->). exists b.
      split; [done|]. by rewrite !list_elem_of_filter.
  - split; [by intros H; inversion H|].
    intros (b & Hb & (_ & _ & Hgb & Hid & Hc) & _). exfalso. apply Hlen.
    assert (b ∈ filter (λ b0, seriesTitle b0 = Some t ∧ id b0 ≠ id u) books)
      as Hin by by apply list_elem_of_filter.
    destruct (filter _ books); [inversion Hin|simpl; lia].
Qed.

Lemma fmap_filter_ids_NoDup (f : Book → Book) (P : Book → Prop)
    `{!∀ b, Decision (P b)} books :
  (∀ b, id (f b) = id b) → NoDup (id <$> books) →
  NoDup (id <$> (f <$> filter P books)).
Proof.
  intros Hf Hnd. rewrite <- list_fmap_compose.
  rewrite (list_fmap_ext (id ∘ f) id (filter P books)) by (intros; apply Hf).
  eapply sublist_NoDup; [done|]. apply fmap_sublist, sublist_filter.
Qed.

Lemma groupUpdates_NoDup books u :
  NoDup (id <$> books) → NoDup (id <$> groupUpdates books u).
Proof.
  intros Hnd. unfold groupUpdates.
  repeat first [case_match | apply NoDup_nil_2]; try apply NoDup_nil_2.
  rewrite list_filter_filter. by apply fmap_filter_ids_NoDup.
Qed.

Lemma seriesUpdates_NoDup books u :
  NoDup (id <$> books) → NoDup (id <$> seriesUpdates books u).
Proof.
  intros Hnd. unfold seriesUpdates.
  repeat first [case_match | apply NoDup_nil_2]; try apply NoDup_nil_2.
  rewrite list_filter_filter. by apply fmap_filter_ids_NoDup.
Qed.
End Propagation.

(** C3, as stated, fails: a [group] made of white space is non-empty, and
    its color is not propagated. *)
Lemma blank_group_color_not_propagated :
  ¬ group_color_propagates (addBook blankA (addBook blankB ∅))
      (inGroup " " (Some "#00ff00") blankA).
Proof.
  intros Hclaim.
  destruct (Hclaim blankB " ") as (b' & Hb' & Hcolor);
    [reflexivity|discriminate|reflexivity|discriminate|reflexivity
    |reflexivity|discriminate|].
  vm_compute in Hb'. injection Hb' as <-. discriminate Hcolor.
Qed.

(** C3, amended.  For every single-record edit of a record [u] whose
    [group] is not blank (non-empty after trimming) and whose [groupColor]
    is a non-empty string: every other stored record with that exact
    [group] and a different [groupColor], unless the same edit also
    rewrites its series color, is stored with the [groupColor] of [u] and
    is otherwise unchanged.  For every edit of a record whose
    [seriesTitle] is not blank and whose [seriesColor] is a non-empty
    string: every other stored record with that exact [seriesTitle] and a
    different [seriesColor] is stored with the [seriesColor] of [u]. *)
Theorem color_propagation (db : Store) (u b : Book) :
  store_wf db → db !! id b = Some b →
  (groupTarget u b → ¬ seriesTarget u b →
   handleUpdateBook (getAllBooks db) u db !! id b
   = Some (withGroupColor (groupColor u) b))
  ∧ (seriesTarget u b →
     ∃ b', handleUpdateBook (getAllBooks db) u db !! id b = Some b'
           ∧ seriesColor b' = seriesColor u).
Proof.
  intros Hwf Hb.
  pose proof (getAllBooks_NoDup db Hwf) as Hnd.
  assert (b ∈ getAllBooks db) as Hin by by apply elem_of_getAllBooks_wf.
  unfold handleUpdateBook. rewrite foldl_app. split.
  - intros Hg Hns. rewrite foldl_updateBook_notin.
    + change (id b) with (id (withGroupColor (groupColor u) b)).
      apply foldl_updateBook_in; [by apply groupUpdates_NoDup|].
      apply elem_of_groupUpdates. by exists b.
    + intros (w & Hid & Hw)%list_elem_of_fmap.
      apply elem_of_seriesUpdates in Hw as (b0 & Hb0 & Ht & ->).
      assert (b = b0) as <-; [|done].
      by apply (NoDup_fmap_elem_inj id (getAllBooks db)).
  - intros Hs. exists (withSeriesColor (seriesColor u) b). split; [|done].
    change (id b) with (id (withSeriesColor (seriesColor u) b)).
    apply foldl_updateBook_in; [by apply seriesUpdates_NoDup|].
    apply elem_of_seriesUpdates. by exists b.
Qed.

Lemma scifiStore_wf : store_wf scifiStore.
Proof. unfold scifiStore. repeat apply store_wf_addBook. apply store_wf_empty. Defined.

Lemma color_propagation_witness :
  handleUpdateBook (getAllBooks scifiStore)
    (inGroup "Sci-Fi" (Some "#00ff00") scifiA) scifiStore !! id scifiB
  = Some (withGroupColor (groupColor (inGroup "Sci-Fi" (Some "#00ff00") scifiA))
            scifiB).
Proof.
  destruct (color_propagation scifiStore
              (inGroup "Sci-Fi" (Some "#00ff00") scifiA) scifiB scifiStore_wf)
    as [Hgroup _]; [reflexivity|].
  apply Hgroup.
  - unfold groupTarget. split_and!; [reflexivity|reflexivity|reflexivity
                                    |discriminate|discriminate].
  - intros (Hblank & _). discriminate Hblank.
Defined.

(** When a record shares both the group and the series of the edited
    record, the two propagation writes are both built from the record as
    loaded, and the second one restores the old group color. *)
Lemma propagation_lost_update :
  (groupColor <$>
   handleUpdateBook (getAllBooks (addBook bothA (addBook bothB ∅)))
    (inSeries "Saga" "1" (Some "#00ffff") (inGroup "Sci-Fi" (Some "#00ff00") bothA))
    (addBook bothA (addBook bothB ∅)) !! id bothB)
  = Some (Some "#ff0000").
Proof. vm_compute. reflexivity. Qed.

(** * Further properties of the engine *)

(** ** More on sorting *)

Section SortUnique.
Context {A : Type} (cmp : A → A → Z) (Q : A → Prop).
Context (HC : Consistent Q cmp).
Implicit Types (l s : list A) (x y a : A).

Lemma insertBy_front a s :
  (∀ w, head s = Some w → cmp a w <= 0) → insertBy cmp a s = a :: s.
Proof.
  destruct s as [|y s]; simpl; [done|].
  intros Hw. by rewrite bool_decide_eq_true_2 by by apply Hw.
Qed.

Lemma filter_insertBy (P : A → Prop) `{!∀ x, Decision (P x)} a s :
  Q a → Forall Q s → (∀ x y, precedes s x y → cmp x y <= 0) →
  filter P (insertBy cmp a s)
  = if decide (P a) then insertBy cmp a (filter P s) else filter P s.
Proof.
  intros Ha. induction s as [|y s IH]; intros HQ Hord.
  - simpl. rewrite filter_cons, filter_nil. by case_decide.
  - apply Forall_cons in HQ as [Hy HQ]. simpl. case_bool_decide as Hc.
    + rewrite filter_cons. case_decide as HPa; [|done].
      rewrite insertBy_front; [done|].
      intros w Hw. rewrite filter_cons in Hw.
      destruct (decide (P y)); simpl in Hw; [by injection Hw as <-|].
      assert (w ∈ filter P s) as [_ Hws]%list_elem_of_filter
        by (destruct (filter P s); simplify_eq/=; left).
      apply (cmp_trans a y w); [done..| |done|].
      * by eapply Forall_forall in HQ.
      * apply Hord. apply precedes_cons. by left.
    + rewrite (filter_cons _ y (insertBy cmp a s)), (filter_cons _ y s).
      rewrite IH; [|done|].
      2:{ intros x z Hxz. apply Hord. apply precedes_cons. by right. }
      destruct (decide (P a)), (decide (P y)); simpl; try done.
      by rewrite bool_decide_eq_false_2.
Qed.

Lemma sortBy_ordered_all l x y :
  Forall Q l → precedes (sortBy cmp l) x y → cmp x y <= 0.
Proof. intros. by eapply sortBy_ordered. Qed.

(** Filtering a sorted list is sorting the filtered list. *)
Lemma filter_sortBy (P : A → Prop) `{!∀ x, Decision (P x)} l :
  Forall Q l → filter P (sortBy cmp l) = sortBy cmp (filter P l).
Proof.
  induction l as [|a l IH]; [done|]. intros [Ha HQ]%Forall_cons.
  simpl. fold (sortBy cmp l). rewrite filter_insertBy; [|done| |].
  - rewrite filter_cons. case_decide; [|by apply IH].
    simpl. fold (sortBy cmp (filter P l)). by rewrite IH.
  - apply Forall_forall. intros x Hx. apply (elem_of_sortBy cmp l x) in Hx.
    by eapply Forall_forall in HQ.
  - intros x y. by apply sortBy_ordered_all.
Qed.

(** Two ordered arrangements of the same values, none of which tie, are
    the same list. *)
Lemma ordered_perm_unique s1 s2 :
  s1 ≡ₚ s2 →
  (∀ x y, x ∈ s1 → y ∈ s1 → cmp x y <= 0 → cmp y x <= 0 → x = y) →
  (∀ x y, precedes s1 x y → cmp x y <= 0) →
  (∀ x y, precedes s2 x y → cmp x y <= 0) →
  s1 = s2.
Proof.
  revert s2. induction s1 as [|a s1 IH]; intros s2 Hperm Hanti H1 H2.
  - by apply Permutation_nil_l in Hperm.
  - destruct s2 as [|b s2]; [by apply Permutation_nil_r in Hperm|].
    assert (a = b) as <-.
    { assert (a ∈ b :: s2) as [?|Ha]%elem_of_cons by (rewrite <- Hperm; left);
        [done|].
      assert (b ∈ a :: s1) as [?|Hb]%elem_of_cons by (rewrite Hperm; left);
        [done|].
      apply Hanti; [left|by right| |].
      - apply H1. apply precedes_cons. by left.
      - apply H2. apply precedes_cons. by left. }
    f_equal. apply IH.
    + by apply Permutation_cons_inv in Hperm.
    + intros x y Hx Hy. apply Hanti; by right.
    + intros x y Hxy. apply H1. apply precedes_cons. by right.
    + intros x y Hxy. apply H2. apply precedes_cons. by right.
Qed.

Lemma sortBy_perm_unique l1 l2 :
  l1 ≡ₚ l2 → Forall Q l1 →
  (∀ x y, x ∈ l1 → y ∈ l1 → cmp x y <= 0 → cmp y x <= 0 → x = y) →
  sortBy cmp l1 = sortBy cmp l2.
Proof.
  intros Hperm HQ Hanti. apply ordered_perm_unique.
  - by rewrite !sortBy_perm.
  - intros x y Hx Hy. apply Hanti; by apply (elem_of_sortBy cmp l1).
  - intros x y. by apply sortBy_ordered_all.
  - intros x y. apply sortBy_ordered_all. by rewrite <- Hperm.
Qed.
End SortUnique.

(** ** Listing the store *)

Lemma keyCompare_consistent : Consistent (λ _, True) keyCompare.
Proof.
  apply (consistent_contramap (λ b, codeUnits (id b)) _ (λ _, True)); [done|].
  apply lexCompare_consistent.
Qed.

Lemma addedAt_desc_consistent :
  Consistent (λ _ : Book, True) (λ a b, addedAt b - addedAt a).
Proof. split; intros; lia. Qed.

Lemma keyCompare_tie a b : keyCompare a b <= 0 → keyCompare b a <= 0 → id a = id b.
Proof.
  intros H1 H2. apply codeUnits_inj, lexCompare_eq.
  destruct keyCompare_consistent as [Hanti _]. specialize (Hanti a b I I).
  unfold keyCompare in *. lia.
Qed.

(** X1.  [getAllBooks] returns every stored record and nothing else, as
    many records as the store holds, most recently added first; records
    added at the same time are in the order of their keys. *)
Theorem getAllBooks_complete_and_ordered (db : Store) :
  (∀ b, b ∈ getAllBooks db ↔ ∃ k, db !! k = Some b)
  ∧ length (getAllBooks db) = size db
  ∧ (∀ a b, precedes (getAllBooks db) a b →
       addedAt b <= addedAt a
       ∧ (addedAt a = addedAt b →
          lexCompare (codeUnits (id a)) (codeUnits (id b)) <= 0)).
Proof.
  split_and!.
  - apply elem_of_getAllBooks.
  - rewrite getAllBooks_perm, length_fmap. apply length_map_to_list.
  - intros a b Hprec. split.
    + apply (sortBy_ordered _ (λ _, True)) in Hprec;
        [lia|apply addedAt_desc_consistent|by apply Forall_true].
    + intros Heq. unfold getAllBooks in Hprec.
      apply sortBy_stable in Hprec; [|lia].
      apply (sortBy_ordered _ (λ _, True)) in Hprec;
        [done|apply keyCompare_consistent|by apply Forall_true].
Qed.

Lemma getAllBooks_complete_and_ordered_witness :
  addedAt (sampleBook "c" "Emma" "Jane Austen" 300)
  <= addedAt (sampleBook "b" "Dune" "Frank Herbert" 500)
  ∧ (addedAt (sampleBook "b" "Dune" "Frank Herbert" 500)
     = addedAt (sampleBook "c" "Emma" "Jane Austen" 300) →
     lexCompare (codeUnits (id (sampleBook "b" "Dune" "Frank Herbert" 500)))
       (codeUnits (id (sampleBook "c" "Emma" "Jane Austen" 300))) <= 0).
Proof.
  destruct (getAllBooks_complete_and_ordered sampleStore) as (_ & _ & Hord).
  apply Hord. exists 0%nat, 1%nat.
  split_and!; [lia|vm_compute; reflexivity..].
Defined.

(** ** Deleting one record *)

Lemma values_NoDup (db : Store) : store_wf db → NoDup (map_to_list db).*2.
Proof.
  intros Hwf. apply (NoDup_fmap_1 id).
  assert (id <$> (map_to_list db).*2 = (map_to_list db).*1) as ->.
  { rewrite <- list_fmap_compose. apply Forall_fmap_ext, Forall_forall.
    intros [k b] Hin%elem_of_map_to_list. simpl. by apply Hwf. }
  apply NoDup_fst_map_to_list.
Qed.

Lemma values_delete_perm (db : Store) k :
  store_wf db →
  (map_to_list (deleteBook k db)).*2 ≡ₚ filter (λ b, id b ≠ k) (map_to_list db).*2.
Proof.
  intros Hwf. apply NoDup_Permutation.
  - by apply values_NoDup, store_wf_deleteBook.
  - by apply NoDup_filter, values_NoDup.
  - intros b. rewrite list_elem_of_filter, !list_elem_of_fmap. split.
    + intros ([k' b'] & -> & Hin%elem_of_map_to_list). simpl.
      unfold deleteBook in Hin. apply lookup_delete_Some in Hin as [Hne Hin].
      split; [by rewrite (Hwf _ _ Hin)|].
      exists (k', b'). split; [done|]. by apply elem_of_map_to_list.
    + intros (Hne & [k' b'] & -> & Hin%elem_of_map_to_list). simpl in *.
      exists (k', b'). split; [done|]. apply elem_of_map_to_list.
      unfold deleteBook. apply lookup_delete_Some. split; [|done].
      by rewrite <- (Hwf _ _ Hin).
Qed.

(** X2.  After [handleDelete(id)] on a library that shows the store, the
    optimistically updated list is exactly what [getAllBooks] returns from
    the store after the delete; the detail view is closed exactly when it
    showed the deleted record; deleting an id that is not stored changes
    neither. *)
Theorem handleDelete_matches_refetch (db : Store) (k : string)
    (selectedBook : option Book) :
  store_wf db →
  (handleDelete k (getAllBooks db) selectedBook db).1.1
  = getAllBooks (handleDelete k (getAllBooks db) selectedBook db).2
  ∧ ((handleDelete k (getAllBooks db) selectedBook db).1.2 = None
     ↔ selectedBook = None ∨ ∃ sel, selectedBook = Some sel ∧ id sel = k)
  ∧ (db !! k = None →
     (handleDelete k (getAllBooks db) selectedBook db).2 = db
     ∧ (handleDelete k (getAllBooks db) selectedBook db).1.1 = getAllBooks db).
Proof.
  intros Hwf.
  assert (filter (λ b, id b ≠ k) (getAllBooks db) = getAllBooks (deleteBook k db))
    as Hmain.
  { unfold getAllBooks, getAll.
    rewrite (filter_sortBy _ (λ _, True) addedAt_desc_consistent)
      by by apply Forall_true.
    rewrite (filter_sortBy _ (λ _, True) keyCompare_consistent)
      by by apply Forall_true.
    f_equal. symmetry.
    apply (sortBy_perm_unique _ (λ _, True) keyCompare_consistent);
      [by apply values_delete_perm|by apply Forall_true|].
    intros x y Hx Hy Hxy Hyx. pose proof (keyCompare_tie x y Hxy Hyx) as Hid.
    apply list_elem_of_fmap in Hx as ([kx x'] & -> & Hx%elem_of_map_to_list).
    apply list_elem_of_fmap in Hy as ([ky y'] & -> & Hy%elem_of_map_to_list).
    simpl in *. pose proof (store_wf_deleteBook k db Hwf) as Hwf'.
    pose proof (Hwf' _ _ Hx) as Hkx. pose proof (Hwf' _ _ Hy) as Hky.
    assert (kx = ky) as -> by congruence. congruence. }
  unfold handleDelete. simpl. split_and!.
  - done.
  - destruct selectedBook as [sel|]; [|by split; [left|]].
    case_bool_decide; split; try done.
    + intros _. right. eauto.
    + intros [?|(sel' & [= <-] & ?)]; done.
  - intros Hk. assert (deleteBook k db = db) as Hdb
      by by apply delete_id.
    split; [done|]. by rewrite Hmain, Hdb.
Qed.

Lemma handleDelete_matches_refetch_witness :
  (handleDelete "c" (getAllBooks sampleStore) (Some annotatedEmma) sampleStore).1.1
  = getAllBooks
      (handleDelete "c" (getAllBooks sampleStore) (Some annotatedEmma) sampleStore).2.
Proof.
  apply (handleDelete_matches_refetch sampleStore "c" (Some annotatedEmma)).
  apply sampleStore_wf.
Defined.

(** ** Deleting the selection *)

Section BulkDelete.
Implicit Types (books : list Book) (gl : list (list Book)) (k : string).

Lemma findGroupOf_Some gl k g :
  findGroupOf gl k = Some g → g ∈ gl ∧ ∃ b, b ∈ g ∧ id b = k.
Proof.
  unfold findGroupOf. intros ([i g'] & Hfind & ->)%fmap_Some.
  apply list_find_Some in Hfind as (Hi & Hex & _). simpl.
  split; [by eapply list_elem_of_lookup_2|]. by apply Exists_exists in Hex.
Qed.

Lemma findGroupOf_None gl k g b :
  findGroupOf gl k = None → g ∈ gl → b ∈ g → id b ≠ k.
Proof.
  unfold findGroupOf. intros Hnone%fmap_None Hg Hb Hid.
  apply list_find_None in Hnone. eapply Forall_forall in Hnone; [|done].
  apply Hnone, Exists_exists. eauto.
Qed.

(** With distinct ids, the group found for the id of a book of the
    library is the group of that book. *)
Lemma findGroupOf_variants books b :
  NoDup (id <$> books) → b ∈ books →
  findGroupOf (groupedLibrary books) (id b)
  = Some (variantsOf (bookKey b) books).
Proof.
  intros Hnd Hb.
  assert (b ∈ variantsOf (bookKey b) books) as Hbv by by apply list_elem_of_filter.
  assert (variantsOf (bookKey b) books ∈ groupedLibrary books) as Hg.
  { apply elem_of_groupedLibrary. split; [|eauto].
    intros Hnil. rewrite Hnil in Hbv. inversion Hbv. }
  destruct (findGroupOf (groupedLibrary books) (id b)) as [g|] eqn:Hfind.
  - apply findGroupOf_Some in Hfind as (Hgl & b0 & Hb0 & Hid).
    apply elem_of_groupedLibrary in Hgl as (_ & k0 & ->).
    assert (b0 = b) as ->.
    { apply (NoDup_fmap_elem_inj id books); [done| |done..].
      by apply list_elem_of_filter in Hb0 as [_ ?]. }
    by apply list_elem_of_filter in Hb0 as [<- _].
  - by destruct (findGroupOf_None _ _ _ _ Hfind Hg Hbv).
Qed.

Lemma foldl_deleteBook_lookup (l : list string) (db : Store) k :
  foldl (λ d k, deleteBook k d) db l !! k
  = if decide (k ∈ l) then None else db !! k.
Proof.
  revert db. induction l as [|k' l IH]; intros db; cbn [foldl].
  - destruct (decide (k ∈ [])) as [Hin|]; [inversion Hin|done].
  - rewrite IH. unfold deleteBook.
    destruct (decide (k ∈ l)) as [Hl|Hl].
    + rewrite decide_True by by right. done.
    + destruct (decide (k = k')) as [->|Hne].
      * rewrite lookup_delete_eq. rewrite decide_True by left. done.
      * rewrite lookup_delete_ne by done.
        rewrite decide_False; [done|].
        by intros [?|?]%elem_of_cons.
Qed.
End BulkDelete.

(** X3.  In a library with distinct ids, a confirmed bulk delete of a
    non-empty selection removes from the store every record of every group
    in which some variant (not only the first) is selected, and every
    selected id; every other stored record is kept as it is.  A declined
    confirmation changes nothing. *)
Theorem handleBulkDelete_removes_whole_groups (st : AppState) (db : Store) :
  NoDup (id <$> books st) → selectedBookIds st ≠ ∅ →
  (∀ b b', b ∈ books st → b' ∈ books st → bookKey b' = bookKey b →
     id b' ∈ selectedBookIds st →
     (handleBulkDelete true st db).1 !! id b = None)
  ∧ (∀ k, k ∈ selectedBookIds st → (handleBulkDelete true st db).1 !! k = None)
  ∧ (∀ k, k ∉ selectedBookIds st →
     (∀ b b', b ∈ books st → b' ∈ books st → id b = k →
        bookKey b' = bookKey b → id b' ∉ selectedBookIds st) →
     (handleBulkDelete true st db).1 !! k = db !! k)
  ∧ handleBulkDelete false st db = (db, None).
Proof.
  intros Hnd Hsel.
  assert (size (selectedBookIds st) ≠ 0%nat) as Hsize.
  { intros Hz. by apply size_empty_iff, leibniz_equiv in Hz. }
  unfold handleBulkDelete. rewrite bool_decide_eq_false_2 by done. simpl.
  assert (∀ b b', b ∈ books st → b' ∈ books st → bookKey b' = bookKey b →
            id b ∈ idsFor (groupedLibrary (books st)) (id b')) as Hgroup.
  { intros b b' Hb Hb' Hkey. unfold idsFor.
    rewrite findGroupOf_variants by done.
    apply elem_of_list_to_set, list_elem_of_fmap. exists b.
    split; [done|]. by apply list_elem_of_filter. }
  split_and!.
  - intros b b' Hb Hb' Hkey Hin. rewrite foldl_deleteBook_lookup.
    rewrite decide_True; [done|]. apply elem_of_elements, elem_of_set_bind.
    exists (id b'). split; [done|]. by apply Hgroup.
  - intros k Hk. rewrite foldl_deleteBook_lookup.
    rewrite decide_True; [done|]. apply elem_of_elements, elem_of_set_bind.
    exists k. split; [done|]. unfold idsFor.
    destruct (findGroupOf _ k) as [g|] eqn:Hfind; [|set_solver].
    apply findGroupOf_Some in Hfind as (_ & b & Hb & <-).
    apply elem_of_list_to_set, list_elem_of_fmap. eauto.
  - intros k Hk Hnone. rewrite foldl_deleteBook_lookup.
    rewrite decide_False; [done|].
    intros (s & Hs & Hin)%elem_of_elements%elem_of_set_bind.
    unfold idsFor in Hin.
    destruct (findGroupOf _ s) as [g|] eqn:Hfind; [|set_solver].
    apply findGroupOf_Some in Hfind as (Hgl & b' & Hb' & <-).
    apply elem_of_list_to_set, list_elem_of_fmap in Hin as (b & -> & Hb).
    apply elem_of_groupedLibrary in Hgl as (_ & k0 & ->).
    apply list_elem_of_filter in Hb as [Hkb Hb].
    apply list_elem_of_filter in Hb' as [Hkb' Hb'].
    apply (Hnone b b'); try done. congruence.
  - done.
Qed.

Lemma handleBulkDelete_removes_whole_groups_witness :
  (handleBulkDelete true (bulkState {["d2"]}) bulkStore).1 !! id duneEpub = None.
Proof.
  destruct (handleBulkDelete_removes_whole_groups (bulkState {["d2"]}) bulkStore)
    as (Hgroup & _).
  - apply bulkState_NoDup.
  - simpl. apply non_empty_singleton_L.
  - apply (Hgroup duneEpub dunePdf).
    + left.
    + right. right. left.
    + reflexivity.
    + vm_compute. reflexivity.
Defined.

(** X4.  In a library with distinct ids, the files listed for an open
    book of the library are exactly the books with its key, in library
    order; for a book that is not in the library (no group holds its id)
    the list is that book alone; with no open book it is empty. *)
Theorem selectedVariants_lists_the_group (books : list Book) (sel : Book) :
  NoDup (id <$> books) →
  (sel ∈ books →
   selectedVariants (Some sel) (groupedLibrary books)
   = filter (λ b, bookKey b = bookKey sel) books)
  ∧ ((∀ b, b ∈ books → id b ≠ id sel) →
     selectedVariants (Some sel) (groupedLibrary books) = [sel])
  ∧ selectedVariants None (groupedLibrary books) = [].
Proof.
  intros Hnd. split_and!; [| |done].
  - intros Hsel. unfold selectedVariants.
    by rewrite findGroupOf_variants.
  - intros Hnone. unfold selectedVariants.
    destruct (findGroupOf _ (id sel)) as [g|] eqn:Hfind; [|done].
    apply findGroupOf_Some in Hfind as (Hgl & b & Hb & Hid).
    apply elem_of_groupedLibrary in Hgl as (_ & k0 & ->).
    apply list_elem_of_filter in Hb as [_ Hb]. by destruct (Hnone b).
Qed.

Lemma selectedVariants_lists_the_group_witness :
  selectedVariants (Some dunePdf) (groupedLibrary [duneEpub; emma; dunePdf])
  = filter (λ b, bookKey b = bookKey dunePdf) [duneEpub; emma; dunePdf].
Proof.
  destruct (selectedVariants_lists_the_group [duneEpub; emma; dunePdf] dunePdf)
    as (Hin & _).
  - apply (bulkState_NoDup ∅).
  - apply Hin. right. right. left.
Defined.

(** ** Auto-organize *)

Section Organize.
Implicit Types (us : list Suggestion.t) (u : Suggestion.t) (k : string).

Lemma cleanUpdate_clean u : cleanPartial (cleanUpdate u).
Proof.
  unfold cleanPartial, cleanUpdate. simpl. split_and!; try done.
  - intros s. destruct (Suggestion.group u) as [g|]; simpl; [|done].
    destruct (truthyS g) eqn:Hg; [|done]. intros [= ->] ->. done.
  - intros s. destruct (Suggestion.seriesTitle u) as [g|]; simpl; [|done].
    destruct (truthyS g) eqn:Hg; [|done]. intros [= ->] ->. done.
  - intros s. destruct (Suggestion.seriesIndex u) as [g|]; simpl; [|done].
    destruct (truthyS g) eqn:Hg; [|done]. intros [= ->] ->. done.
Qed.

Lemma organizeStep_eq m u :
  organizeStep m u
  = match Suggestion.id u with
    | Some i => if decide (usable i u) then JSMap.set i (cleanUpdate u) m else m
    | None => m
    end.
Proof.
  unfold organizeStep. destruct (Suggestion.id u) as [i|] eqn:Hi; [|done].
  destruct (truthyS i) eqn:Ht.
  - case_bool_decide.
    + by rewrite decide_True by done.
    + by rewrite decide_False by by intros (_ & _ & ?).
  - rewrite decide_False; [done|]. intros (_ & ? & _). congruence.
Qed.

Lemma collected_spec us :
  NoDup (JSMap.keys (foldl organizeStep [] us))
  ∧ ∀ k, JSMap.get k (foldl organizeStep [] us)
         = cleanUpdate <$> last (filter (usable k) us).
Proof.
  induction us as [|u us IH] using rev_ind.
  { split; [apply NoDup_nil_2|done]. }
  destruct IH as [Hnd Hget]. rewrite foldl_app. simpl.
  rewrite organizeStep_eq.
  assert (∀ k, ¬ usable k u →
            last (filter (usable k) (us ++ [u])) = last (filter (usable k) us))
    as Hskip.
  { intros k Hk. rewrite filter_app, filter_cons, filter_nil.
    rewrite decide_False by done. by rewrite (right_id_L [] (++)). }
  destruct (Suggestion.id u) as [i|] eqn:Hi.
  - destruct (decide (usable i u)) as [Hu|Hu].
    + split; [by apply keys_set_NoDup|]. intros k.
      destruct (decide (k = i)) as [->|Hne].
      * rewrite get_set_eq, filter_app, filter_cons, filter_nil.
        rewrite decide_True by done. by rewrite last_snoc.
      * rewrite get_set_ne, Hget by done. rewrite Hskip; [done|].
        intros (Hid & _). congruence.
    + split; [done|]. intros k. rewrite Hget.
      destruct (decide (k = i)) as [->|Hne]; [by rewrite Hskip|].
      rewrite Hskip; [done|]. intros (Hid & _). congruence.
  - split; [done|]. intros k. rewrite Hget, Hskip; [done|].
    intros (Hid & _). congruence.
Qed.

Lemma findBook_In books b :
  NoDup (id <$> books) → b ∈ books → findBook books (id b) = Some b.
Proof.
  intros Hnd Hb. unfold findBook.
  destruct (list_find (λ b0, id b0 = id b) books) as [[i b0]|] eqn:Hfind.
  - apply list_find_Some in Hfind as (Hi & Hid & _). simpl. f_equal.
    apply (NoDup_fmap_elem_inj id books); [done| |done..].
    by eapply list_elem_of_lookup_2.
  - apply list_find_None in Hfind. eapply Forall_forall in Hfind; [|done].
    done.
Qed.

Lemma findBook_Some books k b : findBook books k = Some b → b ∈ books ∧ id b = k.
Proof.
  unfold findBook. intros ([i b0] & Hfind & ->)%fmap_Some.
  apply list_find_Some in Hfind as (Hi & Hid & _).
  split; [by eapply list_elem_of_lookup_2|done].
Qed.

(** Applying a map of updates: each key is written at most once. *)
Lemma apply_updates_lookup books (m : JSMap.t Partial.t) (db : Store) k :
  NoDup (JSMap.keys m) →
  foldl (λ d '(i, update),
           match findBook books i with
           | Some book => updateBook (spread book update) d
           | None => d
           end) db m !! k
  = match JSMap.get k m, findBook books k with
    | Some c, Some book => Some (spread book c)
    | _, _ => db !! k
    end.
Proof.
  unfold JSMap.keys. revert db. induction m as [|[i c] m IH]; intros db; [done|].
  simpl. intros [Hi Hnd]%NoDup_cons. rewrite IH by done.
  case_bool_decide as Hik.
  - subst i. assert (JSMap.get k m = None) as -> by by apply get_None.
    destruct (findBook books k) as [book|] eqn:Hfind; [|done].
    apply findBook_Some in Hfind as [_ Hid].
    unfold updateBook, addBook. simpl. by rewrite Hid, lookup_insert_eq.
  - assert (match findBook books i with
            | Some book => updateBook (spread book c) db
            | None => db
            end !! k = db !! k) as Hother.
    { destruct (findBook books i) as [book|] eqn:Hfind; [|done].
      apply findBook_Some in Hfind as [_ Hid].
      unfold updateBook, addBook. simpl. rewrite lookup_insert_ne; congruence. }
    destruct (JSMap.get k m), (findBook books k); by rewrite ?Hother.
Qed.
End Organize.

(** X5.  The update map built by [organizeLibrary] holds, for each id, the
    cleaned form of the last suggestion for that id that has at least one
    non-empty field (a later suggestion replaces an earlier one, it is not
    merged with it); an id, or a field, that is empty is never recorded,
    and no update carries a color or a status.  For an empty library or a
    failed advisor call the map is empty. *)
Theorem organizeLibrary_keeps_last_usable (books : list Book)
    (updates : list Suggestion.t) :
  books ≠ [] →
  NoDup (JSMap.keys (organizeLibrary books (Some updates)))
  ∧ (∀ k, JSMap.get k (organizeLibrary books (Some updates))
          = cleanUpdate <$> last (filter (usable k) updates))
  ∧ (∀ k c, (k, c) ∈ organizeLibrary books (Some updates) →
            k ≠ "" ∧ cleanPartial c ∧ 0 < Partial.keysLength c)
  ∧ organizeLibrary books None = []
  ∧ organizeLibrary [] (Some updates) = [].
Proof.
  intros Hne. unfold organizeLibrary.
  rewrite bool_decide_eq_false_2 by by destruct books.
  destruct (collected_spec updates) as [Hnd Hget].
  split_and!; try done.
  intros k c Hin%elem_of_get; [|done]. rewrite Hget in Hin.
  apply fmap_Some in Hin as (u & Hlast & ->).
  apply last_Some_elem_of, list_elem_of_filter in Hlast
    as [(Hid & Hk & Hlen) _].
  split_and!; [by intros ->|apply cleanUpdate_clean|done].
Qed.

Lemma organizeLibrary_keeps_last_usable_witness :
  JSMap.get "d1" (organizeLibrary [duneEpub; emma; dunePdf] (Some sampleSuggestions))
  = cleanUpdate <$> last (filter (usable "d1") sampleSuggestions).
Proof.
  apply (organizeLibrary_keeps_last_usable [duneEpub; emma; dunePdf]
           sampleSuggestions).
  discriminate.
Defined.

(** X6.  In a library with distinct ids, a confirmed auto-organize stores,
    for every book of the library that has an update, the loaded book with
    the update's fields laid over it, and leaves every other key of the
    store as it was: a suggestion for an id that is not in the library
    creates no record.  The stored book differs from the loaded one at
    most in [seriesTitle], [seriesIndex] and [group], and a field that was
    non-empty is never made empty.  A declined confirmation changes
    nothing. *)
Theorem handleAutoOrganize_applies_updates (books : list Book)
    (advisor : option (list Suggestion.t)) (db : Store) :
  NoDup (id <$> books) →
  (∀ b, b ∈ books →
     (handleAutoOrganize true books advisor db).1 !! id b
     = match JSMap.get (id b) (organizeLibrary books advisor) with
       | Some c => Some (spread b c)
       | None => db !! id b
       end)
  ∧ (∀ k, k ∉ id <$> books →
       (handleAutoOrganize true books advisor db).1 !! k = db !! k)
  ∧ (∀ b c, JSMap.get (id b) (organizeLibrary books advisor) = Some c →
       spread b c
       = {| title := title b; author := author b;
            description := description b; releaseDate := releaseDate b;
            genre := genre b; language := language b;
            seriesTitle := seriesTitle (spread b c);
            seriesIndex := seriesIndex (spread b c);
            seriesColor := seriesColor b; group := group (spread b c);
            groupColor := groupColor b; status := status b; id := id b;
            fileName := fileName b; fileType := fileType b;
            fileSize := fileSize b; addedAt := addedAt b;
            coverColor := coverColor b; fileData := fileData b |}
       ∧ (truthy (seriesTitle b) = true → truthy (seriesTitle (spread b c)) = true)
       ∧ (truthy (seriesIndex b) = true → truthy (seriesIndex (spread b c)) = true)
       ∧ (truthy (group b) = true → truthy (group (spread b c)) = true))
  ∧ handleAutoOrganize false books advisor db = (db, None).
Proof.
  intros Hnd.
  assert (NoDup (JSMap.keys (organizeLibrary books advisor))
          ∧ ∀ k c, JSMap.get k (organizeLibrary books advisor) = Some c →
                   cleanPartial c) as [Hkeys Hclean].
  { unfold organizeLibrary. case_bool_decide; [split; [apply NoDup_nil_2|done]|].
    destruct advisor as [updates|]; [|split; [apply NoDup_nil_2|done]].
    destruct (collected_spec updates) as [Hk Hget]. split; [done|].
    intros k c. rewrite Hget. intros (u & _ & ->)%fmap_Some.
    apply cleanUpdate_clean. }
  assert (∀ k, (handleAutoOrganize true books advisor db).1 !! k
               = match JSMap.get k (organizeLibrary books advisor),
                       findBook books k with
                 | Some c, Some book => Some (spread book c)
                 | _, _ => db !! k
                 end) as Hlookup.
  { intros k. unfold handleAutoOrganize. case_bool_decide as Hlen; simpl.
    - by apply apply_updates_lookup.
    - destruct (organizeLibrary books advisor); [done|simpl in Hlen; lia]. }
  split_and!.
  - intros b Hb. rewrite Hlookup, findBook_In by done.
    by destruct (JSMap.get _ _).
  - intros k Hk. rewrite Hlookup.
    destruct (findBook books k) as [book|] eqn:Hfind;
      [|by destruct (JSMap.get _ _)].
    apply findBook_Some in Hfind as [Hbook <-]. destruct Hk.
    by apply list_elem_of_fmap_2.
  - intros b c Hc. apply Hclean in Hc as (Hg & Ht & Hi & Hgc & Hsc & Hs).
    destruct c as [cg cgc ct ci csc cs]. simpl in *. subst.
    unfold spread. simpl. split_and!; [done| | |].
    + destruct ct as [s|]; [|done]. intros _. simpl. unfold truthyS.
      rewrite bool_decide_eq_false_2; [done|]. by apply Ht.
    + destruct ci as [s|]; [|done]. intros _. simpl. unfold truthyS.
      rewrite bool_decide_eq_false_2; [done|]. by apply Hi.
    + destruct cg as [s|]; [|done]. intros _. simpl. unfold truthyS.
      rewrite bool_decide_eq_false_2; [done|]. by apply Hg.
  - done.
Qed.

Lemma handleAutoOrganize_applies_updates_witness :
  (handleAutoOrganize true [duneEpub; emma; dunePdf] (Some sampleSuggestions)
     bulkStore).1 !! "zz"
  = bulkStore !! "zz".
Proof.
  destruct (handleAutoOrganize_applies_updates [duneEpub; emma; dunePdf]
              (Some sampleSuggestions) bulkStore (bulkState_NoDup ∅))
    as (_ & Hother & _).
  apply Hother. solve_not_elem.
Defined.

(** ** More on the bulk edit *)

Lemma keysLength_all_keep data i :
  BulkUpdateData.groupMode data = BulkUpdateData.keep →
  BulkUpdateData.seriesMode data = BulkUpdateData.keep →
  BulkUpdateData.statusMode data = BulkUpdateData.keep →
  Partial.keysLength (bulkChanges data i) = 0.
Proof.
  destruct data as [gm ? ? sm ? im ? ? stm ?]. simpl. by intros -> -> ->.
Qed.

Lemma keysLength_status data i :
  BulkUpdateData.statusMode data ≠ BulkUpdateData.keep →
  0 < Partial.keysLength (bulkChanges data i).
Proof.
  destruct data as [gm ? ? sm ? im ? ? stm ?]. simpl. intros Hm.
  unfold bulkChanges, Partial.keysLength. simpl.
  destruct gm, sm, im, stm; simpl; done.
Qed.

Lemma keysLength_some_change data i :
  BulkUpdateData.groupMode data ≠ BulkUpdateData.keep
  ∨ BulkUpdateData.seriesMode data ≠ BulkUpdateData.keep
  ∨ BulkUpdateData.statusMode data ≠ BulkUpdateData.keep →
  0 < Partial.keysLength (bulkChanges data i).
Proof.
  intros [?|[?|?]];
    [by apply keysLength_group|by apply keysLength_series
    |by apply keysLength_status].
Qed.

Lemma bulkWrites_length data i groups :
  (∀ j, 0 < Partial.keysLength (bulkChanges data j)) →
  length (bulkWrites data i groups) = length (concat groups).
Proof.
  intros Hpos. revert i. induction groups as [|g rest IH]; intros i; [done|].
  simpl. rewrite bool_decide_eq_true_2 by done.
  by rewrite !length_app, length_fmap, IH.
Qed.

Lemma bulkWrites_nil data i groups :
  (∀ j, Partial.keysLength (bulkChanges data j) = 0) →
  bulkWrites data i groups = [].
Proof.
  intros Hz. revert i. induction groups as [|g rest IH]; intros i; [done|].
  simpl. rewrite bool_decide_eq_false_2 by (rewrite Hz; lia). by rewrite IH.
Qed.

(** X7.  When all three families are in mode [keep], a bulk edit writes
    nothing: the store is unchanged and the count is 0.  Otherwise the
    count is the number of variant records in the selected groups: every
    file of every selected group is written once. *)
Theorem handleBulkSave_update_count lc nc st data db :
  (BulkUpdateData.groupMode data = BulkUpdateData.keep →
   BulkUpdateData.seriesMode data = BulkUpdateData.keep →
   BulkUpdateData.statusMode data = BulkUpdateData.keep →
   handleBulkSave lc nc st data db = (db, 0))
  ∧ (BulkUpdateData.groupMode data ≠ BulkUpdateData.keep
     ∨ BulkUpdateData.seriesMode data ≠ BulkUpdateData.keep
     ∨ BulkUpdateData.statusMode data ≠ BulkUpdateData.keep →
     (handleBulkSave lc nc st data db).2
     = Z.of_nat (length (concat (selectedGroups lc nc st)))).
Proof.
  unfold handleBulkSave. rewrite bulkLoop_eq. split.
  - intros Hg Hs Hst. rewrite bulkWrites_nil; [done|].
    intros j. by apply keysLength_all_keep.
  - intros Hsome. simpl. rewrite bulkWrites_length; [lia|].
    intros j. by apply keysLength_some_change.
Qed.

Lemma handleBulkSave_update_count_witness :
  (handleBulkSave refLocaleCompare refLocaleCompareNumeric
     (bulkState {["d1"; "e1"]})
     (bulkData BulkUpdateData.keep BulkUpdateData.set BulkUpdateData.auto 5)
     bulkStore).2
  = Z.of_nat (length (concat (selectedGroups refLocaleCompare
                                refLocaleCompareNumeric
                                (bulkState {["d1"; "e1"]})))).
Proof.
  apply (handleBulkSave_update_count refLocaleCompare refLocaleCompareNumeric).
  right. left. discriminate.
Defined.

(** X8.  In a library with distinct ids, when some family is not in mode
    [keep], every variant of every selected group is stored with: the
    fields outside the three families (title, author, file, time stamp,
    cover color, series color, ...) as they were; a family in mode [keep]
    as it was; group mode [set] giving the configured name and color;
    series mode [set] giving the configured title, with the index
    untouched in sub-mode [keep] and the literal value in sub-mode [same];
    status mode [set] giving the configured status and [clear] the empty
    string. *)
Theorem handleBulkSave_fields lc nc st data db (i : nat) g b :
  NoDup (id <$> books st) →
  selectedGroups lc nc st !! i = Some g → b ∈ g →
  BulkUpdateData.groupMode data ≠ BulkUpdateData.keep
  ∨ BulkUpdateData.seriesMode data ≠ BulkUpdateData.keep
  ∨ BulkUpdateData.statusMode data ≠ BulkUpdateData.keep →
  ∃ b', (handleBulkSave lc nc st data db).1 !! id b = Some b'
    ∧ b' = {| title := title b; author := author b;
              description := description b; releaseDate := releaseDate b;
              genre := genre b; language := language b;
              seriesTitle := seriesTitle b'; seriesIndex := seriesIndex b';
              seriesColor := seriesColor b; group := group b';
              groupColor := groupColor b'; status := status b'; id := id b;
              fileName := fileName b; fileType := fileType b;
              fileSize := fileSize b; addedAt := addedAt b;
              coverColor := coverColor b; fileData := fileData b |}
    ∧ (BulkUpdateData.groupMode data = BulkUpdateData.keep →
       group b' = group b ∧ groupColor b' = groupColor b)
    ∧ (BulkUpdateData.groupMode data = BulkUpdateData.set →
       group b' = Some (BulkUpdateData.groupName data)
       ∧ groupColor b' = Some (BulkUpdateData.groupColor data))
    ∧ (BulkUpdateData.seriesMode data = BulkUpdateData.keep →
       seriesTitle b' = seriesTitle b ∧ seriesIndex b' = seriesIndex b)
    ∧ (BulkUpdateData.seriesMode data = BulkUpdateData.set →
       seriesTitle b' = Some (BulkUpdateData.seriesTitle data)
       ∧ (BulkUpdateData.seriesIndexMode data = BulkUpdateData.index_keep →
          seriesIndex b' = seriesIndex b)
       ∧ (BulkUpdateData.seriesIndexMode data = BulkUpdateData.same →
          seriesIndex b' = Some (BulkUpdateData.seriesIndexValue data)))
    ∧ (BulkUpdateData.statusMode data = BulkUpdateData.keep →
       status b' = status b)
    ∧ (BulkUpdateData.statusMode data = BulkUpdateData.set →
       status b' = Some (BulkUpdateData.statusValue data))
    ∧ (BulkUpdateData.statusMode data = BulkUpdateData.clear →
       status b' = Some "").
Proof.
  intros Hnd Hi Hb Hsome.
  apply (selectedGroups_NoDup lc nc) in Hnd.
  unfold handleBulkSave.
  rewrite (bulkLoop_lookup_written _ _ _ _ _ i g) by
    (try done; by apply keysLength_some_change).
  eexists. split; [done|]. clear Hsome.
  destruct data as [gm gn gc sm stt im ist isv stm stv]. simpl.
  unfold bulkChanges, spread. simpl.
  destruct gm, sm, im, stm; simpl; split_and!; done.
Qed.

Lemma handleBulkSave_fields_witness :
  ∃ b', (handleBulkSave refLocaleCompare refLocaleCompareNumeric
           (bulkState {["d1"; "e1"]})
           (bulkData BulkUpdateData.set BulkUpdateData.keep
              BulkUpdateData.index_keep 1) bulkStore).1 !! id dunePdf = Some b'
        ∧ fileData b' = fileData dunePdf ∧ seriesTitle b' = seriesTitle dunePdf
        ∧ group b' = Some "Classics".
Proof.
  destruct (handleBulkSave_fields refLocaleCompare refLocaleCompareNumeric
              (bulkState {["d1"; "e1"]})
              (bulkData BulkUpdateData.set BulkUpdateData.keep
                 BulkUpdateData.index_keep 1) bulkStore 0 [duneEpub; dunePdf]
              dunePdf)
    as (b' & Hb' & Hframe & _ & Hset & Hkeep & _).
  - apply bulkState_NoDup.
  - vm_compute. reflexivity.
  - right. left.
  - left. discriminate.
  - exists b'. split; [done|]. split_and!.
    + by rewrite Hframe.
    + by apply Hkeep.
    + by apply Hset.
Defined.

(** ** More on the single-record edit *)

Lemma groupUpdates_ids books u w :
  w ∈ groupUpdates books u → id w ≠ id u ∧ ∃ b, b ∈ books ∧ id b = id w.
Proof.
  intros (b & Hb & (_ & _ & _ & Hid & _) & ->)%elem_of_groupUpdates.
  split; [done|]. by exists b.
Qed.

Lemma seriesUpdates_ids books u w :
  w ∈ seriesUpdates books u → id w ≠ id u ∧ ∃ b, b ∈ books ∧ id b = id w.
Proof.
  intros (b & Hb & (_ & _ & _ & Hid & _) & ->)%elem_of_seriesUpdates.
  split; [done|]. by exists b.
Qed.

Lemma update_lookup_self (db : Store) (u : Book) :
  handleUpdateBook (getAllBooks db) u db !! id u = Some u.
Proof.
  unfold handleUpdateBook. rewrite foldl_updateBook_notin.
  - unfold updateBook, addBook. by rewrite lookup_insert_eq.
  - rewrite fmap_app. intros [Hin|Hin]%elem_of_app;
      apply list_elem_of_fmap in Hin as (w & Hid & Hw).
    + apply groupUpdates_ids in Hw as [Hne _]. congruence.
    + apply seriesUpdates_ids in Hw as [Hne _]. congruence.
Qed.

Lemma update_lookup_other (db : Store) (u : Book) k :
  store_wf db → k ≠ id u →
  (∀ b, db !! k = Some b → ¬ groupTarget u b ∧ ¬ seriesTarget u b) →
  handleUpdateBook (getAllBooks db) u db !! k = db !! k.
Proof.
  intros Hwf Hk Hnot. unfold handleUpdateBook. rewrite foldl_updateBook_notin.
  - unfold updateBook, addBook. by rewrite lookup_insert_ne.
  - rewrite fmap_app. intros [Hin|Hin]%elem_of_app;
      apply list_elem_of_fmap in Hin as (w & -> & Hw).
    + apply elem_of_groupUpdates in Hw as (b & Hb & Ht & ->).
      apply elem_of_getAllBooks_wf in Hb; [|done].
      by destruct (Hnot b Hb) as [? _].
    + apply elem_of_seriesUpdates in Hw as (b & Hb & Ht & ->).
      apply elem_of_getAllBooks_wf in Hb; [|done].
      by destruct (Hnot b Hb) as [_ ?].
Qed.

(** What the store holds for a propagation target. *)
Lemma update_lookup_target (db : Store) (u b : Book) :
  store_wf db → db !! id b = Some b →
  (groupTarget u b → ¬ seriesTarget u b →
   handleUpdateBook (getAllBooks db) u db !! id b
   = Some (withGroupColor (groupColor u) b))
  ∧ (seriesTarget u b →
     handleUpdateBook (getAllBooks db) u db !! id b
     = Some (withSeriesColor (seriesColor u) b)).
Proof.
  intros Hwf Hb.
  pose proof (getAllBooks_NoDup db Hwf) as Hnd.
  assert (b ∈ getAllBooks db) as Hin by by apply elem_of_getAllBooks_wf.
  unfold handleUpdateBook. rewrite foldl_app. split.
  - intros Hg Hns. rewrite foldl_updateBook_notin.
    + change (id b) with (id (withGroupColor (groupColor u) b)).
      apply foldl_updateBook_in; [by apply groupUpdates_NoDup|].
      apply elem_of_groupUpdates. by exists b.
    + intros (w & Hid & Hw)%list_elem_of_fmap.
      apply elem_of_seriesUpdates in Hw as (b0 & Hb0 & Ht & ->).
      assert (b = b0) as <-; [|done].
      by apply (NoDup_fmap_elem_inj id (getAllBooks db)).
  - intros Hs.
    change (id b) with (id (withSeriesColor (seriesColor u) b)).
    apply foldl_updateBook_in; [by apply seriesUpdates_NoDup|].
    apply elem_of_seriesUpdates. by exists b.
Qed.

(** X9.  After an edit of the record [u] on a library loaded from the
    store: [u] itself is stored exactly as submitted (no propagation write
    ever targets the edited id), and every other key whose record is not a
    propagation target (including keys that hold no record) is left as it
    was. *)
Theorem handleUpdateBook_frame (db : Store) (u : Book) :
  store_wf db →
  handleUpdateBook (getAllBooks db) u db !! id u = Some u
  ∧ (∀ k, k ≠ id u →
       (∀ b, db !! k = Some b → ¬ groupTarget u b ∧ ¬ seriesTarget u b) →
       handleUpdateBook (getAllBooks db) u db !! k = db !! k).
Proof.
  intros Hwf. split; [apply update_lookup_self|].
  intros k Hk Hnot. by apply update_lookup_other.
Qed.

Lemma handleUpdateBook_frame_witness :
  handleUpdateBook (getAllBooks scifiStore)
    (inGroup "Sci-Fi" (Some "#00ff00") scifiA) scifiStore
  !! id (inGroup "Sci-Fi" (Some "#00ff00") scifiA)
  = Some (inGroup "Sci-Fi" (Some "#00ff00") scifiA).
Proof.
  apply (handleUpdateBook_frame scifiStore
           (inGroup "Sci-Fi" (Some "#00ff00") scifiA)).
  apply scifiStore_wf.
Defined.

(** X10.  After an edit of a record [u] with a non-blank [group] and a
    non-empty [groupColor], on a library loaded from the store in which no
    record is the target of both the group and the series propagation:
    every stored record with the [group] of [u] has the [groupColor] of
    [u]. *)
Theorem handleUpdateBook_group_color_consistent (db : Store) (u b' : Book) k :
  store_wf db →
  nonBlankO (group u) = true → truthy (groupColor u) = true →
  (∀ b, db !! id b = Some b → ¬ (groupTarget u b ∧ seriesTarget u b)) →
  handleUpdateBook (getAllBooks db) u db !! k = Some b' →
  group b' = group u → groupColor b' = groupColor u.
Proof.
  intros Hwf Hnb Hc Hboth Hk Hg.
  pose proof (getAllBooks_NoDup db Hwf) as Hnd.
  destruct (decide (k = id u)) as [->|Hne].
  { rewrite update_lookup_self in Hk. congruence. }
  destruct (db !! k) as [b|] eqn:Hdb.
  - pose proof (Hwf _ _ Hdb) as Hid. subst k.
    destruct (decide (seriesTarget u b)) as [Hs|Hs].
    + destruct (update_lookup_target db u b Hwf Hdb) as [_ Hser].
      rewrite (Hser Hs) in Hk. injection Hk as <-. simpl in *.
      destruct (decide (groupColor b = groupColor u)) as [|Hdiff]; [done|].
      destruct (Hboth b Hdb). split; [|done].
      unfold groupTarget. by split_and!.
    + destruct (decide (groupTarget u b)) as [Ht|Ht].
      * destruct (update_lookup_target db u b Hwf Hdb) as [Hgrp _].
        rewrite (Hgrp Ht Hs) in Hk. by injection Hk as <-.
      * rewrite update_lookup_other in Hk; [|done..|].
        2:{ intros b0 Hb0. rewrite Hdb in Hb0. by injection Hb0 as <-. }
        rewrite Hdb in Hk. injection Hk as <-.
        destruct (decide (groupColor b = groupColor u)) as [|Hdiff]; [done|].
        destruct Ht. unfold groupTarget. by split_and!.
  - rewrite update_lookup_other in Hk; [congruence|done..|].
    intros b0 Hb0. congruence.
Qed.

Lemma handleUpdateBook_group_color_consistent_witness :
  ∃ b', handleUpdateBook (getAllBooks scifiStore)
          (inGroup "Sci-Fi" (Some "#00ff00") scifiA) scifiStore !! "b"
        = Some b'
        ∧ groupColor scifiB = Some "#ff0000"
        ∧ groupColor b' = Some "#00ff00".
Proof.
  eexists. split; [vm_compute; reflexivity|]. split; [reflexivity|].
  apply (handleUpdateBook_group_color_consistent scifiStore
           (inGroup "Sci-Fi" (Some "#00ff00") scifiA) _ "b").
  - apply scifiStore_wf.
  - reflexivity.
  - reflexivity.
  - intros b _ [_ (Hblank & _)]. discriminate Hblank.
  - vm_compute. reflexivity.
  - reflexivity.
Defined.

(** ** More on grouping *)

Lemma precedes_fmap_inv {A B} (f : A → B) (l : list A) y1 y2 :
  precedes (f <$> l) y1 y2 →
  ∃ x1 x2, precedes l x1 x2 ∧ f x1 = y1 ∧ f x2 = y2.
Proof.
  intros (i & j & Hij & Hi & Hj).
  apply list_lookup_fmap_Some in Hi as (x1 & -> & Hi).
  apply list_lookup_fmap_Some in Hj as (x2 & -> & Hj).
  exists x1, x2. split; [|done]. by exists i, j.
Qed.

(** The keys of the map are in the order in which the library first
    shows them. *)
Lemma groupedMap_order books k1 k2 :
  precedes (JSMap.keys (groupedMap books)) k1 k2 →
  ∃ (i : nat) b1, books !! i = Some b1 ∧ bookKey b1 = k1
    ∧ ∀ (j : nat) b2, books !! j = Some b2 → bookKey b2 = k2 → (i < j)%nat.
Proof.
  revert k1 k2. induction books as [|b books IH] using rev_ind; intros k1 k2.
  { intros H'. by apply precedes_nil in H'. }
  destruct (groupedMap_spec books) as (Hnd & Hget & _).
  rewrite groupedMap_snoc, groupStep_eq.
  intros [Hold|(-> & Hnone & Hin)]%precedes_keys_set.
  - destruct (IH _ _ Hold) as (i & b1 & Hi & Hk1 & Hall). exists i, b1.
    split_and!; [by apply lookup_app_l_Some|done|].
    intros j b2 Hj Hk2. apply lookup_lt_Some in Hi as Hlt.
    destruct (decide (j < length books)%nat) as [Hjl|Hjl]; [|lia].
    rewrite lookup_app_l in Hj by done. eauto.
  - apply key_is_Some in Hin as [g1 Hg1]. rewrite Hget in Hg1, Hnone.
    case_decide as Hv1; [done|]. case_decide as Hv; [|done].
    destruct (variantsOf k1 books) as [|b1 l] eqn:Hm1; [done|].
    assert (b1 ∈ variantsOf k1 books) as Hb1 by (rewrite Hm1; left).
    apply list_elem_of_filter in Hb1 as [Hk1 [i Hi]%list_elem_of_lookup_1].
    exists i, b1. split_and!; [by apply lookup_app_l_Some|done|].
    intros j b2 Hj Hk2. apply lookup_lt_Some in Hi as Hlt.
    destruct (decide (j < length books)%nat) as [Hjl|Hjl]; [|lia].
    rewrite lookup_app_l in Hj by done.
    assert (b2 ∈ variantsOf (bookKey b) books) as Hb2.
    { apply list_elem_of_filter. split; [done|]. by eapply list_elem_of_lookup_2. }
    rewrite Hv in Hb2. inversion Hb2.
Qed.

(** X11.  [groupedLibrary] partitions the library: the groups together
    hold every book exactly as often as the library does; no group is
    empty; a group is the list of all books that have the key of its
    first book, in library order; no two groups are equal; and the groups
    come in the order in which the library first shows a book of each. *)
Theorem groupedLibrary_partition (books : list Book) :
  concat (groupedLibrary books) ≡ₚ books
  ∧ (∀ g, g ∈ groupedLibrary books →
       ∃ r, head g = Some r ∧ g = filter (λ b, bookKey b = bookKey r) books)
  ∧ NoDup (groupedLibrary books)
  ∧ (∀ g1 g2, precedes (groupedLibrary books) g1 g2 →
       ∃ (i : nat) b1, books !! i = Some b1 ∧ b1 ∈ g1
         ∧ ∀ (j : nat) b2, books !! j = Some b2 → b2 ∈ g2 → (i < j)%nat).
Proof.
  split_and!.
  - apply groupedLibrary_perm.
  - intros g (Hne & k & ->)%elem_of_groupedLibrary.
    destruct (variantsOf k books) as [|r l] eqn:Hv; [done|].
    exists r. split; [done|].
    assert (r ∈ variantsOf k books) as [-> _]%list_elem_of_filter
      by (rewrite Hv; left).
    done.
  - apply groupedLibrary_NoDup.
  - intros g1 g2 Hprec. unfold groupedLibrary, JSMap.values in Hprec.
    apply precedes_fmap_inv in Hprec as ([k1 g1'] & [k2 g2'] & Hprec & <- & <-).
    destruct (groupedMap_spec books) as (Hnd & Hget & _).
    pose proof (precedes_elem_of _ _ _ Hprec) as [Hin1 Hin2].
    apply elem_of_get in Hin1, Hin2; try done. rewrite Hget in Hin1, Hin2.
    repeat case_decide; try done.
    injection Hin1 as <-. injection Hin2 as <-. simpl.
    apply (precedes_fmap fst) in Hprec. simpl in Hprec.
    apply groupedMap_order in Hprec as (i & b1 & Hi & Hk1 & Hall).
    exists i, b1. split_and!; [done| |].
    + apply list_elem_of_filter. split; [done|]. by eapply list_elem_of_lookup_2.
    + intros j b2 Hj [Hk2 _]%list_elem_of_filter. eauto.
Qed.

Lemma groupedLibrary_partition_witness :
  ∃ r, head [duneEpub; dunePdf] = Some r
       ∧ [duneEpub; dunePdf]
         = filter (λ b, bookKey b = bookKey r) [duneEpub; emma; dunePdf].
Proof.
  destruct (groupedLibrary_partition [duneEpub; emma; dunePdf])
    as (_ & Hgroup & _).
  apply Hgroup. apply (list_elem_of_lookup_2 _ 0%nat). vm_compute. reflexivity.
Defined.

(** X12.  The grouping does not depend on the order of the library: for
    two libraries with the same records, every group of one has a group of
    the other with the same members. *)
Theorem groupedLibrary_order_independent (books books' : list Book) g :
  books ≡ₚ books' → g ∈ groupedLibrary books →
  ∃ g', g' ∈ groupedLibrary books' ∧ g ≡ₚ g'.
Proof.
  intros Hperm (Hne & k & ->)%elem_of_groupedLibrary.
  exists (variantsOf k books').
  assert (variantsOf k books ≡ₚ variantsOf k books') as Hv
    by (unfold variantsOf; by rewrite Hperm).
  split; [|done]. apply elem_of_groupedLibrary. split; [|eauto].
  intros Hnil. rewrite Hnil in Hv. by apply Permutation_nil_r in Hv.
Qed.

Lemma groupedLibrary_order_independent_witness :
  ∃ g', g' ∈ groupedLibrary [emma; duneEpub; dunePdf]
        ∧ [duneEpub; dunePdf] ≡ₚ g'.
Proof.
  apply (groupedLibrary_order_independent [duneEpub; emma; dunePdf]).
  - apply Permutation_swap.
  - apply (list_elem_of_lookup_2 _ 0%nat). vm_compute. reflexivity.
Defined.

(** ** More on filtering and sorting *)

Lemma precedes_filter {A} (P : A → Prop) `{!∀ x, Decision (P x)}
    (l : list A) x y :
  precedes (filter P l) x y → precedes l x y.
Proof.
  induction l as [|a l IH]; [done|].
  rewrite filter_cons. case_decide.
  - rewrite !precedes_cons. intros [[-> Hy]|H']; [left|right; auto].
    split; [done|]. by apply list_elem_of_filter in Hy as [_ ?].
  - rewrite precedes_cons. auto.
Qed.

Lemma prefix_refl s : String.prefix s s = true.
Proof.
  induction s as [|c s IH]; simpl; [done|].
  by destruct (ascii_dec c c).
Qed.

Lemma includes_refl s : includes s s = true.
Proof. destruct s; simpl; [done|]. apply orb_true_iff. left. apply (prefix_refl (String a s)). Qed.

(** X13.  Under sort keys [title] and [author], for a consistent host
    collation: when a group stands before another in the result, the
    titles (authors) of their first records are in collation order, and
    if these tie the two groups are in the order of [groupedLibrary]. *)
Theorem title_author_sort_order lc nc books q fg ga gb a b :
  Collation lc →
  head ga = Some a → head gb = Some b →
  (precedes (filteredAndSortedGroups lc nc (groupedLibrary books) q sort_title fg)
     ga gb →
   lc (title a) (title b) <= 0
   ∧ (lc (title b) (title a) <= 0 → precedes (groupedLibrary books) ga gb))
  ∧ (precedes (filteredAndSortedGroups lc nc (groupedLibrary books) q sort_author fg)
       ga gb →
     lc (author a) (author b) <= 0
     ∧ (lc (author b) (author a) <= 0 → precedes (groupedLibrary books) ga gb)).
Proof.
  intros Hlc Ha Hb.
  destruct ga as [|a' ra]; [done|]. destruct gb as [|b' rb]; [done|].
  simpl in Ha, Hb. injection Ha as ->. injection Hb as ->.
  unfold filteredAndSortedGroups. split; intros Hprec; split.
  - apply (sortBy_ordered _ (λ g, g ≠ [])) in Hprec;
      [done|by apply onRep_consistent, titleCmp_consistent
      |apply filtered_nonempty].
  - intros Htie. apply sortBy_stable in Hprec; [|done].
    by apply precedes_filter in Hprec.
  - apply (sortBy_ordered _ (λ g, g ≠ [])) in Hprec;
      [done| |apply filtered_nonempty].
    apply onRep_consistent.
    by apply (consistent_contramap author _ (λ _, True)).
  - intros Htie. apply sortBy_stable in Hprec; [|done].
    by apply precedes_filter in Hprec.
Qed.

Lemma title_author_sort_order_witness :
  refLocaleCompare (title duneEpub) (title emma) <= 0
  ∧ (refLocaleCompare (title emma) (title duneEpub) <= 0 →
     precedes (groupedLibrary [emma; duneEpub; dunePdf])
       [duneEpub; dunePdf] [emma]).
Proof.
  destruct (title_author_sort_order refLocaleCompare refLocaleCompareNumeric
              [emma; duneEpub; dunePdf] "" None [duneEpub; dunePdf] [emma]
              duneEpub emma refLocaleCompare_collation eq_refl eq_refl)
    as [Htitle _].
  apply Htitle. exists 0%nat, 1%nat.
  split_and!; [lia|vm_compute; reflexivity..].
Defined.

(** X14.  Whatever the sort key, the result holds exactly the groups of
    the input whose first record passes the filter, each once.  With no
    group filter (absent or the empty string), a group is shown whenever
    the query is the title or the author of its first record as written,
    and every non-empty group is shown for the empty query.  With a group
    filter, every group shown has exactly that [group] value on its first
    record. *)
Theorem filter_keeps_matching_groups lc nc gl q opt fg :
  filteredAndSortedGroups lc nc gl q opt fg
  ≡ₚ filter (λ g, matchesFilter q fg g = true) gl
  ∧ (∀ g r, g ∈ gl → head g = Some r → truthy fg = false →
       q = title r ∨ q = author r →
       g ∈ filteredAndSortedGroups lc nc gl q opt fg)
  ∧ (∀ g, g ∈ gl → g ≠ [] → truthy fg = false →
       g ∈ filteredAndSortedGroups lc nc gl "" opt fg)
  ∧ (∀ g r, g ∈ filteredAndSortedGroups lc nc gl q opt fg →
       head g = Some r → truthy fg = true → group r = fg).
Proof.
  split_and!.
  - apply filteredAndSortedGroups_perm.
  - intros g r Hg Hr Hfg Hq. apply elem_of_filteredAndSortedGroups.
    split; [|done]. destruct g as [|r' g]; [done|]. injection Hr as ->.
    simpl. rewrite Hfg, andb_true_r.
    destruct Hq as [-> | ->]; rewrite includes_refl; by rewrite ?orb_true_r.
  - intros g Hg Hne Hfg. apply elem_of_filteredAndSortedGroups.
    split; [|done]. destruct g as [|r g]; [done|].
    simpl. by rewrite Hfg, includes_empty.
  - intros g r [Hm _]%elem_of_filteredAndSortedGroups Hr Hfg.
    destruct g as [|r' g]; [done|]. injection Hr as ->.
    simpl in Hm. rewrite Hfg in Hm.
    apply andb_true_iff in Hm as [_ Hm]. by apply bool_decide_eq_true in Hm.
Qed.

Lemma filter_keeps_matching_groups_witness :
  [duneEpub; dunePdf]
  ∈ filteredAndSortedGroups refLocaleCompare refLocaleCompareNumeric
      (groupedLibrary [duneEpub; emma; dunePdf]) "Frank Herbert" sort_title None.
Proof.
  destruct (filter_keeps_matching_groups refLocaleCompare refLocaleCompareNumeric
              (groupedLibrary [duneEpub; emma; dunePdf]) "Frank Herbert"
              sort_title None)
    as (_ & Hfound & _).
  apply (Hfound [duneEpub; dunePdf] duneEpub).
  - apply (list_elem_of_lookup_2 _ 0%nat). vm_compute. reflexivity.
  - reflexivity.
  - reflexivity.
  - right. reflexivity.
Defined.

(** ** Sections of the series and collections view *)

Section LayoutFacts.
Context (opt : SortOption).
Implicit Types (shown : list (list Book)) (m : gmap string (list (list Book))).

Lemma layoutStep_None shown : foldl (layoutStep opt) None shown = None.
Proof. by induction shown. Qed.

Lemma layoutStep_safe m g :
  ¬ breaksLayout opt g →
  ∃ k, groupLayoutKey opt g = Some k ∧ (k ∉ objectPrototypeKeys)
       ∧ layoutStep opt (Some m) g
         = Some (<[k := (default [] (m !! k) ++ [g])]> m).
Proof.
  unfold breaksLayout, groupLayoutKey. destruct g as [|book g]; simpl; [done|].
  intros Hk. exists (layoutKey opt book). split_and!; [done..|].
  destruct (m !! layoutKey opt book); simpl; [done|].
  by rewrite bool_decide_eq_false_2.
Qed.

Lemma layout_sections shown :
  Forall (λ g, ¬ breaksLayout opt g) shown →
  ∃ m, foldl (layoutStep opt) (Some ∅) shown = Some m
       ∧ ∀ k, m !! k = if decide (sectionOf opt k shown = []) then None
                       else Some (sectionOf opt k shown).
Proof.
  induction shown as [|g shown IH] using rev_ind.
  { intros _. exists ∅. split; [done|]. intros k. by rewrite lookup_empty. }
  intros Hall. apply Forall_app in Hall as [Hs Hg].
  rewrite Forall_singleton in Hg.
  destruct (IH Hs) as (m & Hm & Hget). rewrite foldl_app, Hm. cbn [foldl].
  destruct (layoutStep_safe m g Hg) as (k & Hk & _ & ->).
  eexists. split; [done|]. intros k'. unfold sectionOf.
  rewrite filter_app, filter_cons, filter_nil.
  destruct (decide (k' = k)) as [->|Hne].
  - rewrite lookup_insert_eq, Hget.
    rewrite (decide_True (P := groupLayoutKey opt g = Some k)) by done.
    unfold sectionOf.
    destruct (filter _ shown) as [|g0 l] eqn:Hf; simpl; by repeat case_decide.
  - rewrite lookup_insert_ne, Hget by done.
    rewrite (decide_False (P := groupLayoutKey opt g = Some k')) by congruence.
    by rewrite app_nil_r.
Qed.

Lemma layout_throws shown m :
  (∀ k, k ∈ objectPrototypeKeys → m !! k = None) →
  Exists (breaksLayout opt) shown →
  foldl (layoutStep opt) (Some m) shown = None.
Proof.
  revert m. induction shown as [|g shown IH]; intros m Hm Hex;
    [by apply Exists_nil in Hex|].
  cbn [foldl]. destruct (decide (breaksLayout opt g)) as [Hb|Hb].
  - assert (layoutStep opt (Some m) g = None) as ->; [|apply layoutStep_None].
    unfold breaksLayout, groupLayoutKey in Hb.
    destruct g as [|book g]; simpl in *; [done|].
    by rewrite (Hm _ Hb), bool_decide_eq_true_2.
  - apply Exists_cons in Hex as [?|Hex]; [done|].
    destruct (layoutStep_safe m g Hb) as (k & _ & Hk & ->).
    apply IH; [|done]. intros k' Hk'.
    rewrite lookup_insert_ne; [by apply Hm|]. by intros ->.
Qed.
End LayoutFacts.

(** X15.  [viewLayoutGroups] is [null] unless the sort key is [series] or
    [group].  For these keys, when every shown group is non-empty and
    none has a section name that object literals inherit, each section
    holds exactly the shown groups with that section name, in display
    order (so every shown group is in exactly one section, the fallback
    section "Other Stories" taking the groups whose value is absent or
    blank); when some shown group has an inherited name such as
    "constructor" as its series or collection, the computation throws. *)
Theorem viewLayoutGroups_sections (opt : SortOption) (shown : list (list Book)) :
  (opt ≠ sort_series → opt ≠ sort_group → viewLayoutGroups opt shown = LayoutNull)
  ∧ (opt = sort_series ∨ opt = sort_group →
     Forall (λ g, ¬ breaksLayout opt g) shown →
     ∃ m, viewLayoutGroups opt shown = LayoutOf m
          ∧ ∀ k, m !! k = if decide (sectionOf opt k shown = []) then None
                          else Some (sectionOf opt k shown))
  ∧ (opt = sort_series ∨ opt = sort_group →
     Exists (breaksLayout opt) shown →
     viewLayoutGroups opt shown = LayoutThrows).
Proof.
  split_and!.
  - by destruct opt.
  - intros Hopt Hsafe. destruct (layout_sections opt shown Hsafe) as (m & Hm & Hget).
    exists m. split; [|done]. unfold viewLayoutGroups.
    by destruct Hopt as [-> | ->]; rewrite Hm.
  - intros Hopt Hex. unfold viewLayoutGroups.
    by destruct Hopt as [-> | ->]; rewrite layout_throws.
Qed.

Lemma viewLayoutGroups_sections_witness :
  viewLayoutGroups sort_series
    [[inSeries "constructor" "1" None emma]; [duneEpub; dunePdf]]
  = LayoutThrows.
Proof.
  destruct (viewLayoutGroups_sections sort_series
              [[inSeries "constructor" "1" None emma]; [duneEpub; dunePdf]])
    as (_ & _ & Hthrows).
  apply Hthrows; [by left|]. apply Exists_cons_hd.
  unfold breaksLayout. simpl. left.
Defined.

(** ** Order of the sections *)

Section SectionOrderFacts.
Context (lc : string → string → Z) `{!Collation lc}.

Lemma sectionCmp0_consistent : Consistent (λ _, True) (sectionCmp0 lc).
Proof.
  destruct Collation0 as [Hanti Htrans]. split.
  - intros x y _ _. specialize (Hanti x y I I).
    unfold sectionCmp0, sectionCmp.
    repeat case_bool_decide; subst; try done; lia.
  - intros x y z _ _ _. specialize (Htrans x y z I I I).
    unfold sectionCmp0, sectionCmp.
    repeat case_bool_decide; subst; try done; lia.
Qed.

Lemma sectionCmp0_ne a b : a ≠ b → (sectionCmp0 lc) a b = sectionCmp lc a b.
Proof. intros. unfold sectionCmp0. by rewrite bool_decide_eq_false_2. Qed.

Lemma insertBy_sectionCmp0 a s :
  a ∉ s → insertBy (sectionCmp lc) a s = insertBy (sectionCmp0 lc) a s.
Proof.
  induction s as [|y s IH]; [done|].
  intros [Hne Hs]%not_elem_of_cons. simpl.
  by rewrite sectionCmp0_ne, IH.
Qed.

Lemma sortBy_sectionCmp0 keys :
  NoDup keys → sortBy (sectionCmp lc) keys = sortBy (sectionCmp0 lc) keys.
Proof.
  induction 1 as [|a keys Ha _ IH]; [done|]. simpl.
  fold (sortBy (sectionCmp lc) keys) (sortBy (sectionCmp0 lc) keys).
  rewrite IH. apply insertBy_sectionCmp0. by rewrite elem_of_sortBy.
Qed.
End SectionOrderFacts.

(** X16.  For a consistent host collation and the distinct keys of the
    layout object, the sections are rendered with "Other Stories" after
    every other section, and the other sections in collation order of
    their names; no section is lost or repeated. *)
Theorem sectionOrder_fallback_last lc (keys : list string) :
  Collation lc → NoDup keys →
  sectionOrder lc keys ≡ₚ keys
  ∧ ∀ x y, precedes (sectionOrder lc keys) x y →
      x ≠ "Other Stories" ∧ (y ≠ "Other Stories" → lc x y <= 0).
Proof.
  intros Hlc Hnd. unfold sectionOrder. split; [apply sortBy_perm|].
  intros x y Hprec.
  assert (x ≠ y) as Hxy.
  { destruct Hprec as (i & j & Hij & Hi & Hj). intros ->.
    assert (NoDup (sortBy (sectionCmp lc) keys)) as Hnd'
      by by rewrite sortBy_perm.
    pose proof (NoDup_lookup _ _ _ _ Hnd' Hi Hj). lia. }
  rewrite sortBy_sectionCmp0 in Hprec by done.
  apply (sortBy_ordered _ (λ _, True)) in Hprec;
    [|by apply sectionCmp0_consistent|by apply Forall_true].
  rewrite sectionCmp0_ne in Hprec by done. unfold sectionCmp in Hprec.
  repeat case_bool_decide; subst; try done; try lia.
Qed.

Lemma sectionOrder_fallback_last_witness :
  "Zebra" ≠ "Other Stories"
  ∧ ("Other Stories" ≠ "Other Stories" →
     refLocaleCompare "Zebra" "Other Stories" <= 0).
Proof.
  destruct (sectionOrder_fallback_last refLocaleCompare
              ["Other Stories"; "Zebra"; "Alpha"] refLocaleCompare_collation)
    as [_ Hord].
  - solve_NoDup.
  - apply Hord. exists 1%nat, 2%nat.
    split_and!; [lia|vm_compute; reflexivity..].
Defined.

(** ** Saving from the detail view *)

Lemma orString_idem (x : option string) (y : string) :
  orString x (orString x y) = orString x y.
Proof. destruct x as [s|]; simpl; [|done]. by destruct (truthyS s). Qed.

Lemma orElse_idem (x y : option string) : orElse x (orElse x y) = orElse x y.
Proof. unfold orElse. by destruct (truthy x) eqn:E; rewrite ?E. Qed.

Lemma definedOr_idem (x y : option string) :
  definedOr x (definedOr x y) = definedOr x y.
Proof. by destruct x. Qed.

Lemma orString_self (s : string) : orString (Some s) s = s.
Proof. simpl. by destruct (truthyS s). Qed.

Lemma orElse_self (x : option string) : orElse x x = x.
Proof. unfold orElse. by destruct (truthy x). Qed.

Lemma definedOr_self (x : option string) : definedOr x x = x.
Proof. by destruct x. Qed.

Lemma orString_truthy (s y : string) : s ≠ "" → orString (Some s) y = s.
Proof. intros Hs. simpl. unfold truthyS. by rewrite bool_decide_eq_false_2. Qed.

(** X17.  [handleSave] of the detail view passes to [onUpdate] one record
    per file, in the order of the files, and each keeps the [id], file
    name, type, size, data, time stamp and cover color of its file.
    Saving twice with the same form gives the same records as saving
    once, and a form that was not edited leaves the shown book as it is.
    When the form holds a non-empty title and a non-empty author, every
    record gets exactly these, so the saved files all have one grouping
    key: the variants stay one group. *)
Theorem handleSave_keeps_files (book : Book) (form : FormData.t)
    (variants : list Book) :
  let files := allFiles (Some book) variants in
  let saved := handleSave (Some book) form variants in
  Forall2 (λ f u, id u = id f ∧ fileName u = fileName f
                  ∧ fileType u = fileType f ∧ fileSize u = fileSize f
                  ∧ addedAt u = addedAt f ∧ coverColor u = coverColor f
                  ∧ fileData u = fileData f) files saved
  ∧ updatedBook form <$> saved = saved
  ∧ updatedBook (formDataOf book) book = book
  ∧ (∀ t a, FormData.title form = Some t → FormData.author form = Some a →
            t ≠ "" → a ≠ "" →
            ∀ u, u ∈ saved →
              title u = t ∧ author u = a
              ∧ bookKey u = toLowerCase (trim t) +:+ "|" +:+ toLowerCase (trim a)).
Proof.
  simpl. split_and!.
  - apply Forall2_fmap_r, Forall_Forall2_diag, Forall_true. by intros f.
  - rewrite <- list_fmap_compose. apply list_fmap_ext. intros _ f _. simpl.
    unfold updatedBook; simpl.
    by rewrite !orString_idem, !orElse_idem, !definedOr_idem.
  - destruct book. unfold updatedBook, formDataOf; simpl.
    by rewrite !orElse_self, !definedOr_self;
      repeat match goal with
             | |- context [if truthyS ?s then ?s else ?s] =>
                 replace (if truthyS s then s else s) with s
                   by by destruct (truthyS s)
             end.
  - intros t a Ht Ha Hne Hne' u [f [-> _]]%list_elem_of_fmap.
    unfold bookKey, updatedBook; simpl. rewrite Ht, Ha.
    by rewrite !orString_truthy.
Qed.

Lemma handleSave_keeps_files_witness :
  title (updatedBook (formDataOf duneEpub) dunePdf) = title duneEpub
  ∧ author (updatedBook (formDataOf duneEpub) dunePdf) = author duneEpub
  ∧ bookKey (updatedBook (formDataOf duneEpub) dunePdf)
    = toLowerCase (trim (title duneEpub)) +:+ "|"
      +:+ toLowerCase (trim (author duneEpub)).
Proof.
  destruct (handleSave_keeps_files duneEpub (formDataOf duneEpub)
              [duneEpub; dunePdf]) as (_ & _ & _ & Hkey).
  apply Hkey; [reflexivity|reflexivity|discriminate|discriminate|].
  unfold handleSave, allFiles. apply list_elem_of_fmap_2. right. left.
Defined.

(** ** Import of files *)

Lemma endsWith_spec s suf : endsWith s suf = true ↔ ∃ pre, s = pre +:+ suf.
Proof.
  induction s as [|c s IH]; cbn [endsWith].
  - rewrite orb_false_r, String.eqb_eq. split.
    + intros <-. by exists "".
    + intros [pre H]. destruct pre; simpl in H; [done|discriminate].
  - rewrite orb_true_iff, String.eqb_eq, IH. split.
    + intros [<-|[pre ->]]; [by exists ""|by exists (String c pre)].
    + intros [pre H]. destruct pre as [|c' pre]; simpl in H; [by left|].
      right. exists pre. by injection H.
Qed.

Lemma toLowerCase_app a b :
  toLowerCase (a +:+ b) = toLowerCase a +:+ toLowerCase b.
Proof. induction a as [|c a IH]; simpl; [done|]. by rewrite IH. Qed.

Lemma toLowerCase_app_inv s a b :
  toLowerCase s = a +:+ b →
  ∃ s1 s2, s = s1 +:+ s2 ∧ toLowerCase s1 = a ∧ toLowerCase s2 = b.
Proof.
  revert s. induction a as [|c a IH]; intros s H; simpl in H.
  - by exists "", s.
  - destruct s as [|c' s]; simpl in H; [discriminate|].
    injection H as Hc H. destruct (IH s H) as (s1 & s2 & -> & <- & <-).
    exists (String c' s1), s2. simpl. by rewrite Hc.
Qed.

Lemma toLowerChar_dot c : toLowerChar c = "."%char ↔ c = "."%char.
Proof.
  split; [|by intros ->].
  destruct c as [[] [] [] [] [] [] [] []]; vm_compute; congruence.
Qed.

Lemma eqb_toLowerChar_dot c :
  Ascii.eqb (toLowerChar c) "." = Ascii.eqb c ".".
Proof.
  destruct (Ascii.eqb_spec c ".") as [->|Hne]; [done|].
  apply Ascii.eqb_neq. by rewrite toLowerChar_dot.
Qed.

Lemma splitOn_toLowerCase s :
  splitOn "." (toLowerCase s) = toLowerCase <$> splitOn "." s.
Proof.
  induction s as [|c s IH]; simpl; [done|].
  rewrite eqb_toLowerChar_dot, IH.
  destruct (Ascii.eqb c "."); [done|]. by destruct (splitOn "." s).
Qed.

Lemma splitOn_nonempty sep s : splitOn sep s ≠ [].
Proof.
  destruct s as [|c s]; simpl; [done|].
  destruct (Ascii.eqb c sep); [done|]. by destruct (splitOn sep s).
Qed.

Lemma last_splitOn_cons sep c s :
  (1 < length (splitOn sep s))%nat →
  (1 < length (splitOn sep (String c s)))%nat
  ∧ last (splitOn sep (String c s)) = last (splitOn sep s).
Proof.
  simpl. destruct (Ascii.eqb c sep).
  - intros H. split; [simpl; lia|].
    destruct (splitOn sep s); [simpl in H; lia|done].
  - destruct (splitOn sep s) as [|seg [|seg' rest]]; simpl; try lia.
    by intros H.
Qed.

(** The last piece of a string that ends in the separator followed by a
    string without separator. *)
Lemma last_splitOn_app sep pre x :
  splitOn sep x = [x] →
  (1 < length (splitOn sep (pre +:+ String sep x)))%nat
  ∧ last (splitOn sep (pre +:+ String sep x)) = Some x.
Proof.
  intros Hx. induction pre as [|c pre [IH1 IH2]].
  - simpl. rewrite Ascii.eqb_refl, Hx. by split; [simpl; lia|].
  - change (String c pre +:+ String sep x)
      with (String c (pre +:+ String sep x)).
    destruct (last_splitOn_cons sep c _ IH1) as [H1 H2].
    split; [done|]. by rewrite H2.
Qed.

Lemma isValidFile_ends f :
  isValidFile f = true
  ↔ ∃ e, e ∈ acceptedTypes ∧ endsWith (toLowerCase (File.name f)) (String "." e) = true.
Proof.
  unfold isValidFile, acceptedTypes. simpl. rewrite !orb_true_iff. split.
  - intros [H|[H|[H|[H|H]]]]; [| | | |done]; eexists; (split; [|exact H]);
      set_solver.
  - intros (e & He & H). set_unfold in He.
    destruct He as [->|[->|[->|[->|[]]]]]; tauto.
Qed.

(** The type derived from an accepted name is the extension that made
    the name accepted. *)
Lemma isValidFile_fileTypeOf f :
  isValidFile f = true →
  ∃ e, e ∈ acceptedTypes ∧ fileTypeOf (File.name f) = e
       ∧ endsWith (toLowerCase (File.name f)) (String "." e) = true.
Proof.
  intros (e & He & Hends)%isValidFile_ends. exists e. split_and!; [done| |done].
  pose proof Hends as (p & Hp)%endsWith_spec.
  assert (splitOn "." e = [e] ∧ e ≠ "") as [Hsplit Hne].
  { unfold acceptedTypes in He. set_unfold in He.
    by destruct He as [->|[->|[->|[->|[]]]]]. }
  unfold fileTypeOf.
  assert (toLowerCase <$> last (splitOn "." (File.name f)) = Some e) as ->.
  { rewrite <- fmap_last, <- splitOn_toLowerCase, Hp.
    by apply last_splitOn_app. }
  by apply orString_truthy.
Qed.

Lemma accepted_type f :
  isValidFile f = true → fileTypeOf (File.name f) ∈ acceptedTypes.
Proof. by intros (e & He & -> & _)%isValidFile_fileTypeOf. Qed.

(** X18.  [processFiles] accepts a file exactly when its name is some text,
    a dot, and an extension that, lower-cased, is one of epub, pdf, azw3
    and mobi.  For an accepted file, the [fileType] that [saveBooks]
    derives from the name is that lower-cased extension: it is one of the
    four, never 'unknown', and the lower-cased name ends in a dot followed
    by it. *)
Theorem accepted_files_have_known_type (f : File.t) :
  (isValidFile f = true
   ↔ ∃ pre x, File.name f = pre +:+ "." +:+ x ∧ toLowerCase x ∈ acceptedTypes)
  ∧ (isValidFile f = true →
     fileTypeOf (File.name f) ∈ acceptedTypes
     ∧ endsWith (toLowerCase (File.name f))
         ("." +:+ fileTypeOf (File.name f)) = true).
Proof.
  split; [rewrite isValidFile_ends; split|].
  - intros (e & He & (p & Hp)%endsWith_spec).
    apply toLowerCase_app_inv in Hp as (pre & s2 & Hname & _ & Hs2).
    destruct s2 as [|c x]; simpl in Hs2; [discriminate|].
    injection Hs2 as Hc Hx. apply toLowerChar_dot in Hc as ->.
    exists pre, x. split; [done|]. by rewrite Hx.
  - intros (pre & x & Hname & Hx). exists (toLowerCase x). split; [done|].
    apply endsWith_spec. exists (toLowerCase pre).
    by rewrite Hname, toLowerCase_app.
  - intros (e & He & -> & Hends)%isValidFile_fileTypeOf. done.
Qed.

Lemma accepted_files_have_known_type_witness :
  fileTypeOf "Dune.Part.1.EPUB" ∈ acceptedTypes
  ∧ endsWith (toLowerCase "Dune.Part.1.EPUB")
      ("." +:+ fileTypeOf "Dune.Part.1.EPUB") = true.
Proof.
  apply (accepted_files_have_known_type
           {| File.name := "Dune.Part.1.EPUB"; File.size := 1;
              File.arrayBuffer := [] |}).
  reflexivity.
Defined.

Lemma precedes_reverse {A} (l : list A) x y :
  precedes (reverse l) x y → precedes l y x.
Proof.
  intros (i & j & Hij & Hi & Hj).
  pose proof (lookup_lt_Some _ _ _ Hi) as Hli.
  pose proof (lookup_lt_Some _ _ _ Hj) as Hlj.
  rewrite length_reverse in Hli, Hlj.
  rewrite reverse_lookup in Hi by done. rewrite reverse_lookup in Hj by done.
  exists (length l - S j)%nat, (length l - S i)%nat. split_and!; [lia|done..].
Qed.

Lemma foldl_addBook_wf (bs : list Book) :
  NoDup (id <$> bs) → store_wf (foldl (λ d b, addBook b d) ∅ bs).
Proof.
  intros Hnd k b Hk. destruct (decide (k ∈ id <$> bs)) as [Hin|Hnotin].
  - apply list_elem_of_fmap in Hin as (w & -> & Hw).
    pose proof (foldl_updateBook_in bs ∅ w Hnd Hw) as Hw'.
    unfold updateBook in Hw'. congruence.
  - pose proof (foldl_updateBook_notin bs ∅ k Hnotin) as Hk'.
    unfold updateBook in Hk'. rewrite Hk' in Hk. by rewrite lookup_empty in Hk.
Qed.

Lemma foldl_addBook_values (bs : list Book) :
  NoDup (id <$> bs) → (map_to_list (foldl (λ d b, addBook b d) ∅ bs)).*2 ≡ₚ bs.
Proof.
  intros Hnd. apply NoDup_Permutation.
  - by apply values_NoDup, foldl_addBook_wf.
  - by eapply NoDup_fmap_1.
  - intros b. rewrite list_elem_of_fmap. split.
    + intros ([k b'] & -> & Hin%elem_of_map_to_list). simpl.
      destruct (decide (k ∈ id <$> bs)) as [Hk|Hk].
      * apply list_elem_of_fmap in Hk as (w & -> & Hw).
        pose proof (foldl_updateBook_in bs ∅ w Hnd Hw) as Hw'.
        unfold updateBook in Hw'. congruence.
      * pose proof (foldl_updateBook_notin bs ∅ k Hk) as Hk'.
        unfold updateBook in Hk'. rewrite Hk' in Hin.
        by rewrite lookup_empty in Hin.
    + intros Hb. exists (id b, b). split; [done|]. apply elem_of_map_to_list.
      by apply (foldl_updateBook_in bs ∅ b).
Qed.

Section SaveBooksFacts.
Context (now : nat → Z) (random : nat).
Implicit Types (batch : list PendingBook.t) (groupName : option string).

Lemma newBooks_ids batch groupName :
  id <$> newBooks now random batch groupName = PendingBook.tempId <$> batch.
Proof.
  unfold newBooks. generalize (length batch). intros n.
  apply list_eq. intros i.
  rewrite !list_lookup_fmap, list_lookup_imap. by destruct (batch !! i).
Qed.

Lemma newBooks_lookup batch groupName i item :
  batch !! i = Some item →
  newBooks now random batch groupName !! i
  = Some (newBook now random (length batch) groupName i item).
Proof. intros H. unfold newBooks. by rewrite list_lookup_imap, H. Qed.

Lemma newBooks_lookup_inv batch groupName i b :
  newBooks now random batch groupName !! i = Some b →
  ∃ item, batch !! i = Some item
          ∧ b = newBook now random (length batch) groupName i item.
Proof.
  unfold newBooks. rewrite list_lookup_imap.
  destruct (batch !! i) as [item|]; simpl; [|done].
  intros [= <-]. by exists item.
Qed.

Lemma newBooks_addedAt batch groupName x y :
  monotone now →
  precedes (newBooks now random batch groupName) x y → addedAt x < addedAt y.
Proof.
  intros Hmono (i & j & Hij & Hi & Hj).
  apply newBooks_lookup_inv in Hi as (a & _ & ->).
  apply newBooks_lookup_inv in Hj as (b & _ & ->). simpl.
  assert (now i <= now j) by (apply Hmono; lia). lia.
Qed.
Lemma saveBooks_frame batch groupName db :
  NoDup (PendingBook.tempId <$> batch) →
  (∀ i item, batch !! i = Some item →
     saveBooks now random batch groupName db !! PendingBook.tempId item
     = Some (newBook now random (length batch) groupName i item))
  ∧ (∀ k, k ∉ PendingBook.tempId <$> batch →
       saveBooks now random batch groupName db !! k = db !! k).
Proof.
  rewrite <- (newBooks_ids batch groupName). intros Hnd. split.
  - intros i item Hi.
    apply (foldl_updateBook_in (newBooks now random batch groupName) db
             (newBook now random (length batch) groupName i item) Hnd).
    eapply list_elem_of_lookup_2. by apply newBooks_lookup.
  - intros k Hk. apply (foldl_updateBook_notin _ db k Hk).
Qed.
End SaveBooksFacts.

(** X19.  [saveBooks], for a batch with distinct ids: every item is stored
    under its id as the record built for it and no other key changes.  A
    record takes its text fields from the metadata and its name, type and
    size from the file.  With a group name, every record of the batch gets
    that group and one common color; without one, a record keeps the group
    of its metadata and has no [groupColor], whatever the metadata said.
    When the clock never goes back, the time stamps increase strictly
    along the batch and lie before the clock reading, so an import into an
    empty library is listed by [getAllBooks] in reverse order of upload. *)
Theorem saveBooks_batch (now : nat → Z) (random : nat)
    (batch : list PendingBook.t) (groupName : option string) (db : Store) :
  NoDup (PendingBook.tempId <$> batch) →
  let record := newBook now random (length batch) groupName in
  let db' := saveBooks now random batch groupName db in
  (∀ i item, batch !! i = Some item →
     db' !! PendingBook.tempId item = Some (record i item)
     ∧ fileName (record i item) = File.name (PendingBook.file item)
     ∧ title (record i item) = BookMetadata.title (PendingBook.metadata item)
     ∧ addedAt (record i item) < now i
     ∧ (truthy groupName = true →
        group (record i item) = groupName
        ∧ groupColor (record i item) = PASTEL_COLORS !! random)
     ∧ (truthy groupName = false →
        group (record i item) = BookMetadata.group (PendingBook.metadata item)
        ∧ groupColor (record i item) = None))
  ∧ (∀ k, k ∉ PendingBook.tempId <$> batch → db' !! k = db !! k)
  ∧ (monotone now →
     (∀ i j a b, (i < j)%nat → batch !! i = Some a → batch !! j = Some b →
        addedAt (record i a) < addedAt (record j b))
     ∧ (db = ∅ →
        getAllBooks db' = reverse (newBooks now random batch groupName))).
Proof.
  intros Hnd record db'. rewrite <- (newBooks_ids now random batch groupName) in Hnd.
  split_and!.
  - intros i item Hi. split_and!; try done.
    + apply (foldl_updateBook_in (newBooks now random batch groupName) db
               (record i item) Hnd).
      eapply list_elem_of_lookup_2. by apply newBooks_lookup.
    + simpl. apply lookup_lt_Some in Hi. lia.
    + intros Hg. unfold record, newBook, batchGroupColor, orElse; simpl.
      by rewrite Hg.
    + intros Hg. unfold record, newBook, batchGroupColor, orElse; simpl.
      rewrite Hg. split; [done|].
      by destruct (truthy (BookMetadata.group (PendingBook.metadata item))).
  - intros k Hk. rewrite <- (newBooks_ids now random batch groupName) in Hk.
    apply (foldl_updateBook_notin _ db k Hk).
  - intros Hmono. split.
    + intros i j a b Hij Ha Hb.
      apply (newBooks_addedAt now random batch groupName); [done|].
      exists i, j. split_and!; [done|by apply newBooks_lookup..].
    + intros ->. unfold db', saveBooks.
      apply (ordered_perm_unique (λ a b, addedAt b - addedAt a)).
      * rewrite getAllBooks_perm, foldl_addBook_values by done.
        by rewrite reverse_Permutation.
      * intros x y Hx Hy Hxy Hyx.
        rewrite getAllBooks_perm, foldl_addBook_values in Hx, Hy by done.
        apply list_elem_of_lookup in Hx as [i Hi].
        apply list_elem_of_lookup in Hy as [j Hj].
        destruct (decide (i = j)) as [->|Hne]; [congruence|].
        assert (addedAt x < addedAt y ∨ addedAt y < addedAt x) as Hlt; [|lia].
        destruct (decide (i < j)%nat); [left|right];
          apply (newBooks_addedAt now random batch groupName); try done;
          eexists _, _; split_and!; try done; lia.
      * intros x y Hxy.
        by apply (sortBy_ordered _ (λ _, True)) in Hxy;
          [|apply addedAt_desc_consistent|apply Forall_true].
      * intros x y Hxy%precedes_reverse.
        apply (newBooks_addedAt now random batch groupName) in Hxy; [lia|done].
Qed.

Lemma saveBooks_batch_witness :
  getAllBooks (saveBooks frozenClock 3 sampleBatch None ∅)
  = reverse (newBooks frozenClock 3 sampleBatch None).
Proof.
  destruct (saveBooks_batch frozenClock 3 sampleBatch None ∅) as (_ & _ & H).
  - solve_NoDup.
  - apply H; [by intros i j _|done].
Defined.

Lemma validFiles_spec files f :
  f ∈ validFiles files ↔ f ∈ files ∧ isValidFile f = true.
Proof. unfold validFiles. rewrite list_elem_of_filter. tauto. Qed.

Lemma tempQueue_ids ai year uuid draw files :
  PendingBook.tempId <$> tempQueue ai year uuid draw files
  = uuid <$> seq 0 (length (validFiles files)).
Proof.
  unfold tempQueue. apply list_eq. intros i.
  rewrite !list_lookup_fmap, list_lookup_imap.
  destruct (validFiles files !! i) as [f|] eqn:Hf; simpl.
  - rewrite lookup_seq_lt by by eapply lookup_lt_Some. done.
  - rewrite lookup_seq_ge by by apply lookup_ge_None. done.
Qed.

(** X20.  Import without API key.  [processFiles] reports an error exactly
    when no selected file has an accepted name, and then stores nothing.
    Otherwise, when the ids drawn for the accepted files are distinct, it
    never stops for review: it stores one record per accepted file, in
    their order and under the drawn id, whose title is the file name, the
    author 'Unknown Author', the group the empty string and the
    [groupColor] absent, whose [fileType] is one of the accepted
    extensions, and whose grouping key is therefore the lower-cased,
    trimmed file name followed by "|unknown author"; every other key of
    the store is left as it was. *)
Theorem processFiles_without_api_key (year : string) (uuid : nat → string)
    (draw : nat → nat) (now : nat → Z) (random : nat)
    (files : list File.t) (db : Store) :
  let outcome := processFiles None year uuid draw now random files db in
  (outcome = NoCompatibleFiles ↔ ∀ f, f ∈ files → isValidFile f = false)
  ∧ (NoDup (uuid <$> seq 0 (length (validFiles files))) →
     validFiles files ≠ [] →
     ∃ db', outcome = Saved db'
       ∧ (∀ i f, validFiles files !! i = Some f →
            ∃ b, db' !! uuid i = Some b
              ∧ id b = uuid i ∧ title b = File.name f
              ∧ fileName b = File.name f
              ∧ author b = "Unknown Author"
              ∧ group b = Some "" ∧ groupColor b = None
              ∧ fileType b ∈ acceptedTypes
              ∧ bookKey b = toLowerCase (trim (File.name f))
                            +:+ "|unknown author")
       ∧ (∀ k, k ∉ uuid <$> seq 0 (length (validFiles files)) →
            db' !! k = db !! k)).
Proof.
  intros outcome. split.
  - unfold outcome, processFiles.
    destruct (validFiles files) as [|f0 l] eqn:Hv.
    + split; [|done]. intros _ f Hf. apply not_true_is_false. intros Hvalid.
      assert (f ∈ validFiles files) as Hin by by apply validFiles_spec.
      rewrite Hv in Hin. by apply elem_of_nil in Hin.
    + split; [by case_match|]. intros Hnone.
      assert (f0 ∈ validFiles files) as [Hf0 Hvalid]%validFiles_spec
        by (rewrite Hv; left).
      rewrite (Hnone f0 Hf0) in Hvalid. done.
  - intros Hnd Hne.
    rewrite <- (tempQueue_ids None year uuid draw files) in Hnd.
    destruct (saveBooks_frame now random
                (tempQueue None year uuid draw files) None db Hnd)
      as [Hin Hout].
    exists (saveBooks now random (tempQueue None year uuid draw files) None db).
    split_and!.
    + unfold outcome, processFiles.
      destruct (validFiles files) as [|f0 l] eqn:Hv; [done|].
      assert (∀ l', suggestGroupName None l' = "") as -> by by intros [|??].
      by rewrite andb_false_r.
    + intros i f Hf.
      assert (tempQueue None year uuid draw files !! i
              = Some {| PendingBook.file := f;
                        PendingBook.metadata := fallbackMetadata year (File.name f);
                        PendingBook.tempId := uuid i;
                        PendingBook.coverColor :=
                          PASTEL_COLORS !!! (draw i `mod` 12)%nat |}) as Hq.
      { unfold tempQueue. by rewrite list_lookup_imap, Hf. }
      eexists. split; [by apply (Hin _ _ Hq)|].
      assert (isValidFile f = true) as Hvalid.
      { eapply validFiles_spec, list_elem_of_lookup_2, Hf. }
      split_and!; try done.
      by apply accepted_type.
    + intros k Hk. apply Hout.
      by rewrite (tempQueue_ids None year uuid draw files).
Qed.

Lemma processFiles_without_api_key_witness :
  ∃ db', processFiles None "2024" (λ i, toString (Z.of_nat i)) (λ _, 0%nat)
           frozenClock 0 sampleFiles ∅ = Saved db'.
Proof.
  destruct (processFiles_without_api_key "2024" (λ i, toString (Z.of_nat i))
              (λ _, 0%nat) frozenClock 0 sampleFiles ∅) as [_ Hsaved].
  destruct Hsaved as (db' & Hdb' & _).
  - vm_compute. solve_NoDup.
  - vm_compute. discriminate.
  - by exists db'.
Defined.

(** ** The master lock *)

Section AuthFacts.
Context (hash : string → string).
Implicit Types (st : Auth.Storage) (now : nat → Z) (pw : string).

Lemma login_locked now pw st :
  now 0%nat < Auth.lockoutUntil (Auth.attemptsOf st) →
  Auth.login hash now pw st
  = Some (Auth.Failure "Too many attempts. Locked."
            (Some (Auth.ceilSeconds
                     (Auth.lockoutUntil (Auth.attemptsOf st) - now 1%nat))),
          st).
Proof.
  intros H. unfold Auth.login. simpl. by rewrite bool_decide_eq_true_2.
Qed.

Lemma login_wrong now pw st h :
  Auth.masterLock st = Some h → hash pw ≠ h →
  Auth.lockoutUntil (Auth.attemptsOf st) <= now 0%nat →
  Auth.login hash now pw st
  = Some (Auth.Failure "Incorrect password" None,
          Auth.setAttempts
            (Some (if bool_decide (5 <= Auth.count (Auth.attemptsOf st) + 1)
                   then Auth.mkAttempts 0 (now 1%nat + 30 * 1000)
                   else Auth.mkAttempts (Auth.count (Auth.attemptsOf st) + 1)
                          (Auth.lockoutUntil (Auth.attemptsOf st)))) st).
Proof.
  intros Hm Hne Hl. unfold Auth.login. simpl.
  rewrite bool_decide_eq_false_2 by lia. rewrite Hm.
  by rewrite bool_decide_eq_false_2.
Qed.

(** Wrong passwords below the limit only count up. *)
Lemma logins_count tries st h c L :
  Auth.masterLock st = Some h →
  Auth.attemptsOf st = Auth.mkAttempts c L →
  Forall (λ try, hash try.2 ≠ h ∧ L <= try.1 0%nat) tries →
  c + Z.of_nat (length tries) < 5 →
  Auth.masterLock (logins hash tries st) = Some h
  ∧ Auth.session (logins hash tries st) = Auth.session st
  ∧ Auth.attemptsOf (logins hash tries st)
    = Auth.mkAttempts (c + Z.of_nat (length tries)) L.
Proof.
  intros Hm Ha.
  induction tries as [|[now pw] tries IH] using rev_ind.
  { intros _ _. simpl. by rewrite Z.add_0_r. }
  intros [Hall [Hw Hl]%Forall_singleton]%Forall_app. simpl in Hw, Hl.
  rewrite length_app. simpl. intros Hc.
  destruct IH as (IHm & IHs & IHa); [done|lia|].
  unfold logins. rewrite foldl_app. fold (logins hash tries st). simpl.
  rewrite (login_wrong now pw _ h) by (rewrite ?IHa; done).
  rewrite IHa. simpl. rewrite bool_decide_eq_false_2 by lia.
  split_and!; [done..|]. unfold Auth.attemptsOf. simpl. f_equal. lia.
Qed.
End AuthFacts.

(** X21.  Lockout.  On a storage with a master password, a stored count
    [c] below 5 and no lockout running: after [5 - c] calls of [login]
    with wrong passwords, the count is back to 0 and a lockout is set that
    ends 30 seconds after the clock reading of the last call; the master
    password and the session are as before.  As long as the clock read at
    entry is before that end, every further call, with the right password
    too, is refused as locked and changes nothing; the remaining time it
    reports is between 1 and 30 seconds when its second clock reading is
    not before the lockout was set and before its end. *)
Theorem login_lockout (hash : string → string) (st : Auth.Storage)
    (h : string) (c L : Z) (tries : list ((nat → Z) * string))
    (now : nat → Z) (pw : string) :
  Auth.masterLock st = Some h →
  Auth.attemptsOf st = Auth.mkAttempts c L →
  0 <= c < 5 →
  Forall (λ try, hash try.2 ≠ h ∧ L <= try.1 0%nat) (tries ++ [(now, pw)]) →
  Z.of_nat (length tries) + 1 = 5 - c →
  let st' := logins hash (tries ++ [(now, pw)]) st in
  Auth.loginAttempts st' = Some (Auth.mkAttempts 0 (now 1%nat + 30000))
  ∧ Auth.masterLock st' = Some h ∧ Auth.session st' = Auth.session st
  ∧ ∀ now' pw', now' 0%nat < now 1%nat + 30000 →
      Auth.login hash now' pw' st'
      = Some (Auth.Failure "Too many attempts. Locked."
                (Some (Auth.ceilSeconds (now 1%nat + 30000 - now' 1%nat))),
              st')
        ∧ (now 1%nat <= now' 1%nat < now 1%nat + 30000 →
           1 <= Auth.ceilSeconds (now 1%nat + 30000 - now' 1%nat) <= 30).
Proof.
  intros Hm Ha Hc [Hall [Hw Hl]%Forall_singleton]%Forall_app Hlen st'.
  simpl in Hw, Hl.
  destruct (logins_count hash tries st h c L) as (IHm & IHs & IHa);
    [done|done|done|lia|].
  assert (st' = Auth.setAttempts
                  (Some (Auth.mkAttempts 0 (now 1%nat + 30000)))
                  (logins hash tries st)) as ->.
  { unfold st', logins. rewrite foldl_app. fold (logins hash tries st). simpl.
    rewrite (login_wrong hash now pw _ h) by (rewrite ?IHa; done).
    rewrite IHa. simpl. by rewrite bool_decide_eq_true_2 by lia. }
  split_and!; try done.
  intros now' pw' Hlocked. split; [by rewrite login_locked|].
  intros Hnow. unfold Auth.ceilSeconds.
  Z.to_euclidean_division_equations. lia.
Qed.

Lemma login_lockout_witness :
  Auth.login sampleHash (clockAt 20000) "secret"
    (logins sampleHash [(clockAt 100, "guess"); (clockAt 5000, "12345")]
       sampleStorage)
  = Some (Auth.Failure "Too many attempts. Locked."
            (Some (Auth.ceilSeconds (clockAt 5000 1 + 30000 - clockAt 20000 1))),
          logins sampleHash [(clockAt 100, "guess"); (clockAt 5000, "12345")]
            sampleStorage).
Proof.
  destruct (login_lockout sampleHash sampleStorage (sampleHash "secret") 3 0
              [(clockAt 100, "guess")] (clockAt 5000) "12345")
    as (_ & _ & _ & Hlocked).
  - reflexivity.
  - reflexivity.
  - lia.
  - simpl. repeat (apply Forall_cons; split;
                   [split; [vm_compute; discriminate|unfold clockAt; simpl; lia]|]).
    apply Forall_nil_2.
  - reflexivity.
  - apply Hlocked. unfold clockAt. simpl. lia.
Defined.

(** X22.  [login] always answers.  It succeeds exactly when no lockout is
    running at the clock reading taken on entry (and, on a storage
    without master password, at the reading of the repeated call) and
    the digest of the password is the stored one, or that of the default
    password when none is stored.  A success removes the attempt counter,
    stores the digest as master password and starts a session that
    expires 24 hours after the next clock reading; a refusal neither
    starts nor ends a session. *)
Theorem login_outcome (hash : string → string) (now : nat → Z) (pw : string)
    (st : Auth.Storage) :
  ∃ r st',
    Auth.login hash now pw st = Some (r, st')
    ∧ (r = Auth.Success
       ↔ Auth.lockoutUntil (Auth.attemptsOf st) <= now 0%nat
         ∧ (Auth.masterLock st = None →
            Auth.lockoutUntil (Auth.attemptsOf st) <= now 1%nat)
         ∧ hash pw = default (hash "anhpham14079") (Auth.masterLock st))
    ∧ (r = Auth.Success →
       Auth.loginAttempts st' = None
       ∧ Auth.masterLock st' = Some (hash pw)
       ∧ Auth.session st'
         = Some (now (match Auth.masterLock st with
                      | Some _ => 1%nat
                      | None => 2%nat
                      end) + 86400000))
    ∧ (r ≠ Auth.Success → Auth.session st' = Auth.session st).
Proof.
  unfold Auth.login. cbn [Auth.loginFrom].
  destruct (decide (now 0%nat < Auth.lockoutUntil (Auth.attemptsOf st)))
    as [Hlock|Hfree].
  { rewrite bool_decide_eq_true_2 by done. eexists _, _. split; [done|].
    split_and!; [|done|done]. split; [done|]. intros [? _]. lia. }
  rewrite bool_decide_eq_false_2 by done.
  destruct (Auth.masterLock st) as [h|] eqn:Hm.
  - destruct (decide (hash pw = h)) as [Hh|Hh].
    + rewrite bool_decide_eq_true_2 by done. eexists _, _. split; [done|].
      simpl. rewrite Hm. split_and!; try done; [|by rewrite Hh].
      split; [|done]. intros _. split_and!; [lia|done|done].
    + rewrite bool_decide_eq_false_2 by done. eexists _, _. split; [done|].
      simpl. split_and!; try done. split; [done|]. by intros (_ & _ & ?).
  - assert (Auth.attemptsOf (Auth.init hash st) = Auth.attemptsOf st) as ->
      by done.
    destruct (decide (now 1%nat < Auth.lockoutUntil (Auth.attemptsOf st)))
      as [Hlock|Hfree'].
    { rewrite bool_decide_eq_true_2 by done. eexists _, _. split; [done|].
      split_and!; [|done|done]. split; [done|]. intros (_ & H & _).
      specialize (H eq_refl). lia. }
    rewrite bool_decide_eq_false_2 by done. simpl. rewrite Hm.
    destruct (decide (hash pw = hash "anhpham14079")) as [Hh|Hh].
    + rewrite bool_decide_eq_true_2 by done. eexists _, _. split; [done|].
      simpl. rewrite Hm. split_and!; try done; [|by rewrite Hh].
      split; [|done]. intros _. split_and!; [lia|intros _; lia|done].
    + rewrite bool_decide_eq_false_2 by done. eexists _, _. split; [done|].
      simpl. split_and!; try done. split; [done|]. by intros (_ & _ & ?).
Qed.

Lemma trim_empty_iff pw :
  truthyS pw && negb (String.eqb (trim pw) "") = true ↔ trim pw ≠ "".
Proof.
  rewrite andb_true_iff, negb_true_iff, String.eqb_neq. unfold truthyS.
  rewrite negb_true_iff, bool_decide_eq_false. split; [tauto|].
  intros H. split; [|done]. by intros ->.
Qed.

(** X23.  Sessions and the password.  A session started at clock reading
    [t] is accepted by [checkSession] up to and including 24 hours later
    and leaves the storage as it is; once a check comes later than that,
    the session is removed, so that every later check fails too, even if
    the clock is set back.  [updatePassword] with a password that is not
    blank stores its digest, ends the session and keeps the attempt
    counter and a running lockout; the new password then logs in as soon
    as no lockout is running.  A blank password changes nothing but the
    initialisation of a missing master password. *)
Theorem session_and_password (hash : string → string) (st : Auth.Storage)
    (t : Z) (pw : string) :
  (∀ now, now <= t + 86400000 →
     Auth.checkSession now (Auth.startSession t st)
     = (true, Auth.startSession t st))
  ∧ (∀ now now', t + 86400000 < now →
       (Auth.checkSession now (Auth.startSession t st)).1 = false
       ∧ (Auth.checkSession now'
            (Auth.checkSession now (Auth.startSession t st)).2).1 = false)
  ∧ (trim pw ≠ "" →
     let st' := Auth.updatePassword hash pw st in
     Auth.masterLock st' = Some (hash pw)
     ∧ Auth.session st' = None
     ∧ Auth.loginAttempts st' = Auth.loginAttempts st
     ∧ (∀ now, Auth.checkSession now st' = (false, st'))
     ∧ (∀ now, Auth.lockoutUntil (Auth.attemptsOf st) <= now 0%nat →
          ∃ st'', Auth.login hash now pw st' = Some (Auth.Success, st'')))
  ∧ (trim pw = "" →
     Auth.updatePassword hash pw st
     = match Auth.masterLock st with
       | Some _ => st
       | None => Auth.init hash st
       end).
Proof.
  split_and!.
  - intros now Hnow. unfold Auth.checkSession. simpl.
    by rewrite bool_decide_eq_false_2 by lia.
  - intros now now' Hnow. unfold Auth.checkSession. simpl.
    by rewrite bool_decide_eq_true_2 by lia.
  - intros Hpw%trim_empty_iff st'. unfold st', Auth.updatePassword.
    rewrite Hpw. clear st'.
    assert (∀ st1, Auth.loginAttempts st1 = Auth.loginAttempts st →
              ∀ now, Auth.lockoutUntil (Auth.attemptsOf st) <= now 0%nat →
                ∃ st'', Auth.login hash now pw
                          (Auth.logout
                             {| Auth.masterLock := Some (hash pw);
                                Auth.session := Auth.session st1;
                                Auth.loginAttempts := Auth.loginAttempts st1;
                                Auth.settings := Auth.settings st1 |})
                        = Some (Auth.Success, st'')) as Hlogin.
    { intros st1 Ha now Hl. unfold Auth.login. cbn [Auth.loginFrom].
      unfold Auth.attemptsOf in *. simpl. rewrite Ha.
      rewrite bool_decide_eq_false_2 by lia.
      rewrite bool_decide_eq_true_2 by done. by eexists. }
    destruct (Auth.masterLock st) eqn:Hm; (split_and!; [done..|]);
      intros now Hl;
      [apply (Hlogin st)|apply (Hlogin (Auth.init hash st))]; done.
  - intros Hpw. unfold Auth.updatePassword.
    assert (truthyS pw && negb (String.eqb (trim pw) "") = false) as ->.
    { apply not_true_is_false. rewrite trim_empty_iff. by intros []. }
    done.
Qed.

Lemma session_and_password_witness :
  ∃ st'', Auth.login sampleHash (clockAt 50) "new pass"
            (Auth.updatePassword sampleHash "new pass" sampleStorage)
          = Some (Auth.Success, st'').
Proof.
  destruct (session_and_password sampleHash sampleStorage 0 "new pass")
    as (_ & _ & H & _).
  destruct H as (_ & _ & _ & _ & H); [vm_compute; discriminate|].
  apply H. vm_compute. discriminate.
Defined.

Lemma login_outcome_witness :
  ∃ st', Auth.login sampleHash (clockAt 0) "anhpham14079"
           (Auth.mkStorage None None None None)
         = Some (Auth.Success, st').
Proof.
  destruct (login_outcome sampleHash (clockAt 0) "anhpham14079"
              (Auth.mkStorage None None None None))
    as (r & st' & Hlogin & [_ Hsuccess] & _).
  exists st'. rewrite Hlogin, Hsuccess; [done|].
  split_and!; [done|by intros _|done].
Defined.

(** ** Color of a section header *)

(** X24.  The color of a section header, under the sort keys [series] and
    [group].  A non-empty color shown is the color, in the field that the
    sort key asks for, of some book of the section.  When every book of
    a non-empty section has the same non-empty color in that field, the
    header has it.  But the header takes the field from the first book
    that has either color: if that book has only the other color, the
    header has no color, whatever the later books have. *)
Theorem sectionColor_first_colored (opt : SortOption)
    (section : list (list Book)) (c : string) :
  opt = sort_series ∨ opt = sort_group →
  let field := match opt with sort_series => seriesColor | _ => groupColor end in
  let other := match opt with sort_series => groupColor | _ => seriesColor end in
  (sectionColor opt section = Some c → c ≠ "" →
   ∃ g b, g ∈ section ∧ b ∈ g ∧ field b = Some c)
  ∧ (concat section ≠ [] → c ≠ "" →
     (∀ g b, g ∈ section → b ∈ g → field b = Some c) →
     sectionColor opt section = Some c)
  ∧ (∀ b rest, concat section = b :: rest →
       truthy (other b) = true → truthy (field b) = false →
       truthy (sectionColor opt section) = false).
Proof.
  intros Hopt field other.
  assert (sectionColor opt section
          = find (λ b, truthy (groupColor b) || truthy (seriesColor b))
              (concat section) ≫= field) as ->
    by by destruct Hopt as [-> | ->].
  split_and!.
  - destruct (find _ _) as [b|] eqn:Hf; simpl; [|done].
    intros Hb _. apply find_some in Hf as [Hin _].
    apply list_elem_of_In, elem_of_concat in Hin as (g & Hbg & Hg).
    by exists g, b.
  - intros Hne Hc Hall. destruct (find _ _) as [b|] eqn:Hf; simpl.
    + apply find_some in Hf as [Hin _].
      apply list_elem_of_In, elem_of_concat in Hin as (g & Hbg & Hg).
      by apply (Hall g b).
    + destruct (concat section) as [|b rest] eqn:Hcat; [done|].
      assert (b ∈ concat section) as (g & Hbg & Hg)%elem_of_concat
        by (rewrite Hcat; left).
      pose proof (find_none _ _ Hf b) as Hnone. simpl in Hnone.
      specialize (Hnone (or_introl eq_refl)).
      apply orb_false_iff in Hnone as [Hg0 Hs0].
      pose proof (Hall g b Hg Hbg) as Hb. unfold field in Hb.
      destruct Hopt as [-> | ->]; rewrite Hb in *; simpl in *;
        unfold truthyS in *; by rewrite bool_decide_eq_false_2 in *.
  - intros b rest Hcat Ho Hfld. rewrite Hcat. simpl.
    assert (truthy (groupColor b) || truthy (seriesColor b) = true) as ->.
    { unfold other, field in *. destruct Hopt as [-> | ->]; rewrite Ho;
        by rewrite ?orb_true_r. }
    done.
Qed.

Lemma sectionColor_first_colored_witness :
  truthy (sectionColor sort_group
            [[inGroup "Sci-Fi" None (inSeries "Emma" "1" (Some "#ef4444") emma)];
               [duneEpub]])
  = false.
Proof.
  destruct (sectionColor_first_colored sort_group
              [[inGroup "Sci-Fi" None (inSeries "Emma" "1" (Some "#ef4444") emma)];
               [duneEpub]]
              "#10b981") as (_ & _ & H); [by right|].
  by eapply H.
Defined.
